(** * loglumber: a rolling log writer (fork of lumberjack v2)

  A shallow embedding of [lumberjack.go]: the [Logger] with its size and
  day-split rotation, the backup naming scheme, the retention sweep
  ([millRunOnce]) and the gzip worker ([compressLogFile]), over a small
  model of the parts of the Go runtime the program calls: [strings],
  [path/filepath], [time] and the file operations of [os].

  Conventions.
  - Go's [int] and [int64] are [Z] with the 64-bit wrap-around written
    out ([wrap64]).
  - A Go [string] is a [string]; a [[]byte] is a [list byte].
  - [time.Time] keeps whole seconds, nanoseconds and a location.
  - The file system is a finite map from cleaned paths to files; every
    primitive is logged in a trace and may fail as an oracle decides. *)

From Stdlib Require Import ZArith List String Ascii Lia Bool ZifyBool.
From stdpp Require Import base gmap strings list sorting.

Open Scope Z_scope.

(** ** Machine integers *)

Definition wrap64 (z : Z) : Z := (z + 2 ^ 63) mod 2 ^ 64 - 2 ^ 63.

Definition inInt64 (z : Z) : Prop := - 2 ^ 63 <= z < 2 ^ 63.

(** ** Package [strings] and string slicing *)

Module GoString.

Definition len (s : string) : nat := String.length s.

(** [strings.HasPrefix(s, p)]. *)
Definition HasPrefix (s p : string) : bool := String.prefix p s.

(** [strings.HasSuffix(s, suf)]. *)
Definition HasSuffix (s suf : string) : bool :=
  (len suf <=? len s)%nat
  && String.eqb (substring (len s - len suf) (len suf) s) suf.

(** [s[lo:hi]]; [None] stands for the run-time panic on bad bounds. *)
Definition slice (s : string) (lo hi : nat) : option string :=
  if (lo <=? hi)%nat && (hi <=? len s)%nat
  then Some (substring lo (hi - lo) s) else None.

End GoString.

(** ** Package [path/filepath] (Unix separator)

  Paths are handled as the library does: lexically.  [Clean] is the
  component walk of the Go implementation: empty and [.] elements are
  dropped, [..] removes the element before it when there is one that is
  not itself [..]. *)

Module FilePath.

Definition chars (s : string) : list ascii := list_ascii_of_string s.
Definition str (l : list ascii) : string := string_of_list_ascii l.

Definition slash : ascii := "/"%char.
Definition dot : ascii := "."%char.

Definition isSlash (c : ascii) : bool := Ascii.eqb c slash.
Definition notSlash (c : ascii) : bool := negb (isSlash c).

Fixpoint dropWhileB {A} (f : A -> bool) (l : list A) : list A :=
  match l with
  | [] => []
  | x :: r => if f x then dropWhileB f r else l
  end.

Fixpoint takeWhileB {A} (f : A -> bool) (l : list A) : list A :=
  match l with
  | [] => []
  | x :: r => if f x then x :: takeWhileB f r else []
  end.

(** Split at every separator; [split "a//b" = ["a"; ""; "b"]]. *)
Fixpoint split (l : list ascii) : list (list ascii) :=
  match l with
  | [] => [[]]
  | c :: r =>
      if isSlash c then [] :: split r
      else match split r with
           | h :: t => (c :: h) :: t
           | [] => [[c]]
           end
  end.

Definition isDotDot (c : list ascii) : bool :=
  match c with
  | [a; b] => Ascii.eqb a dot && Ascii.eqb b dot
  | _ => false
  end.

Definition isDot (c : list ascii) : bool :=
  match c with
  | [a] => Ascii.eqb a dot
  | _ => false
  end.

Definition isEmpty (c : list ascii) : bool :=
  match c with [] => true | _ => false end.

(** One element of the walk; [st] is the output so far, last element
    first. *)
Definition cleanStep (rooted : bool) (st : list (list ascii)) (c : list ascii)
  : list (list ascii) :=
  if isEmpty c || isDot c then st
  else if isDotDot c then
    match st with
    | top :: rest => if isDotDot top then c :: st else rest
    | [] => if rooted then [] else [c]
    end
  else c :: st.

Fixpoint joinSlash (cs : list (list ascii)) : list ascii :=
  match cs with
  | [] => []
  | [c] => c
  | c :: r => c ++ slash :: joinSlash r
  end.

Definition render (rooted : bool) (st : list (list ascii)) : list ascii :=
  let body := joinSlash (rev st) in
  if rooted then slash :: body
  else match body with [] => [dot] | _ => body end.

Definition isRooted (l : list ascii) : bool :=
  match l with c :: _ => isSlash c | [] => false end.

Definition cleanChars (l : list ascii) : list ascii :=
  match l with
  | [] => [dot]
  | _ => render (isRooted l) (fold_left (cleanStep (isRooted l)) (split l) [])
  end.

Definition Clean (p : string) : string := str (cleanChars (chars p)).

(** [filepath.Base]: the last element, trailing separators removed. *)
Definition baseChars (l : list ascii) : list ascii :=
  match l with
  | [] => [dot]
  | _ =>
      match dropWhileB isSlash (rev l) with
      | [] => [slash]
      | r => rev (takeWhileB notSlash r)
      end
  end.

Definition Base (p : string) : string := str (baseChars (chars p)).

(** [filepath.Ext]: from the last dot of the last element. *)
Fixpoint extRev (r acc : list ascii) : list ascii :=
  match r with
  | [] => []
  | c :: r' =>
      if isSlash c then []
      else if Ascii.eqb c dot then c :: acc
      else extRev r' (c :: acc)
  end.

Definition Ext (p : string) : string := str (extRev (rev (chars p)) []).

(** [filepath.Dir]: everything up to the last separator, cleaned. *)
Definition Dir (p : string) : string :=
  str (cleanChars (rev (dropWhileB notSlash (rev (chars p))))).

(** [filepath.Join(a, b)]. *)
Definition Join (a b : string) : string :=
  match a, b with
  | EmptyString, EmptyString => EmptyString
  | EmptyString, _ => Clean b
  | _, EmptyString => Clean a
  | _, _ => Clean (a +:+ "/" +:+ b)
  end.

Definition noSlash (s : string) : bool := forallb notSlash (chars s).

(** A plain file name: one non-empty element that is neither [.] nor
    [..]. *)
Definition plainName (s : string) : bool :=
  noSlash s && negb (isEmpty (chars s)) && negb (isDot (chars s))
  && negb (isDotDot (chars s)).

(** The same, on the characters of the name. *)
Definition plainChars (f : list ascii) : Prop :=
  forallb notSlash f = true /\ isEmpty f = false /\ isDot f = false
  /\ isDotDot f = false.

End FilePath.

(** ** Package [time]

    A [Time] is an instant (seconds and nanoseconds since the Unix epoch)
    together with the location it is displayed in.  [time.Local] is a
    fixed offset [tz] east of UTC, in seconds; daylight-saving
    transitions are not modelled.  The calendar is the proleptic
    Gregorian one. *)

Module GoTime.

Inductive Location := UTC | Local.

Record Time := mkTime { t_sec : Z; t_nsec : Z; t_loc : Location }.

Definition Duration := Z.

Definition Second : Duration := 1000000000.
Definition Hour : Duration := 3600 * Second.

(** The zero [Time{}]: January 1, year 1, 00:00:00 UTC. *)
Definition zeroTime : Time := mkTime (-62135596800) 0 UTC.

Definition Unix (t : Time) : Z := t_sec t.

(** [time.Unix(sec, 0)]: the instant, displayed in [time.Local]. *)
Definition ofUnix (sec : Z) : Time := mkTime sec 0 Local.

Definition toUTC (t : Time) : Time := mkTime (t_sec t) (t_nsec t) UTC.

Definition offset (tz : Z) (loc : Location) : Z :=
  match loc with UTC => 0 | Local => tz end.

(** [t.After(u)] and [t.Before(u)] compare instants. *)
Definition After (t u : Time) : bool :=
  (t_sec u <? t_sec t) || ((t_sec u =? t_sec t) && (t_nsec u <? t_nsec t)).

Definition Before (t u : Time) : bool := After u t.

(** [t.Add(d)]: Go divides and takes remainders towards zero. *)
Definition Add (t : Time) (d : Duration) : Time :=
  let dsec := Z.quot d 1000000000 in
  let nsec := t_nsec t + Z.rem d 1000000000 in
  if 1000000000 <=? nsec then mkTime (t_sec t + dsec + 1) (nsec - 1000000000) (t_loc t)
  else if nsec <? 0 then mkTime (t_sec t + dsec - 1) (nsec + 1000000000) (t_loc t)
  else mkTime (t_sec t + dsec) nsec (t_loc t).

(** *** Calendar *)

Definition isLeap (y : Z) : bool :=
  (y mod 4 =? 0) && (negb (y mod 100 =? 0) || (y mod 400 =? 0)).

Definition daysIn (y m : Z) : Z :=
  if m =? 2 then (if isLeap y then 29 else 28)
  else if (m =? 4) || (m =? 6) || (m =? 9) || (m =? 11) then 30
  else 31.

(** The calendar repeats every 400 years (146097 days).  Within one such
    era, counted from March 1: the year, month and day of a day number,
    and back.  Hinnant's algorithms, over unbounded integers. *)
Definition eraCivil (doe : Z) : Z * Z * Z :=
  let yoe := (doe - doe / 1460 + doe / 36524 - doe / 146096) / 365 in
  let doy := doe - (365 * yoe + yoe / 4 - yoe / 100) in
  let mp := (5 * doy + 2) / 153 in
  let d := doy - (153 * mp + 2) / 5 + 1 in
  let m := if mp <? 10 then mp + 3 else mp - 9 in
  (yoe, m, d).

Definition eraDays (yoe m d : Z) : Z :=
  let mp := if 2 <? m then m - 3 else m + 9 in
  let doy := (153 * mp + 2) / 5 + d - 1 in
  yoe * 365 + yoe / 4 - yoe / 100 + doy.

(** Days since 1970-01-01 of a civil date; the day may lie outside the
    month, as in [time.Date], which normalises. *)
Definition days_from_civil (y m d : Z) : Z :=
  let y' := if m <=? 2 then y - 1 else y in
  let era := y' / 400 in
  era * 146097 + eraDays (y' - era * 400) m d - 719468.

Definition civil_from_days (z : Z) : Z * Z * Z :=
  let z' := z + 719468 in
  let era := z' / 146097 in
  let '(yoe, m, d) := eraCivil (z' - era * 146097) in
  (yoe + era * 400 + (if m <=? 2 then 1 else 0), m, d).

Record Civil := mkCivil
  { c_year : Z; c_month : Z; c_day : Z; c_hour : Z; c_min : Z; c_sec : Z }.

(** The wall clock of the second [abs] counted from the epoch of the
    zone. *)
Definition civilOf (abs : Z) : Civil :=
  let '(y, m, d) := civil_from_days (abs / 86400) in
  let r := abs mod 86400 in
  mkCivil y m d (r / 3600) (r mod 3600 / 60) (r mod 60).

Definition wall (tz : Z) (t : Time) : Civil :=
  civilOf (t_sec t + offset tz (t_loc t)).

(** [time.Date(y, m, d, h, mi, s, nsec, loc)]. *)
Definition Date (tz : Z) (c : Civil) (nsec : Z) (loc : Location) : Time :=
  mkTime (days_from_civil (c_year c) (c_month c) (c_day c) * 86400
          + c_hour c * 3600 + c_min c * 60 + c_sec c - offset tz loc)
         nsec loc.

(** [t.AddDate(0, 0, days)]. *)
Definition AddDays (tz : Z) (t : Time) (days : Z) : Time :=
  let c := wall tz t in
  Date tz (mkCivil (c_year c) (c_month c) (c_day c + days)
                   (c_hour c) (c_min c) (c_sec c))
       (t_nsec t) (t_loc t).

(** *** Formatting *)

Definition digitChar (d : Z) : ascii := ascii_of_N (Z.to_N (48 + d)).

Definition isDigit (c : ascii) : bool :=
  let n := N_of_ascii c in ((48 <=? n) && (n <=? 57))%N.

Definition digitVal (c : ascii) : Z := Z.of_N (N_of_ascii c) - 48.

Fixpoint natDigits (fuel : nat) (n : Z) (acc : string) : string :=
  match fuel with
  | O => acc
  | S k =>
      let acc' := String (digitChar (n mod 10)) acc in
      if n / 10 =? 0 then acc' else natDigits k (n / 10) acc'
  end.

Fixpoint zeros (k : nat) : string :=
  match k with O => EmptyString | S k' => String "0" (zeros k') end.

(** [appendInt]: the decimal digits of [x], zero-padded to [width], with
    a sign in front of a negative number.  A 64-bit integer has at most
    20 digits. *)
Definition appendInt (x : Z) (width : nat) : string :=
  let ds := natDigits 20 (Z.abs x) EmptyString in
  let padded := zeros (width - String.length ds) +:+ ds in
  if x <? 0 then String "-" padded else padded.

(** A layout of the shape [2006-01-02?15?04?05]; [dt] separates date and
    time, [hm] separates hours, minutes and seconds. *)
Record Layout := mkLayout { dt_sep : ascii; hm_sep : ascii }.

(** [timeFormat = "2006-01-02_15:04:05"]. *)
Definition timeFormat : Layout := mkLayout "_" ":".
(** [backupTimeFormat = "2006-01-02T15-04-05"]. *)
Definition backupTimeFormat : Layout := mkLayout "T" "-".

Definition formatDate (c : Civil) : string :=
  appendInt (c_year c) 4 +:+ "-" +:+ appendInt (c_month c) 2 +:+ "-"
  +:+ appendInt (c_day c) 2.

Definition formatClock (hm : ascii) (c : Civil) : string :=
  appendInt (c_hour c) 2 +:+ String hm (appendInt (c_min c) 2
  +:+ String hm (appendInt (c_sec c) 2)).

Definition formatCivil (l : Layout) (c : Civil) : string :=
  formatDate c +:+ String (dt_sep l) (formatClock (hm_sep l) c).

(** [t.Format(layout)] for the two layouts above. *)
Definition Format (tz : Z) (l : Layout) (t : Time) : string :=
  formatCivil l (wall tz t).

(** [t.Format(dateFormat)], [dateFormat = "2006-01-02"]. *)
Definition FormatDate (tz : Z) (t : Time) : string := formatDate (wall tz t).

(** *** Parsing *)

(** The four digits of a [2006] field. *)
Definition getYear (s : string) : option (Z * string) :=
  match s with
  | String a (String b (String c (String d r))) =>
      if isDigit a && isDigit b && isDigit c && isDigit d
      then Some (1000 * digitVal a + 100 * digitVal b + 10 * digitVal c
                 + digitVal d, r)
      else None
  | _ => None
  end.

(** [getnum(s, fixed)]: one or two digits, exactly two when [fixed]. *)
Definition getnum (s : string) (fixed : bool) : option (Z * string) :=
  match s with
  | String a r =>
      if isDigit a then
        match r with
        | String b r' =>
            if isDigit b then Some (10 * digitVal a + digitVal b, r')
            else if fixed then None else Some (digitVal a, r)
        | EmptyString => if fixed then None else Some (digitVal a, r)
        end
      else None
  | EmptyString => None
  end.

(** A literal character of the layout. *)
Definition expect (c : ascii) (s : string) : option string :=
  match s with
  | String a r => if Ascii.eqb a c then Some r else None
  | EmptyString => None
  end.

Fixpoint spanDigits (s : string) : list ascii * string :=
  match s with
  | String a r =>
      if isDigit a then let '(ds, rest) := spanDigits r in (a :: ds, rest)
      else ([], s)
  | EmptyString => ([], s)
  end.

Fixpoint fracValue (k : nat) (ds : list ascii) : Z :=
  match k with
  | O => 0
  | S k' =>
      match ds with
      | d :: r => digitVal d * 10 ^ Z.of_nat k' + fracValue k' r
      | [] => 0
      end
  end.

Definition commaOrPeriod (c : ascii) : bool :=
  Ascii.eqb c "." || Ascii.eqb c ",".

(** A fractional second right after the seconds field is accepted even
    though the layout has none; digits beyond the ninth are dropped. *)
Definition getFraction (s : string) : Z * string :=
  match s with
  | String p (String d r) =>
      if commaOrPeriod p && isDigit d
      then let '(ds, rest) := spanDigits (String d r) in (fracValue 9 ds, rest)
      else (0, s)
  | _ => (0, s)
  end.

Definition obind {A B} (o : option A) (f : A -> option B) : option B :=
  match o with Some a => f a | None => None end.

(** The fields of a value written in layout [l], with Go's range
    checks. *)
Definition parseFields (l : Layout) (s : string) : option (Civil * Z) :=
  obind (getYear s) (fun '(y, s) =>
  obind (expect "-" s) (fun s =>
  obind (getnum s true) (fun '(m, s) =>
  if (m <=? 0) || (12 <? m) then None else
  obind (expect "-" s) (fun s =>
  obind (getnum s true) (fun '(d, s) =>
  obind (expect (dt_sep l) s) (fun s =>
  obind (getnum s false) (fun '(h, s) =>
  if 24 <=? h then None else
  obind (expect (hm_sep l) s) (fun s =>
  obind (getnum s true) (fun '(mi, s) =>
  if 60 <=? mi then None else
  obind (expect (hm_sep l) s) (fun s =>
  obind (getnum s true) (fun '(sc, s) =>
  if 60 <=? sc then None else
  let '(ns, s) := getFraction s in
  match s with
  | EmptyString =>
      if (d <? 1) || (daysIn y m <? d) then None
      else Some (mkCivil y m d h mi sc, ns)
  | _ => None
  end))))))))))).

(** [time.ParseInLocation(layout, s, loc)]; [time.Parse] is the case
    [loc = UTC]. *)
Definition ParseInLocation (tz : Z) (l : Layout) (s : string) (loc : Location)
  : option Time :=
  match parseFields l s with
  | Some (c, ns) => Some (Date tz c ns loc)
  | None => None
  end.

Definition Parse (l : Layout) (s : string) : option Time :=
  ParseInLocation 0 l s UTC.

(** *** Bounded checks, run once in the proofs below *)

Fixpoint allFrom (n : nat) (lo : Z) (P : Z -> bool) : bool :=
  match n with
  | O => true
  | S k => if P lo then allFrom k (lo + 1) P else false
  end.

Definition era_ok (doe : Z) : bool :=
  let '(yoe, m, d) := eraCivil doe in
  (0 <=? yoe) && (yoe <=? 399) && (1 <=? m) && (m <=? 12) && (1 <=? d)
  && (d <=? daysIn (yoe + (if m <=? 2 then 1 else 0)) m)
  && (eraDays yoe m d =? doe).

Definition fmt4_ok (y : Z) : bool :=
  match appendInt y 4 with
  | String a (String b (String c (String d EmptyString))) =>
      isDigit a && isDigit b && isDigit c && isDigit d
      && (1000 * digitVal a + 100 * digitVal b + 10 * digitVal c + digitVal d =? y)
  | _ => false
  end.

Definition fmt2_ok (n : Z) : bool :=
  match appendInt n 2 with
  | String a (String b EmptyString) =>
      isDigit a && isDigit b && (10 * digitVal a + digitVal b =? n)
  | _ => false
  end.

Definition validCivil (c : Civil) : Prop :=
  0 <= c_year c <= 9999 /\ 1 <= c_month c <= 12
  /\ 1 <= c_day c <= daysIn (c_year c) (c_month c)
  /\ 0 <= c_hour c < 24 /\ 0 <= c_min c < 60 /\ 0 <= c_sec c < 60.

End GoTime.

(** ** Package [os]: files, the clock and failures

    The file system maps a cleaned path to a file.  Every call of the
    program into the operating system is an [Op]; it is appended to the
    trace of the world, and the oracle [w_fate] decides, from the
    position in the trace and the call, whether it fails.  Directories
    are implicit; ownership and the umask are not modelled. *)

Module OS.

Record File := mkFile { f_data : list Byte.byte; f_mode : Z }.

Record FileInfo := mkInfo { fi_name : string; fi_size : Z; fi_mode : Z }.

Inductive Op :=
| OpNow
| OpMkdirAll (dir : string)
| OpStat (p : string)
| OpRename (old new : string)
| OpCreate (p : string) (mode : Z)
| OpAppend (p : string)
| OpOpen (p : string)
| OpWrite (p : string)
| OpClose (p : string)
| OpRemove (p : string)
| OpReadDir (dir : string)
| OpChown (p : string)
| OpCopy (src dst : string)
| OpGzClose (dst : string).

(** A failing call got [done] bytes through before it failed (used by
    writes and copies). *)
Inductive Fate := Succeeds | Fails (done : nat).

Inductive Errno := ENOENT | EIO | EINVAL.

Inductive error :=
| EOs (e : Errno) (o : Op)
| ENew (msg : string)
| EWrap (msg : string) (cause : error)
| ETooLong (writeLen max : Z)
| EParse
| EPanic.

(** [os.IsNotExist(err)]. *)
Definition IsNotExist (e : error) : bool :=
  match e with EOs ENOENT _ => true | _ => false end.

Record World := mkWorld
  { w_files : gmap string File;
    w_trace : list Op;
    w_fate : nat -> Op -> Fate;
    w_clock : nat -> Z * Z;
    w_tz : Z;
    w_arg0 : string;
    w_tmp : string }.

Definition setFiles (w : World) (fs : gmap string File) : World :=
  mkWorld fs (w_trace w) (w_fate w) (w_clock w) (w_tz w) (w_arg0 w) (w_tmp w).

Definition logOp (w : World) (o : Op) : World :=
  mkWorld (w_files w) (w_trace w ++ [o]) (w_fate w) (w_clock w) (w_tz w)
          (w_arg0 w) (w_tmp w).

(** One call: its fate, and the world with the call logged. *)
Definition step (w : World) (o : Op) : Fate * World :=
  (w_fate w (length (w_trace w)) o, logOp w o).

Definition key (p : string) : string := FilePath.Clean p.

(** The parts of the world no call changes. *)
Definition env (w : World) :=
  (w_fate w, w_clock w, w_tz w, w_arg0 w, w_tmp w).

Definition sizeOf (f : File) : Z := Z.of_nat (length (f_data f)).

(** [time.Now()]: the clock is read at the current position of the
    trace. *)
Definition Now (w : World) : GoTime.Time * World :=
  let '(s, n) := w_clock w (length (w_trace w)) in
  (GoTime.mkTime s (n mod 1000000000) GoTime.Local, logOp w OpNow).

Definition MkdirAll (w : World) (d : string) : option error * World :=
  let '(f, w1) := step w (OpMkdirAll d) in
  match f with
  | Fails _ => (Some (EOs EIO (OpMkdirAll d)), w1)
  | Succeeds => (None, w1)
  end.

Definition Stat (w : World) (p : string) : (FileInfo + error) * World :=
  let '(f, w1) := step w (OpStat p) in
  match f with
  | Fails _ => (inr (EOs EIO (OpStat p)), w1)
  | Succeeds =>
      match w_files w !! key p with
      | Some x => (inl (mkInfo (FilePath.Base p) (sizeOf x) (f_mode x)), w1)
      | None => (inr (EOs ENOENT (OpStat p)), w1)
      end
  end.

Definition Rename (w : World) (old new : string) : option error * World :=
  let '(f, w1) := step w (OpRename old new) in
  match f with
  | Fails _ => (Some (EOs EIO (OpRename old new)), w1)
  | Succeeds =>
      match w_files w !! key old with
      | Some x =>
          (None, setFiles w1 (<[key new := x]> (delete (key old) (w_files w))))
      | None => (Some (EOs ENOENT (OpRename old new)), w1)
      end
  end.

(** [os.OpenFile(p, O_CREATE|O_WRONLY|O_TRUNC, mode)]: an existing file
    is emptied and keeps its mode; a new one gets [mode].  The handle is
    the path of the file. *)
Definition Create (w : World) (p : string) (mode : Z) : (string + error) * World :=
  let '(f, w1) := step w (OpCreate p mode) in
  match f with
  | Fails _ => (inr (EOs EIO (OpCreate p mode)), w1)
  | Succeeds =>
      let m := match w_files w !! key p with
               | Some x => f_mode x
               | None => mode
               end in
      (inl (key p), setFiles w1 (<[key p := mkFile [] m]> (w_files w)))
  end.

(** [os.OpenFile(p, O_APPEND|O_WRONLY, 0644)]. *)
Definition OpenAppend (w : World) (p : string) : (string + error) * World :=
  let '(f, w1) := step w (OpAppend p) in
  match f with
  | Fails _ => (inr (EOs EIO (OpAppend p)), w1)
  | Succeeds =>
      match w_files w !! key p with
      | Some _ => (inl (key p), w1)
      | None => (inr (EOs ENOENT (OpAppend p)), w1)
      end
  end.

(** [os.Open(p)]. *)
Definition Open (w : World) (p : string) : (string + error) * World :=
  let '(f, w1) := step w (OpOpen p) in
  match f with
  | Fails _ => (inr (EOs EIO (OpOpen p)), w1)
  | Succeeds =>
      match w_files w !! key p with
      | Some _ => (inl (key p), w1)
      | None => (inr (EOs ENOENT (OpOpen p)), w1)
      end
  end.

(** [f.Write(p)] on a handle opened for writing: the bytes go to the end
    of the file.  A failing write leaves the bytes it got through.  A
    handle whose file was unlinked still takes the bytes; they are then
    visible under no path. *)
Definition FileWrite (w : World) (h : string) (p : list Byte.byte)
  : (Z * option error) * World :=
  let '(f, w1) := step w (OpWrite h) in
  let n := match f with
           | Succeeds => length p
           | Fails k => Nat.min k (length p)
           end in
  let err := match f with
             | Succeeds => None
             | Fails _ => Some (EOs EIO (OpWrite h))
             end in
  match w_files w !! h with
  | Some x =>
      ((Z.of_nat n, err),
       setFiles w1 (<[h := mkFile (f_data x ++ firstn n p) (f_mode x)]> (w_files w)))
  | None => ((Z.of_nat n, err), w1)
  end.

(** [f.Close()]. *)
Definition FileClose (w : World) (h : string) : option error * World :=
  let '(f, w1) := step w (OpClose h) in
  match f with
  | Fails _ => (Some (EOs EIO (OpClose h)), w1)
  | Succeeds => (None, w1)
  end.

Definition Remove (w : World) (p : string) : option error * World :=
  let '(f, w1) := step w (OpRemove p) in
  match f with
  | Fails _ => (Some (EOs EIO (OpRemove p)), w1)
  | Succeeds =>
      match w_files w !! key p with
      | Some _ => (None, setFiles w1 (delete (key p) (w_files w)))
      | None => (Some (EOs ENOENT (OpRemove p)), w1)
      end
  end.

Definition nameLe (a b : FileInfo) : Prop :=
  String.leb (fi_name a) (fi_name b) = true.

#[global] Instance nameLe_dec : RelDecision nameLe.
Proof. intros a b. unfold nameLe. apply _. Defined.

(** The entries of directory [d]: the files right below it, by name. *)
Definition entries (fs : gmap string File) (d : string) : list FileInfo :=
  merge_sort nameLe
    (omap (fun '(k, x) =>
             if String.eqb (FilePath.Dir k) (key d)
             then Some (mkInfo (FilePath.Base k) (sizeOf x) (f_mode x))
             else None)
          (map_to_list fs)).

(** [ioutil.ReadDir(d)]. *)
Definition ReadDir (w : World) (d : string) : (list FileInfo + error) * World :=
  let '(f, w1) := step w (OpReadDir d) in
  match f with
  | Fails _ => (inr (EOs EIO (OpReadDir d)), w1)
  | Succeeds => (inl (entries (w_files w) d), w1)
  end.

End OS.

(** ** The program: [lumberjack.go] *)

Module Lumberjack.
Import GoString FilePath GoTime OS.

Definition compressSuffix : string := ".gz".
Definition defaultMaxSize : Z := 1024 * 1024 * 1024.

(** The exported fields of [Logger]. *)
Record Config := mkConfig
  { LogMaxSize : Z;
    LogMaxSaveDay : Z;
    LogMaxSaveQuantity : Z;
    LocalTime : bool;
    Compress : bool;
    LogSplitDay : Z;
    LogPathName : string;
    LogFileName : string;
    LogFileSuffix : string;
    LogFileTimeFormat : string }.

(** [Logger].  [file] is the open handle, if any.  The mill channel has
    one slot: [millStarted] tells whether the worker exists, [millPending]
    whether a signal waits in the slot. *)
Record Logger := mkLogger
  { cfg : Config;
    splitDayCount : Z;
    fullPathFileName : string;
    size : Z;
    file : option string;
    millStarted : bool;
    millPending : bool }.

(** The package variables. *)
Record Globals := mkGlobals
  { megabyte : Z;
    nowTime : Time;
    nowTimestamp : Z;
    lastTimestamp : Z;
    yesterdayLastTimestamp : Z;
    isSplitDay : bool }.

Definition setFile (l : Logger) (f : option string) : Logger :=
  mkLogger (cfg l) (splitDayCount l) (fullPathFileName l) (size l) f
           (millStarted l) (millPending l).

Definition setSize (l : Logger) (n : Z) : Logger :=
  mkLogger (cfg l) (splitDayCount l) (fullPathFileName l) n (file l)
           (millStarted l) (millPending l).

Definition setSplitDayCount (l : Logger) (n : Z) : Logger :=
  mkLogger (cfg l) n (fullPathFileName l) (size l) (file l)
           (millStarted l) (millPending l).

Definition setNow (g : Globals) (t : Time) : Globals :=
  mkGlobals (megabyte g) t (Unix t) (lastTimestamp g)
            (yesterdayLastTimestamp g) (isSplitDay g).

Definition setLastTimestamp (g : Globals) (n : Z) : Globals :=
  mkGlobals (megabyte g) (nowTime g) (nowTimestamp g) n
            (yesterdayLastTimestamp g) (isSplitDay g).

Definition setYesterdayLastTimestamp (g : Globals) (n : Z) : Globals :=
  mkGlobals (megabyte g) (nowTime g) (nowTimestamp g) (lastTimestamp g) n
            (isSplitDay g).

Definition setIsSplitDay (g : Globals) (b : bool) : Globals :=
  mkGlobals (megabyte g) (nowTime g) (nowTimestamp g) (lastTimestamp g)
            (yesterdayLastTimestamp g) b.

(** [currentTime], the mockable [time.Now]. *)
Definition currentTime (w : World) : Time * World := Now w.

(** The value of a parse whose error is dropped: the zero time on
    failure. *)
Definition orZero (o : option Time) : Time :=
  match o with Some t => t | None => zeroTime end.

Definition endOfDay (tz : Z) (local : bool) (date : string) : Z :=
  let s := date +:+ "_23:59:59" in
  if negb local then Unix (orZero (Parse timeFormat s))
  else Unix (orZero (ParseInLocation tz timeFormat s Local)).

(** [updateLastTimeOfToday]. *)
Definition updateLastTimeOfToday (tz : Z) (local : bool) (g : Globals) : Globals :=
  let currTime := ofUnix (nowTimestamp g) in
  setLastTimestamp g (endOfDay tz local (FormatDate tz currTime)).

(** [updateYesterdayTime]. *)
Definition updateYesterdayTime (tz : Z) (local : bool) (g : Globals) : Globals :=
  let yesterdayTime := AddDays tz (ofUnix (nowTimestamp g)) (-1) in
  setYesterdayLastTimestamp g (endOfDay tz local (FormatDate tz yesterdayTime)).

(** [updateCurrentTimestamp]. *)
Definition updateCurrentTimestamp (local : bool) (g : Globals) (w : World)
  : Globals * World :=
  let '(t, w) := currentTime w in
  let t := if negb local then toUTC t else t in
  (setNow g t, w).

(** [isNextDay]. *)
Definition isNextDay (local : bool) (g : Globals) (w : World)
  : bool * Globals * World :=
  let '(g, w) := updateCurrentTimestamp local g w in
  (lastTimestamp g <? nowTimestamp g, g, w).

(** [l.max()]. *)
Definition max (g : Globals) (l : Logger) : Z :=
  if LogMaxSize (cfg l) =? 0 then wrap64 (defaultMaxSize * megabyte g)
  else wrap64 (LogMaxSize (cfg l) * megabyte g).

(** [l.filename()]. *)
Definition filename (w : World) (l : Logger) : string :=
  if String.eqb (fullPathFileName l) EmptyString
  then Join (w_tmp w) (Base (w_arg0 w) +:+ "-lumberjack.log")
  else fullPathFileName l.

(** [l.dir()]. *)
Definition dir (w : World) (l : Logger) : string := Dir (filename w l).

Definition trimExt (fname ext : string) : string :=
  substring 0 (len fname - len ext) fname.

(** [l.prefixAndExt()]. *)
Definition prefixAndExt (w : World) (l : Logger) : string * string :=
  let fname := Base (filename w l) in
  let ext := Ext fname in
  (trimExt fname ext +:+ "-", ext).

(** The timestamp [backupName] writes. *)
Definition backupStamp (g : Globals) (tz : Z) (local : bool) (t : Time) : string :=
  let t := if negb local then toUTC t else t in
  if isSplitDay g
  then Format tz backupTimeFormat (ofUnix (yesterdayLastTimestamp g))
  else Format tz backupTimeFormat t.

(** [backupName]. *)
Definition backupName (g : Globals) (w : World) (name : string) (local : bool)
  : string * World :=
  let d := Dir name in
  let fname := Base name in
  let ext := Ext fname in
  let pre := trimExt fname ext in
  let '(t, w) := currentTime w in
  let timestamp := backupStamp g (w_tz w) local t in
  (Join d (pre +:+ "-" +:+ timestamp +:+ ext), w).

(** Modelled from the spec: [chown] is not part of the sources read here
    (the comment in [openNew] calls it a no-op anywhere but linux; the
    spec only says that mode and ownership are preserved).  Ownership is
    not modelled: the call may fail, and changes no file. *)
Definition chown (w : World) (name : string) (info : FileInfo)
  : option error * World :=
  let '(f, w1) := step w (OpChown name) in
  match f with
  | Fails _ => (Some (EOs EIO (OpChown name)), w1)
  | Succeeds => (None, w1)
  end.

(** [l.mill()]: start the worker once, then a non-blocking send. *)
Definition mill (l : Logger) : Logger :=
  mkLogger (cfg l) (splitDayCount l) (fullPathFileName l) (size l) (file l)
           true true.

(** [l.close()]. *)
Definition close (l : Logger) (w : World) : option error * Logger * World :=
  match file l with
  | None => (None, l, w)
  | Some h =>
      let '(err, w) := FileClose w h in
      (err, setFile l None, w)
  end.

(** [l.Close()]. *)
Definition Close (l : Logger) (w : World) : option error * Logger * World :=
  close l w.

(** [l.openNew()]. *)
Definition openNew (l : Logger) (g : Globals) (w : World)
  : option error * Logger * World :=
  let '(err, w) := MkdirAll w (dir w l) in
  match err with
  | Some e => (Some (EWrap "can't make directories for new logfile" e), l, w)
  | None =>
      let name := filename w l in
      let '(st, w) := Stat w name in
      let moved :=
        match st with
        | inl info =>
            let '(newname, w) := backupName g w name (LocalTime (cfg l)) in
            let '(err, w) := Rename w name newname in
            match err with
            | Some e => (inr (EWrap "can't rename log file" e), w)
            | None =>
                let '(err, w) := chown w name info in
                match err with
                | Some e => (inr e, w)
                | None => (inl (fi_mode info), w)
                end
            end
        | inr _ => (inl 384, w)
        end in
      match moved with
      | (inr e, w) => (Some e, l, w)
      | (inl mode, w) =>
          let '(r, w) := Create w name mode in
          match r with
          | inr e => (Some (EWrap "can't open new logfile" e), l, w)
          | inl f => (None, setSize (setFile l (Some f)) 0, w)
          end
      end
  end.

(** [l.rotate()]. *)
Definition rotate (l : Logger) (g : Globals) (w : World)
  : option error * Logger * World :=
  let '(err, l, w) := close l w in
  match err with
  | Some e => (Some e, l, w)
  | None =>
      let '(err, l, w) := openNew l g w in
      match err with
      | Some e => (Some e, l, w)
      | None => (None, mill l, w)
      end
  end.

(** [l.Rotate()]. *)
Definition Rotate (l : Logger) (g : Globals) (w : World)
  : option error * Logger * World :=
  rotate l g w.

(** [l.openExistingOrNew(writeLen)]. *)
Definition openExistingOrNew (l : Logger) (g : Globals) (w : World) (writeLen : Z)
  : option error * Logger * World :=
  let l := mill l in
  let fname := filename w l in
  let '(st, w) := Stat w fname in
  match st with
  | inr e =>
      if IsNotExist e then openNew l g w
      else (Some (EWrap "error getting log file info" e), l, w)
  | inl info =>
      if max g l <=? wrap64 (fi_size info + writeLen) then rotate l g w
      else
        let '(r, w) := OpenAppend w fname in
        match r with
        | inr _ => openNew l g w
        | inl f => (None, setSize (setFile l (Some f)) (fi_size info), w)
        end
  end.

(** The result of [Write] with the state it leaves. *)
Record WriteResult := mkWriteResult
  { wr_n : Z; wr_err : option error;
    wr_logger : Logger; wr_globals : Globals; wr_world : World }.

(** The last step of [Write]: the write itself.  [Write] on a nil
    [*os.File] returns [os.ErrInvalid]. *)
Definition writeOut (l : Logger) (g : Globals) (w : World) (p : list Byte.byte)
  : WriteResult :=
  match file l with
  | Some h =>
      let '((n, err), w) := FileWrite w h p in
      mkWriteResult n err (setSize l (wrap64 (size l + n))) g w
  | None => mkWriteResult 0 (Some (EOs EINVAL (OpWrite EmptyString))) l g w
  end.

(** The size check of [Write], then the write. *)
Definition writeSized (l : Logger) (g : Globals) (w : World) (p : list Byte.byte)
  : WriteResult :=
  let writeLen := Z.of_nat (length p) in
  if max g l <? wrap64 (size l + writeLen) then
    let '(err, l, w) := rotate l g w in
    match err with
    | Some e => mkWriteResult 0 (Some e) l g w
    | None => writeOut l g w p
    end
  else writeOut l g w p.

(** The day-split block of [Write], then the rest. *)
Definition writeDaily (l : Logger) (g : Globals) (w : World) (p : list Byte.byte)
  : WriteResult :=
  if 0 <? LogSplitDay (cfg l) then
    let '(next, g, w) := isNextDay (LocalTime (cfg l)) g w in
    if next then
      let g := updateLastTimeOfToday (w_tz w) (LocalTime (cfg l)) g in
      let g := updateYesterdayTime (w_tz w) (LocalTime (cfg l)) g in
      let l := setSplitDayCount l (wrap64 (splitDayCount l + 1)) in
      if LogSplitDay (cfg l) <=? splitDayCount l then
        let l := setSplitDayCount l 0 in
        let g := setIsSplitDay g true in
        let '(err, l, w) := rotate l g w in
        match err with
        | Some e => mkWriteResult 0 (Some e) l g w
        | None => writeSized l (setIsSplitDay g false) w p
        end
      else writeSized l (setIsSplitDay g false) w p
    else writeSized l g w p
  else writeSized l g w p.

(** [l.Write(p)]. *)
Definition Write (l : Logger) (g : Globals) (w : World) (p : list Byte.byte)
  : WriteResult :=
  let writeLen := Z.of_nat (length p) in
  if max g l <? writeLen then
    mkWriteResult 0 (Some (ETooLong writeLen (max g l))) l g w
  else
    match file l with
    | None =>
        let '(err, l, w) := openExistingOrNew l g w writeLen in
        match err with
        | Some e => mkWriteResult 0 (Some e) l g w
        | None => writeDaily l g w p
        end
    | Some _ => writeDaily l g w p
    end.

(** *** What a call of [Write] did, read off the trace

    Every rotation ends by creating the log file anew ([openNew]), and
    nothing else creates a file on the write path. *)

Definition isCreate (o : Op) : bool :=
  match o with OpCreate _ _ => true | _ => false end.

(** The calls made between two worlds. *)
Definition newOps (w w' : World) : list Op :=
  skipn (length (w_trace w)) (w_trace w').

Definition rotated (w w' : World) : bool := existsb isCreate (newOps w w').

(** The size of the active file before a write: the counter of the open
    handle; without a handle, the size of the file at the target path,
    0 when there is none. *)
Definition preSize (l : Logger) (w : World) : Z :=
  match file l with
  | Some _ => size l
  | None =>
      match w_files w !! key (filename w l) with
      | Some x => sizeOf x
      | None => 0
      end
  end.

(** [w1] comes after [w]: same environment, a longer trace; [b] tells
    whether a file was created in between. *)
Definition grows (b : bool) (w w1 : World) : Prop :=
  env w1 = env w
  /\ exists tr, w_trace w1 = w_trace w ++ tr /\ existsb isCreate tr = b.

(** The fields of the logger the write path never changes. *)
Definition sameConf (l l1 : Logger) : Prop :=
  cfg l1 = cfg l /\ fullPathFileName l1 = fullPathFileName l.

(** What a successful run of the last steps of [Write] leaves: the
    count returned, the counter, and whether a file was created. *)
Definition written (l : Logger) (g : Globals) (w : World) (p : list Byte.byte)
  (r : WriteResult) (b : bool) : Prop :=
  sameConf l (wr_logger r)
  /\ megabyte (wr_globals r) = megabyte g
  /\ grows b w (wr_world r)
  /\ wr_n r = Z.of_nat (length p)
  /\ size (wr_logger r) = wrap64 ((if b then 0 else size l) + Z.of_nat (length p)).

(** *** Backups and the retention sweep *)

Record logInfo := mkLogInfo { timestamp : Time; info : FileInfo }.

Definition Name (f : logInfo) : string := fi_name (info f).

(** [l.timeFromName(filename, prefix, ext)]; [EPanic] is the slice out
    of bounds when prefix and extension overlap in [filename]. *)
Definition timeFromName (c : Config) (tz : Z) (fname pre ext : string)
  : Time + error :=
  if negb (HasPrefix fname pre) then inr (ENew "mismatched prefix")
  else if negb (HasSuffix fname ext) then inr (ENew "mismatched extension")
  else
    match slice fname (len pre) (len fname - len ext) with
    | None => inr EPanic
    | Some ts =>
        let r := if LocalTime c
                 then ParseInLocation tz backupTimeFormat ts Local
                 else Parse backupTimeFormat ts in
        match r with
        | Some t => inl t
        | None => inr EParse
        end
    end.

Definition isPanic (e : error) : bool :=
  match e with EPanic => true | _ => false end.

(** The loop of [oldLogFiles]; [None] when a call panicked. *)
Fixpoint scanBackups (c : Config) (tz : Z) (pre ext : string)
  (files : list FileInfo) (acc : list logInfo) : option (list logInfo) :=
  match files with
  | [] => Some acc
  | f :: rest =>
      match timeFromName c tz (fi_name f) pre ext with
      | inl t => scanBackups c tz pre ext rest (acc ++ [mkLogInfo t f])
      | inr e =>
          if isPanic e then None
          else
            match timeFromName c tz (fi_name f) pre (ext +:+ compressSuffix) with
            | inl t => scanBackups c tz pre ext rest (acc ++ [mkLogInfo t f])
            | inr e' => if isPanic e' then None
                        else scanBackups c tz pre ext rest acc
            end
      end
  end.

(** [byFormatTime]: newest first.  [a] may stand before [b] when [b] is
    not after [a]. *)
Definition newestFirst (a b : logInfo) : Prop :=
  After (timestamp b) (timestamp a) = false.

#[global] Instance newestFirst_dec : RelDecision newestFirst.
Proof. intros a b. unfold newestFirst. apply _. Defined.

(** [l.oldLogFiles()].  [sort.Sort] is not stable; the model sorts
    stably, and the theorems on the sweep hold for every order of ties. *)
Definition oldLogFiles (l : Logger) (w : World) : (list logInfo + error) * World :=
  let '(r, w1) := ReadDir w (dir w l) in
  match r with
  | inr e => (inr (EWrap "can't read log file directory" e), w1)
  | inl files =>
      let '(pre, ext) := prefixAndExt w l in
      match scanBackups (cfg l) (w_tz w) pre ext files [] with
      | None => (inr EPanic, w1)
      | Some logFiles => (inl (merge_sort newestFirst logFiles), w1)
      end
  end.

(** The name a backup is counted under: without the [.gz]. *)
Definition logicalName (fn : string) : string :=
  if HasSuffix fn compressSuffix
  then substring 0 (len fn - len compressSuffix) fn
  else fn.

(** One round of the count loop: [preserved], [remove], [remaining]. *)
Definition countStep (k : Z) (acc : gset string * list logInfo * list logInfo)
  (f : logInfo) : gset string * list logInfo * list logInfo :=
  let '(preserved, remove, remaining) := acc in
  let preserved := {[logicalName (Name f)]} ∪ preserved in
  if k <? Z.of_nat (base.size preserved)
  then (preserved, remove ++ [f], remaining)
  else (preserved, remove, remaining ++ [f]).

(** The count rule: what to remove, what remains. *)
Definition byCount (k : Z) (files : list logInfo) : list logInfo * list logInfo :=
  if (0 <? k) && (k <? Z.of_nat (length files))
  then let '(_, remove, remaining) := fold_left (countStep k) files (∅, [], []) in
       (remove, remaining)
  else ([], files).

(** [diff] and [cutoff] of the age rule. *)
Definition maxAge (days : Z) : Duration := wrap64 (wrap64 (24 * Hour) * days).

Definition cutoff (now : Time) (days : Z) : Time :=
  Add now (wrap64 (-1 * maxAge days)).

Definition tooOld (now : Time) (days : Z) (f : logInfo) : bool :=
  Unix (timestamp f) <? Unix (cutoff now days).

(** The age rule on what the count rule left. *)
Definition byAge (now : Time) (days : Z) (files : list logInfo)
  : list logInfo * list logInfo :=
  if 0 <? days
  then (filter (fun f => tooOld now days f = true) files,
        filter (fun f => tooOld now days f = false) files)
  else ([], files).

Definition toCompress (c : Config) (files : list logInfo) : list logInfo :=
  if Compress c
  then filter (fun f => HasSuffix (Name f) compressSuffix = false) files
  else [].

(** The decisions of [millRunOnce]: the files to remove and the files to
    compress, in the order the two slices are built. *)
Definition millPlan (c : Config) (now : Time) (files : list logInfo)
  : list logInfo * list logInfo :=
  let '(rm1, files) := byCount (LogMaxSaveQuantity c) files in
  let '(rm2, files) := byAge now (LogMaxSaveDay c) files in
  (rm1 ++ rm2, toCompress c files).

(** *** The retention rules in the words of the specification *)

(** The name a backup file is counted under. *)
Definition lname (f : logInfo) : string := logicalName (Name f).

Definition note (seen : list string) (x : string) : list string :=
  if decide (x ∈ seen) then seen else seen ++ [x].

(** The logical backups of a listing: each counted name once, in the
    order of first appearance, which is newest first for a listing sorted
    newest first. *)
Definition logicalBackups (files : list logInfo) : list string :=
  fold_left note (lname <$> files) [].

(** A file is beyond the [k] newest logical backups. *)
Definition beyondCount (k : Z) (files : list logInfo) (f : logInfo) : Prop :=
  lname f ∉ take (Z.to_nat k) (logicalBackups files).

Definition sameInstant (t u : Time) : Prop :=
  t_sec t = t_sec u /\ t_nsec t = t_nsec u.

(** Two files of the listing carry the same rotation time exactly when
    they are the same logical backup. *)
Definition tieFree (files : list logInfo) : Prop :=
  forall f g, f ∈ files -> g ∈ files ->
    (lname f = lname g <-> sameInstant (timestamp f) (timestamp g)).

(** The files of one logical backup stand together. *)
Definition grouped (files : list logInfo) : Prop :=
  forall pre f rest, files = pre ++ f :: rest ->
    lname f ∈ lname <$> pre ->
    exists pre' g, pre = pre' ++ [g] /\ lname g = lname f.
(** What the count loop has built after the files [pre]. *)
Definition countInv (k : nat) (pre : list logInfo)
  (acc : gset string * list logInfo * list logInfo) : Prop :=
  let '(preserved, remove, remaining) := acc in
  let seen := logicalBackups pre in
  preserved = list_to_set seen
  /\ (forall pre' g, pre = pre' ++ [g] -> exists s, seen = s ++ [lname g])
  /\ (forall f, f ∈ remove <-> f ∈ pre /\ lname f ∉ take k seen)
  /\ (forall f, f ∈ remaining <-> f ∈ pre /\ lname f ∈ take k seen).

(** *** Predicates used to state what the write path and the sweep do *)

(** The calls [tr] lead from [w] to [w1]. *)
Definition ops (w w1 : World) (tr : list Op) : Prop :=
  env w1 = env w /\ w_trace w1 = w_trace w ++ tr.

(** The counter of an open handle is the size of its file. *)
Definition inSync (l : Logger) (w : World) : Prop :=
  match file l with
  | Some h => exists x, w_files w !! h = Some x /\ size l = sizeOf x
  | None => True
  end.

Definition dataAt (w : World) (k : string) : list Byte.byte :=
  match w_files w !! k with Some x => f_data x | None => [] end.

(** The bytes of the active file before a write: behind the open
    handle, or at the target path when no handle is open. *)
Definition logData (l : Logger) (w : World) : list Byte.byte :=
  match file l with
  | Some h => dataAt w h
  | None => dataAt w (key (filename w l))
  end.

(** The logger has a handle open on a file that holds [d], and counts
    its size. *)
Definition holds (w : World) (l : Logger) (d : list Byte.byte) : Prop :=
  exists h x, file l = Some h /\ w_files w !! h = Some x
              /\ f_data x = d /\ size l = sizeOf x.

(** The write of [Write] was reached: the file behind the handle holds
    [d], or nothing if a file was created on the way ([b]), followed by
    the first [wr_n r] bytes of the payload, which the counter counts;
    and the error, if any, is the one of the write. *)
Definition wrote (w : World) (d p : list Byte.byte) (r : WriteResult) (b : bool)
  : Prop :=
  exists h,
    file (wr_logger r) = Some h
    /\ holds (wr_world r) (wr_logger r)
             ((if b then [] else d) ++ firstn (Z.to_nat (wr_n r)) p)
    /\ grows b w (wr_world r)
    /\ (wr_err r = None /\ wr_n r = Z.of_nat (length p)
        \/ wr_err r = Some (EOs EIO (OpWrite h))).

(** [Write] returned before the write. *)
Definition gaveUp (r : WriteResult) : Prop :=
  wr_n r = 0 /\ is_Some (wr_err r).

(** The file system after the log at [name] was moved to [newname]. *)
Definition movedAside (fs : gmap string File) (name newname : string) (x : File)
  : gmap string File :=
  <[key newname := x]> (delete (key name) fs).

(** What [openNew] did to the files. *)
Inductive Opened (l : Logger) (g : Globals) (w : World)
  : option error -> Logger -> World -> list Op -> Prop :=
| OpenedNothing e w1 tr :
    w_files w1 = w_files w ->
    Opened l g w (Some e) l w1 tr
| OpenedMovedOnly e w1 tr newname wb x :
    w_files w !! key (filename w l) = Some x ->
    newname = fst (backupName g wb (filename w l) (LocalTime (cfg l))) ->
    env wb = env w ->
    OpRename (filename w l) newname ∈ tr ->
    w_files w1 = movedAside (w_files w) (filename w l) newname x ->
    Opened l g w (Some e) l w1 tr
| OpenedMoved w1 tr newname wb x :
    w_files w !! key (filename w l) = Some x ->
    newname = fst (backupName g wb (filename w l) (LocalTime (cfg l))) ->
    env wb = env w ->
    OpRename (filename w l) newname ∈ tr ->
    existsb isCreate tr = true ->
    w_files w1
    = <[key (filename w l) := mkFile [] (f_mode x)]>
        (movedAside (w_files w) (filename w l) newname x) ->
    Opened l g w None (setSize (setFile l (Some (key (filename w l)))) 0) w1 tr
| OpenedInPlace w1 tr :
    (w_files w !! key (filename w l) = None
     \/ exists n, w_fate w n (OpStat (filename w l)) <> Succeeds) ->
    (forall a b, OpRename a b ∉ tr) ->
    existsb isCreate tr = true ->
    w_files w1
    = <[key (filename w l)
        := mkFile [] (match w_files w !! key (filename w l) with
                      | Some y => f_mode y
                      | None => 384
                      end)]> (w_files w) ->
    Opened l g w None (setSize (setFile l (Some (key (filename w l)))) 0) w1 tr.

(** [time.Parse] or [time.ParseInLocation] of a backup timestamp, as
    [timeFromName] calls them. *)
Definition parseStamp (c : Config) (tz : Z) (ts : string) : option Time :=
  if LocalTime c then ParseInLocation tz backupTimeFormat ts Local
  else Parse backupTimeFormat ts.

(** [lf] is what [oldLogFiles] makes of a directory entry it takes for
    a backup: the time read from the name with the extension of the
    log, or else with that extension followed by [.gz]. *)
Definition backupEntry (c : Config) (tz : Z) (pre ext : string) (lf : logInfo)
  : Prop :=
  match timeFromName c tz (Name lf) pre ext with
  | inl t => timestamp lf = t
  | inr _ =>
      timeFromName c tz (Name lf) pre (ext +:+ compressSuffix)
      = inl (timestamp lf)
  end.

(** The files a sweep keeps: what the count rule and then the age rule
    leave. *)
Definition kept (c : Config) (now : Time) (files : list logInfo) : list logInfo :=
  snd (byAge now (LogMaxSaveDay c) (snd (byCount (LogMaxSaveQuantity c) files))).

(** The logical backups among [files], as a set of names. *)
Definition logicalSet (files : list logInfo) : gset string :=
  list_to_set (lname <$> files).

(** From [w] to [w1] no file has changed except, possibly, those at the
    keys [ks]. *)
Definition only (ks : list string) (w w1 : World) : Prop :=
  forall k, k ∉ ks -> w_files w1 !! k = w_files w !! k.

(** The keys a sweep over the listing [files] of directory [d] may work
    on: each listed file and the [.gz] beside it. *)
Definition sweepKeys (d : string) (files : list logInfo) : list string :=
  flat_map (fun f => [key (Join d (Name f));
                      key (Join d (Name f) +:+ compressSuffix)]) files.

Section Mill.

(** [compress/gzip]: the whole stream written for the given input. *)
Variable gzip : list Byte.byte -> list Byte.byte.

Definition contentOf (w : World) (h : string) : list Byte.byte :=
  match w_files w !! h with Some x => f_data x | None => [] end.

Definition setContent (w : World) (h : string) (d : list Byte.byte) : World :=
  match w_files w !! h with
  | Some x => setFiles w (<[h := mkFile d (f_mode x)]> (w_files w))
  | None => w
  end.

(** [io.Copy(gz, f)]: the stream reaches the destination except for its
    8-byte trailer, which [gz.Close] writes; a failing copy leaves the
    bytes it got through.  Returns the stream. *)
Definition Copy (w : World) (f gzf : string)
  : (list Byte.byte * option error) * World :=
  let stream := gzip (contentOf w f) in
  let '(fate, w1) := step w (OpCopy f gzf) in
  match fate with
  | Fails k => ((stream, Some (EOs EIO (OpCopy f gzf))),
                setContent w1 gzf (firstn k stream))
  | Succeeds => ((stream, None),
                 setContent w1 gzf (firstn (length stream - 8) stream))
  end.

(** [gz.Close()]. *)
Definition GzClose (w : World) (gzf : string) (stream : list Byte.byte)
  : option error * World :=
  let '(fate, w1) := step w (OpGzClose gzf) in
  match fate with
  | Fails _ => (Some (EOs EIO (OpGzClose gzf)), w1)
  | Succeeds => (None, setContent w1 gzf stream)
  end.

(** The statements of [compressLogFile] after the deferred clean-up is
    registered. *)
Definition compressBody (w : World) (src f gzf : string) : option error * World :=
  let '((stream, err), w) := Copy w f gzf in
  match err with
  | Some e => (Some e, w)
  | None =>
      let '(err, w) := GzClose w gzf stream in
      match err with
      | Some e => (Some e, w)
      | None =>
          let '(err, w) := FileClose w gzf in
          match err with
          | Some e => (Some e, w)
          | None =>
              let '(err, w) := FileClose w f in
              match err with
              | Some e => (Some e, w)
              | None => Remove w src
              end
          end
      end
  end.

(** [compressLogFile(src, dst)].  Deferred calls run last in, first out:
    the clean-up, then [gzf.Close()], then [f.Close()]; their own results
    are dropped. *)
Definition compressLogFile (w : World) (src dst : string) : option error * World :=
  let '(r, w) := Open w src in
  match r with
  | inr e => (Some (EWrap "failed to open log file" e), w)
  | inl f =>
      let '(st, w) := Stat w src in
      match st with
      | inr e =>
          let '(_, w) := FileClose w f in
          (Some (EWrap "failed to stat log file" e), w)
      | inl fi =>
          let '(err, w) := chown w dst fi in
          match err with
          | Some e =>
              let '(_, w) := FileClose w f in
              (Some (EWrap "failed to chown compressed log file" e), w)
          | None =>
              let '(r, w) := Create w dst (fi_mode fi) in
              match r with
              | inr e =>
                  let '(_, w) := FileClose w f in
                  (Some (EWrap "failed to open compressed log file" e), w)
              | inl gzf =>
                  let '(err, w) := compressBody w src f gzf in
                  let '(err, w) :=
                    match err with
                    | Some e =>
                        let '(_, w) := Remove w dst in
                        (Some (EWrap "failed to compress log file" e), w)
                    | None => (None, w)
                    end in
                  let '(_, w) := FileClose w gzf in
                  let '(_, w) := FileClose w f in
                  (err, w)
              end
          end
      end
  end.


(** [if err == nil && e != nil { err = e }]. *)
Definition keepFirst (err e : option error) : option error :=
  match err with Some _ => err | None => e end.

Definition removeStep (d : string) (acc : option error * World) (f : logInfo)
  : option error * World :=
  let '(err, w) := acc in
  let '(e, w) := Remove w (Join d (Name f)) in
  (keepFirst err e, w).

Definition compressStep (d : string) (acc : option error * World) (f : logInfo)
  : option error * World :=
  let '(err, w) := acc in
  let fn := Join d (Name f) in
  let '(e, w) := compressLogFile w fn (fn +:+ compressSuffix) in
  (keepFirst err e, w).

(** The two loops that end [millRunOnce]. *)
Definition millApply (d : string) (remove compress : list logInfo) (w : World)
  : option error * World :=
  fold_left (compressStep d) compress (fold_left (removeStep d) remove (None, w)).

(** [l.millRunOnce()]. *)
Definition millRunOnce (l : Logger) (g : Globals) (w : World)
  : option error * Globals * World :=
  let c := cfg l in
  if (LogMaxSaveQuantity c =? 0) && (LogMaxSaveDay c =? 0) && negb (Compress c)
  then (None, g, w)
  else
    let '(r, w) := oldLogFiles l w in
    match r with
    | inr e => (Some e, g, w)
    | inl files =>
        let '(g, w) := if 0 <? LogMaxSaveDay c
                       then updateCurrentTimestamp (LocalTime c) g w
                       else (g, w) in
        let '(remove, compress) := millPlan c (nowTime g) files in
        let '(err, w) := millApply (dir w l) remove compress w in
        (err, g, w)
    end.

(** The actions of a sweep, one by one: used to state what a sweep
    does. *)
Inductive Action :=
| ADelete (p : string)
| ACompress (src dst : string).

Definition perform (w : World) (a : Action) : option error * World :=
  match a with
  | ADelete p => Remove w p
  | ACompress src dst => compressLogFile w src dst
  end.

(** Run every action in turn, whatever fails; the results in order. *)
Fixpoint performAll (w : World) (acts : list Action)
  : list (option error) * World :=
  match acts with
  | [] => ([], w)
  | a :: rest =>
      let '(e, w) := perform w a in
      let '(es, w) := performAll w rest in
      (e :: es, w)
  end.

(** The first failure among the results, if any. *)
Fixpoint firstError (es : list (option error)) : option error :=
  match es with
  | [] => None
  | Some e :: _ => Some e
  | None :: rest => firstError rest
  end.

Definition sweepActions (d : string) (remove compress : list logInfo)
  : list Action :=
  map (fun f => ADelete (Join d (Name f))) remove
  ++ map (fun f => ACompress (Join d (Name f))
                             (Join d (Name f) +:+ compressSuffix)) compress.

(** The files an action of a sweep works on. *)
Definition targets (a : Action) : list string :=
  match a with
  | ADelete p => [key p]
  | ACompress src dst => [key src; key dst]
  end.

(** [l.compressFiles(fileName)].  [remaining] stays the zero [logInfo]
    unless the loop finds the file; an entry of the listing is never
    the zero value, its [FileInfo] being set. *)
Definition compressFiles (l : Logger) (g : Globals) (w : World)
  (fileName : string) : option error * Globals * World :=
  let c := cfg l in
  let '(r, w) := oldLogFiles l w in
  match r with
  | inr e => (Some e, g, w)
  | inl files =>
      let '(remaining, g, w) :=
        if 0 <? LogMaxSaveDay c then
          let '(g, w) := updateCurrentTimestamp (LocalTime c) g w in
          let cut := cutoff (nowTime g) (LogMaxSaveDay c) in
          (List.find (fun f => String.eqb (Name f) fileName
                               && (Unix cut <? Unix (timestamp f))) files, g, w)
        else (None, g, w) in
      if Compress c then
        match remaining with
        | Some f =>
            if negb (HasSuffix (Name f) compressSuffix) then
              let fn := Join (dir w l) (Name f) in
              let '(e, w) := compressLogFile w fn (fn +:+ compressSuffix) in
              (e, g, w)
            else (None, g, w)
        | None => (None, g, w)
        end
      else (None, g, w)
  end.

End Mill.

End Lumberjack.

(** ** Concrete loggers and worlds used in the examples below

    The package variable [megabyte] is set to 1, as the tests of the
    package do, so that sizes are counted in bytes. *)

Module Sample.
Import GoTime OS Lumberjack.

Definition bytes (n : nat) : list Byte.byte := repeat Byte.x61 n.

(** [LogMaxSize = 10], nothing else configured. *)
Definition conf : Config :=
  mkConfig 10 0 0 false false 0 "/var/log/" "foo" ".log" EmptyString.

Definition logger : Logger :=
  mkLogger conf 0 "/var/log/foo.log" 0 None false false.

Definition globals : Globals := mkGlobals 1 zeroTime 0 0 0 false.

Definition allFine : nat -> Op -> Fate := fun _ _ => Succeeds.

(** The clock stands at 2021-03-10 00:30:00.000000005 UTC. *)
Definition clock : nat -> Z * Z := fun _ => (1615336200, 5).

(** A world whose only file is a log of five bytes; the host is on
    UTC. *)
Definition world : World :=
  mkWorld {[ "/var/log/foo.log" := mkFile (bytes 5) 420 ]} [] allFine clock 0
          "/usr/bin/app" "/tmp".

(** The same logger with its file open and five bytes written. *)
Definition openLogger : Logger :=
  mkLogger conf 0 "/var/log/foo.log" 5 (Some "/var/log/foo.log") true false.

(** Day splitting after one day. *)
Definition dailyConf : Config :=
  mkConfig 10 0 0 false false 1 "/var/log/" "foo" ".log" EmptyString.

Definition dailyLogger : Logger :=
  mkLogger dailyConf 0 "/var/log/foo.log" 5 (Some "/var/log/foo.log") true false.

(** The end of 2021-03-09 (UTC) has been noted as the end of today. *)
Definition eveGlobals : Globals :=
  mkGlobals 1 zeroTime 1615330000 1615334399 1615247999 false.

(** The first [Close] fails. *)
Definition closeFailsOnce : nat -> Op -> Fate :=
  fun n o => match o with
             | OpClose _ => if (n <? 2)%nat then Fails 0 else Succeeds
             | _ => Succeeds
             end.

Definition shakyWorld : World :=
  mkWorld {[ "/var/log/foo.log" := mkFile (bytes 5) 420 ]} [] closeFailsOnce
          clock 0 "/usr/bin/app" "/tmp".

(** A host eight hours east of UTC. *)
Definition eastWorld : World :=
  mkWorld {[ "/var/log/foo.log" := mkFile (bytes 5) 420 ]} [] allFine clock
          28800 "/usr/bin/app" "/tmp".

(** Retention: at most 2 backups, at most 1 day, compression on. *)
Definition keepConf : Config :=
  mkConfig 10 1 2 false true 0 "/var/log/" "foo" ".log" EmptyString.

Definition backup (sec : Z) (name : string) : logInfo :=
  mkLogInfo (mkTime sec 0 UTC) (mkInfo name 5 420).

(** Rotated at 2021-03-10 00:00:00, 2021-03-09 12:00:00 (with its
    compressed counterpart) and 2021-03-08 00:00:00. *)
Definition backups : list logInfo :=
  [ backup 1615334400 "foo-2021-03-10T00-00-00.log";
    backup 1615291200 "foo-2021-03-09T12-00-00.log";
    backup 1615291200 "foo-2021-03-09T12-00-00.log.gz";
    backup 1615161600 "foo-2021-03-08T00-00-00.log" ].

(** 2021-03-10 00:30:00 and five nanoseconds. *)
Definition now : Time := mkTime 1615336200 5 UTC.

(** Rotated at 2021-03-09 00:30:00, one day before [now] to the
    second. *)
Definition dayOld : logInfo := backup 1615249800 "foo-2021-03-09T00-30-00.log".

(** A stand-in for the gzip encoder. *)
Definition toyGzip (data : list Byte.byte) : list Byte.byte :=
  Byte.x1f :: Byte.x8b :: data.

(** The log directory with the active file and the four backups. *)
Definition archive : World :=
  mkWorld {[ "/var/log/foo.log" := mkFile (bytes 5) 420;
             "/var/log/foo-2021-03-10T00-00-00.log" := mkFile (bytes 5) 420;
             "/var/log/foo-2021-03-09T12-00-00.log.gz" := mkFile (bytes 5) 420;
             "/var/log/foo-2021-03-09T12-00-00.log" := mkFile (bytes 5) 420;
             "/var/log/foo-2021-03-08T00-00-00.log" := mkFile (bytes 5) 420 ]}
          [] allFine clock 0 "/usr/bin/app" "/tmp".

Definition keeper : Logger :=
  mkLogger keepConf 0 "/var/log/foo.log" 0 None false false.

(** A directory without any file. *)
Definition bareWorld : World :=
  mkWorld ∅ [] allFine clock 0 "/usr/bin/app" "/tmp".

(** Every [Stat] fails. *)
Definition statFails : nat -> Op -> Fate :=
  fun _ o => match o with OpStat _ => Fails 0 | _ => Succeeds end.

Definition blindWorld : World :=
  mkWorld {[ "/var/log/foo.log" := mkFile (bytes 5) 420 ]} [] statFails
          clock 0 "/usr/bin/app" "/tmp".

(** Every write fails after two bytes. *)
Definition writeTorn : nat -> Op -> Fate :=
  fun _ o => match o with OpWrite _ => Fails 2 | _ => Succeeds end.

Definition tornWorld : World :=
  mkWorld {[ "/var/log/foo.log" := mkFile (bytes 5) 420 ]} [] writeTorn
          clock 0 "/usr/bin/app" "/tmp".




End Sample.

(** * Facts about the model and the program *)

(** ** Machine integers *)

Lemma wrap64_small z : inInt64 z -> wrap64 z = z.
Proof.
  unfold inInt64, wrap64. intros H.
  rewrite Z.mod_small; lia.
Qed.

Lemma wrap64_range z : inInt64 (wrap64 z).
Proof.
  unfold inInt64, wrap64.
  pose proof (Z.mod_pos_bound (z + 2 ^ 63) (2 ^ 64)). lia.
Qed.

(** ** Strings *)

Module GoStringFacts.
Import GoString.

Lemma app_cons (c : ascii) (s t : string) :
  String c s +:+ t = String c (s +:+ t).
Proof. reflexivity. Qed.

Lemma app_nil (t : string) : EmptyString +:+ t = t.
Proof. reflexivity. Qed.

Lemma app_assoc (a b c : string) : (a +:+ b) +:+ c = a +:+ (b +:+ c).
Proof. induction a as [|x a IH]; [done|]. rewrite !app_cons. by rewrite IH. Qed.

Lemma app_nil_r (a : string) : a +:+ EmptyString = a.
Proof. induction a as [|x a IH]; [done|]. rewrite app_cons. by rewrite IH. Qed.

Lemma len_app (a b : string) : len (a +:+ b) = (len a + len b)%nat.
Proof. unfold len. induction a as [|c a IH]; simpl; [done | by rewrite IH]. Qed.

Lemma substring_all (s : string) : substring 0 (len s) s = s.
Proof. unfold len. induction s as [|c s IH]; simpl; [done | by rewrite IH]. Qed.

Lemma substring_app_l (a b : string) : substring 0 (len a) (a +:+ b) = a.
Proof.
  unfold len. induction a as [|c a IH]; simpl.
  - by destruct b.
  - by rewrite IH.
Qed.

Lemma substring_skip (a b : string) (n : nat) :
  substring (len a) n (a +:+ b) = substring 0 n b.
Proof. unfold len. induction a as [|c a IH]; simpl; done. Qed.

Lemma HasPrefix_app (p r : string) : HasPrefix (p +:+ r) p = true.
Proof.
  unfold HasPrefix. induction p as [|c p IH]; simpl.
  - by destruct r.
  - rewrite IH. by destruct (ascii_dec c c).
Qed.

Lemma HasSuffix_app (a suf : string) : HasSuffix (a +:+ suf) suf = true.
Proof.
  unfold HasSuffix. rewrite len_app.
  apply andb_true_intro. split.
  - apply Nat.leb_le. lia.
  - replace (len a + len suf - len suf)%nat with (len a) by lia.
    rewrite substring_skip, substring_all. apply String.eqb_refl.
Qed.

Lemma slice_middle (p x e : string) :
  slice (p +:+ x +:+ e) (len p) (len (p +:+ x +:+ e) - len e) = Some x.
Proof.
  unfold slice. rewrite !len_app.
  replace (len p + (len x + len e) - len e)%nat with (len p + len x)%nat by lia.
  replace (len p + len x - len p)%nat with (len x) by lia.
  rewrite substring_skip, substring_app_l.
  assert ((len p <=? len p + len x)%nat = true) as -> by (apply Nat.leb_le; lia).
  assert ((len p + len x <=? len p + (len x + len e))%nat = true) as ->
    by (apply Nat.leb_le; lia).
  done.
Qed.

End GoStringFacts.

(** ** Calendar and time formats *)

Module GoTimeFacts.
Import GoTime.

Lemma allFrom_spec (P : Z -> bool) (n : nat) : forall lo,
  allFrom n lo P = true -> forall z, lo <= z < lo + Z.of_nat n -> P z = true.
Proof.
  induction n as [|n IH]; intros lo H z Hz; [lia|].
  simpl in H. destruct (P lo) eqn:E; [|discriminate].
  destruct (Z.eq_dec z lo) as [->|Hne]; [done|].
  apply (IH (lo + 1)); [done | lia].
Qed.

Lemma era_ok_all doe : 0 <= doe < 146097 -> era_ok doe = true.
Proof.
  intros H.
  assert (allFrom (N.to_nat 146097) 0 era_ok = true) as Hall
    by (vm_compute; reflexivity).
  apply (allFrom_spec _ _ _ Hall). rewrite N_nat_Z. lia.
Qed.

Lemma fmt4_ok_all y : 0 <= y <= 9999 -> fmt4_ok y = true.
Proof.
  intros H.
  assert (allFrom (N.to_nat 10000) 0 fmt4_ok = true) as Hall
    by (vm_compute; reflexivity).
  apply (allFrom_spec _ _ _ Hall). rewrite N_nat_Z. lia.
Qed.

Lemma fmt2_ok_all n : 0 <= n <= 99 -> fmt2_ok n = true.
Proof.
  intros H.
  assert (allFrom (N.to_nat 100) 0 fmt2_ok = true) as Hall
    by (vm_compute; reflexivity).
  apply (allFrom_spec _ _ _ Hall). rewrite N_nat_Z. lia.
Qed.

Lemma isLeap_era y e : isLeap (y + e * 400) = isLeap y.
Proof.
  unfold isLeap.
  replace ((y + e * 400) mod 4) with (y mod 4)
    by (replace (y + e * 400) with (y + (e * 100) * 4) by lia;
        by rewrite Z.mod_add).
  replace ((y + e * 400) mod 100) with (y mod 100)
    by (replace (y + e * 400) with (y + (e * 4) * 100) by lia;
        by rewrite Z.mod_add).
  by rewrite Z.mod_add.
Qed.

Lemma daysIn_era y e m : daysIn (y + e * 400) m = daysIn y m.
Proof. unfold daysIn. by rewrite isLeap_era. Qed.

(** Every day number is the day number of its own civil date, and that
    date is a date of the calendar. *)
Lemma civil_roundtrip z :
  let '(y, m, d) := civil_from_days z in
  days_from_civil y m d = z /\ 1 <= m <= 12 /\ 1 <= d <= daysIn y m.
Proof.
  unfold civil_from_days.
  set (z' := z + 719468). set (era := z' / 146097).
  assert (0 <= z' - era * 146097 < 146097) as Hdoe.
  { unfold era. pose proof (Z.mod_pos_bound z' 146097).
    rewrite Z.mod_eq in H; lia. }
  pose proof (era_ok_all _ Hdoe) as Hok. unfold era_ok in Hok.
  destruct (eraCivil (z' - era * 146097)) as [[yoe m] d].
  repeat (apply andb_prop in Hok; destruct Hok as [Hok ?]).
  set (b := if m <=? 2 then 1 else 0) in *.
  replace (yoe + era * 400 + b) with (yoe + b + era * 400) by lia.
  rewrite daysIn_era. split; [|lia].
  unfold days_from_civil.
  assert ((if m <=? 2 then yoe + b + era * 400 - 1 else yoe + b + era * 400)
          = yoe + era * 400) as ->.
  { unfold b. destruct (m <=? 2); lia. }
  rewrite Z.div_add by lia. rewrite (Z.div_small yoe 400) by lia.
  replace (yoe + era * 400 - (0 + era) * 400) with yoe by lia.
  subst z'. lia.
Qed.


Lemma civilOf_fields abs :
  let c := civilOf abs in
  days_from_civil (c_year c) (c_month c) (c_day c) * 86400
  + c_hour c * 3600 + c_min c * 60 + c_sec c = abs
  /\ 1 <= c_month c <= 12 /\ 1 <= c_day c <= daysIn (c_year c) (c_month c)
  /\ 0 <= c_hour c < 24 /\ 0 <= c_min c < 60 /\ 0 <= c_sec c < 60.
Proof.
  unfold civilOf. pose proof (civil_roundtrip (abs / 86400)) as Hr.
  destruct (civil_from_days (abs / 86400)) as [[y m] d]. simpl.
  destruct Hr as (Hd & Hm & Hday). rewrite Hd.
  pose proof (Z.mod_pos_bound abs 86400).
  pose proof (Z.div_mod abs 86400).
  set (r := abs mod 86400) in *.
  pose proof (Z.div_mod r 3600). pose proof (Z.mod_pos_bound r 3600).
  pose proof (Z.div_mod (r mod 3600) 60). pose proof (Z.mod_pos_bound (r mod 3600) 60).
  assert (r mod 60 = (r mod 3600) mod 60) as ->.
  { symmetry.
    apply Z.mod_unique_pos with (q := 60 * (r / 3600) + r mod 3600 / 60); lia. }
  assert (0 <= r / 3600 < 24)
    by (split; [apply Z.div_pos; lia | apply Z.div_lt_upper_bound; lia]).
  assert (0 <= r mod 3600 / 60 < 60)
    by (split; [apply Z.div_pos; lia | apply Z.div_lt_upper_bound; lia]).
  lia.
Qed.

Lemma civilOf_valid abs :
  0 <= c_year (civilOf abs) <= 9999 -> validCivil (civilOf abs).
Proof.
  intros Hy. pose proof (civilOf_fields abs) as H. cbv zeta in H.
  unfold validCivil. tauto.
Qed.

Lemma fmt4_shape y : 0 <= y <= 9999 ->
  exists a b c d, appendInt y 4 = String a (String b (String c (String d EmptyString)))
    /\ isDigit a = true /\ isDigit b = true /\ isDigit c = true /\ isDigit d = true
    /\ 1000 * digitVal a + 100 * digitVal b + 10 * digitVal c + digitVal d = y.
Proof.
  intros H. pose proof (fmt4_ok_all y H) as Hok. unfold fmt4_ok in Hok.
  destruct (appendInt y 4) as [|a [|b [|c [|d [|]]]]]; try discriminate.
  exists a, b, c, d.
  apply andb_prop in Hok as [Hok E]. apply andb_prop in Hok as [Hok Hd].
  apply andb_prop in Hok as [Hok Hc]. apply andb_prop in Hok as [Ha Hb].
  apply Z.eqb_eq in E. done.
Qed.

Lemma fmt2_shape n : 0 <= n <= 99 ->
  exists a b, appendInt n 2 = String a (String b EmptyString)
    /\ isDigit a = true /\ isDigit b = true /\ 10 * digitVal a + digitVal b = n.
Proof.
  intros H. pose proof (fmt2_ok_all n H) as Hok. unfold fmt2_ok in Hok.
  destruct (appendInt n 2) as [|a [|b [|]]]; try discriminate.
  exists a, b.
  apply andb_prop in Hok as [Hok E]. apply andb_prop in Hok as [Ha Hb].
  apply Z.eqb_eq in E. done.
Qed.

Lemma getYear_fmt y r : 0 <= y <= 9999 ->
  getYear (appendInt y 4 +:+ r) = Some (y, r).
Proof.
  intros H. destruct (fmt4_shape y H) as (a & b & c & d & E & Ha & Hb & Hc & Hd & V).
  rewrite E. rewrite !GoStringFacts.app_cons, GoStringFacts.app_nil.
  unfold getYear. by rewrite Ha, Hb, Hc, Hd, V.
Qed.

Lemma getnum_fmt n r fixed : 0 <= n <= 99 ->
  getnum (appendInt n 2 +:+ r) fixed = Some (n, r).
Proof.
  intros H. destruct (fmt2_shape n H) as (a & b & E & Ha & Hb & V).
  rewrite E. rewrite !GoStringFacts.app_cons, GoStringFacts.app_nil.
  unfold getnum. by rewrite Ha, Hb, V.
Qed.

Lemma expect_cons c r : expect c (String c r) = Some r.
Proof. unfold expect. by rewrite Ascii.eqb_refl. Qed.

(** Reading back what [formatCivil] wrote gives the same fields. *)
Lemma parseFields_formatCivil l c :
  validCivil c -> parseFields l (formatCivil l c) = Some (c, 0).
Proof.
  intros (Hy & Hm & Hd & Hh & Hmi & Hs).
  assert (daysIn (c_year c) (c_month c) <= 31)
    by (unfold daysIn; repeat case_match; lia).
  unfold formatCivil, formatDate, formatClock, parseFields.
  rewrite <- (GoStringFacts.app_nil_r (appendInt (c_sec c) 2)).
  rewrite !GoStringFacts.app_assoc.
  rewrite getYear_fmt by done. cbn [obind].
  rewrite GoStringFacts.app_cons, GoStringFacts.app_nil, expect_cons. cbn [obind].
  rewrite getnum_fmt by lia. cbn [obind].
  assert ((c_month c <=? 0) || (12 <? c_month c) = false) as -> by lia.
  rewrite GoStringFacts.app_cons, GoStringFacts.app_nil, expect_cons. cbn [obind].
  rewrite getnum_fmt by lia. cbn [obind].
  rewrite expect_cons. cbn [obind].
  rewrite getnum_fmt by lia. cbn [obind].
  assert ((24 <=? c_hour c) = false) as -> by lia.
  rewrite expect_cons. cbn [obind].
  rewrite getnum_fmt by lia. cbn [obind].
  assert ((60 <=? c_min c) = false) as -> by lia.
  rewrite expect_cons. cbn [obind].
  rewrite getnum_fmt by lia. cbn [obind].
  assert ((60 <=? c_sec c) = false) as -> by lia.
  cbn [getFraction].
  assert ((c_day c <? 1) || (daysIn (c_year c) (c_month c) <? c_day c) = false)
    as -> by lia.
  by destruct c.
Qed.


End GoTimeFacts.

(** ** The operating system model: what each call changes *)

Module OSFacts.
Import FilePath GoTime OS.

Ltac prim :=
  let H := fresh "H" in
  intros H;
  repeat match type of H with
         | context [match ?x with _ => _ end] =>
             let E := fresh "E" in destruct x eqn:E
         end;
  inversion H; subst; clear H;
  cbn [w_files w_trace logOp setFiles env w_fate w_clock w_tz w_arg0 w_tmp];
  repeat split; try done; try (intros; discriminate);
  try (intros; congruence); eauto 10.

Lemma Now_spec w t w1 : Now w = (t, w1) ->
  env w1 = env w /\ w_files w1 = w_files w
  /\ w_trace w1 = w_trace w ++ [OpNow]
  /\ 0 <= t_nsec t < 1000000000 /\ t_loc t = Local
  /\ t_sec t = fst (w_clock w (length (w_trace w))).
Proof.
  unfold Now. destruct (w_clock w (length (w_trace w))) as [s n] eqn:E.
  intros H. inversion H; subst; clear H. simpl.
  repeat split; try done; apply Z.mod_pos_bound; lia.
Qed.

Lemma MkdirAll_spec w d e w1 : MkdirAll w d = (e, w1) ->
  env w1 = env w /\ w_files w1 = w_files w
  /\ w_trace w1 = w_trace w ++ [OpMkdirAll d].
Proof. unfold MkdirAll, step. prim. Qed.

Lemma Stat_spec w p r w1 : Stat w p = (r, w1) ->
  env w1 = env w /\ w_files w1 = w_files w
  /\ w_trace w1 = w_trace w ++ [OpStat p]
  /\ match r with
     | inl fi => exists x, w_files w !! key p = Some x
                           /\ fi_size fi = sizeOf x /\ fi_mode fi = f_mode x
     | inr e => IsNotExist e = true -> w_files w !! key p = None
     end.
Proof. unfold Stat, step. prim. Qed.

Lemma Rename_spec w a b e w1 : Rename w a b = (e, w1) ->
  env w1 = env w /\ w_trace w1 = w_trace w ++ [OpRename a b]
  /\ match e with
     | None => exists x, w_files w !! key a = Some x
                         /\ w_files w1 = <[key b := x]> (delete (key a) (w_files w))
     | Some _ => w_files w1 = w_files w
     end.
Proof. unfold Rename, step. prim. Qed.

Lemma Create_spec w p m r w1 : Create w p m = (r, w1) ->
  env w1 = env w /\ w_trace w1 = w_trace w ++ [OpCreate p m]
  /\ match r with
     | inl h => h = key p
                /\ w_files w1
                   = <[key p := mkFile [] (match w_files w !! key p with
                                           | Some x => f_mode x
                                           | None => m
                                           end)]> (w_files w)
     | inr _ => w_files w1 = w_files w
     end.
Proof. unfold Create, step. prim. Qed.

Lemma OpenAppend_spec w p r w1 : OpenAppend w p = (r, w1) ->
  env w1 = env w /\ w_files w1 = w_files w
  /\ w_trace w1 = w_trace w ++ [OpAppend p]
  /\ match r with
     | inl h => h = key p /\ is_Some (w_files w !! key p)
     | inr _ => True
     end.
Proof. unfold OpenAppend, step. prim. Qed.

Lemma Open_spec w p r w1 : Open w p = (r, w1) ->
  env w1 = env w /\ w_files w1 = w_files w
  /\ w_trace w1 = w_trace w ++ [OpOpen p]
  /\ match r with
     | inl h => h = key p /\ is_Some (w_files w !! key p)
     | inr _ => True
     end.
Proof. unfold Open, step. prim. Qed.

Lemma FileWrite_spec w h p n e w1 : FileWrite w h p = ((n, e), w1) ->
  env w1 = env w /\ w_trace w1 = w_trace w ++ [OpWrite h]
  /\ 0 <= n <= Z.of_nat (length p)
  /\ (e = None -> n = Z.of_nat (length p))
  /\ w_files w1
     = match w_files w !! h with
       | Some x => <[h := mkFile (f_data x ++ firstn (Z.to_nat n) p) (f_mode x)]>
                     (w_files w)
       | None => w_files w
       end.
Proof.
  unfold FileWrite, step.
  intros H.
  destruct (w_fate w (length (w_trace w)) (OpWrite h)) as [|k] eqn:Ef;
    destruct (w_files w !! h) as [x|] eqn:Ex;
    inversion H; subst; clear H;
    cbn [w_files w_trace logOp setFiles env w_fate w_clock w_tz w_arg0 w_tmp];
    rewrite ?Nat2Z.id; repeat split; try done; lia.
Qed.

Lemma FileClose_spec w h e w1 : FileClose w h = (e, w1) ->
  env w1 = env w /\ w_files w1 = w_files w
  /\ w_trace w1 = w_trace w ++ [OpClose h].
Proof. unfold FileClose, step. prim. Qed.

Lemma Remove_spec w p e w1 : Remove w p = (e, w1) ->
  env w1 = env w /\ w_trace w1 = w_trace w ++ [OpRemove p]
  /\ match e with
     | None => is_Some (w_files w !! key p)
               /\ w_files w1 = delete (key p) (w_files w)
     | Some _ => w_files w1 = w_files w
                 /\ (w_fate w (length (w_trace w)) (OpRemove p) = Succeeds ->
                     w_files w !! key p = None)
     end.
Proof. unfold Remove, step. prim. Qed.

Lemma ReadDir_spec w d r w1 : ReadDir w d = (r, w1) ->
  env w1 = env w /\ w_files w1 = w_files w
  /\ w_trace w1 = w_trace w ++ [OpReadDir d].
Proof. unfold ReadDir, step. prim. Qed.

Lemma env_fate w w1 : env w1 = env w -> w_fate w1 = w_fate w.
Proof. unfold env. congruence. Qed.

End OSFacts.

(** ** The write path *)

Import GoString FilePath GoTime OS Lumberjack.

(** C2.  A payload longer than the size threshold is refused at once:
    [Write] returns a count of 0 and an error, and the logger (handle,
    size counter, day counter), the package variables and the world (the
    files, and the trace: no call into the operating system is made) are
    what they were.  This holds in every state, so repeating the call
    cannot succeed. *)
Theorem Write_oversize_refused (l : Logger) (g : Globals) (w : World)
    (p : list Byte.byte) :
  Lumberjack.max g l < Z.of_nat (length p) ->
  Write l g w p
  = mkWriteResult 0 (Some (ETooLong (Z.of_nat (length p)) (Lumberjack.max g l)))
                  l g w.
Proof.
  intros H. unfold Write.
  assert ((Lumberjack.max g l <? Z.of_nat (length p)) = true) as -> by lia.
  reflexivity.
Qed.

Lemma Write_oversize_refused_witness :
  Lumberjack.max Sample.globals Sample.openLogger < Z.of_nat (length (Sample.bytes 11))
  /\ Write Sample.openLogger Sample.globals Sample.world (Sample.bytes 11)
     = mkWriteResult 0 (Some (ETooLong 11 10)) Sample.openLogger Sample.globals
                     Sample.world.
Proof.
  split.
  - vm_compute. reflexivity.
  - apply (Write_oversize_refused Sample.openLogger Sample.globals Sample.world
             (Sample.bytes 11)).
    vm_compute. reflexivity.
Defined.

(** C10.  [Close] on a logger without an open handle returns nil and
    changes nothing; and after any [Close] the handle is nil, so a second
    [Close] returns nil and leaves it nil. *)
Theorem Close_idempotent (l : Logger) (w : World) :
  Close (setFile l None) w = (None, setFile l None, w)
  /\ (let '(_, l1, w1) := Close l w in
      file l1 = None /\ Close l1 w1 = (None, l1, w1)).
Proof.
  split; [reflexivity|].
  unfold Close, close. destruct (file l) as [h|] eqn:E.
  - destruct (FileClose w h) as [e w1]. simpl. done.
  - rewrite E. done.
Qed.

(** Evaluation of a closed conjunction, one conjunct at a time. *)
Ltac conjuncts := repeat match goal with |- _ /\ _ => split end.
Ltac evaluate := cbv zeta; conjuncts; vm_compute; reflexivity.

(** C1, where the code departs from it.  A logger without an open
    handle finds a log of 5 bytes and is asked to write 5 more with a
    threshold of 10: the write lands exactly on the threshold, and the
    file is rotated all the same (renamed to a backup, a fresh file
    made). *)
Theorem first_write_at_threshold_rotates :
  let r := Write Sample.logger Sample.globals Sample.world (Sample.bytes 5) in
  let fs := w_files (wr_world r) in
  w_files Sample.world !! "/var/log/foo.log" = Some (mkFile (Sample.bytes 5) 420)
  /\ 5 + Z.of_nat (length (Sample.bytes 5))
     = Lumberjack.max Sample.globals Sample.logger
  /\ wr_err r = None
  /\ fs !! "/var/log/foo-2021-03-10T00-30-00.log"
     = Some (mkFile (Sample.bytes 5) 420)
  /\ fs !! "/var/log/foo.log" = Some (mkFile (Sample.bytes 5) 420)
  /\ w_trace (wr_world r)
     = [OpStat "/var/log/foo.log"; OpMkdirAll "/var/log";
        OpStat "/var/log/foo.log"; OpNow;
        OpRename "/var/log/foo.log" "/var/log/foo-2021-03-10T00-30-00.log";
        OpChown "/var/log/foo.log"; OpCreate "/var/log/foo.log" 420;
        OpWrite "/var/log/foo.log"].
Proof. evaluate. Qed.

(** The same write through an open handle does not rotate. *)
Lemma open_write_at_threshold_appends :
  let r := Write Sample.openLogger Sample.globals Sample.world (Sample.bytes 5) in
  wr_err r = None
  /\ w_files (wr_world r) !! "/var/log/foo.log"
     = Some (mkFile (Sample.bytes 10) 420)
  /\ w_trace (wr_world r) = [OpWrite "/var/log/foo.log"].
Proof. evaluate. Qed.

(** C9, where the code departs from it.  The day-split rotation fails
    (the handle cannot be closed); [Write] returns the error and leaves
    [isSplitDay] set.  A manual [Rotate] at 2021-03-10 00:30:00 then
    names its backup after the end of the day before. *)
Theorem failed_day_split_leaves_flag :
  let r := Write Sample.dailyLogger Sample.eveGlobals Sample.shakyWorld
                 (Sample.bytes 1) in
  let r' := Rotate (wr_logger r) (wr_globals r) (wr_world r) in
  wr_err r = Some (EOs EIO (OpClose "/var/log/foo.log"))
  /\ isSplitDay (wr_globals r) = true
  /\ fst (fst r') = None
  /\ Unix (fst (currentTime (wr_world r))) = 1615336200
  /\ Format 0 backupTimeFormat (toUTC (ofUnix 1615336200)) = "2021-03-10T00-30-00"
  /\ w_files (snd r') !! "/var/log/foo-2021-03-09T23-59-59.log"
     = Some (mkFile (Sample.bytes 5) 420)
  /\ w_files (snd r') !! "/var/log/foo-2021-03-10T00-30-00.log" = None.
Proof. evaluate. Qed.

(** C6, where the code departs from it.  [LocalTime] is false and the
    host is eight hours east of UTC.  A write at 2021-03-10 00:30:00 UTC
    crosses the day boundary and rotates; the backup is named
    2021-03-10T07-59-59, which is the end of 2021-03-09 UTC shown on the
    local clock, not the end of the previous day. *)
Theorem day_split_stamp_in_host_zone :
  let r := Write Sample.dailyLogger Sample.eveGlobals Sample.eastWorld
                 (Sample.bytes 1) in
  let fs := w_files (wr_world r) in
  wr_err r = None
  /\ yesterdayLastTimestamp (wr_globals r) = 1615334399
  /\ Format 0 backupTimeFormat (toUTC (ofUnix 1615334399)) = "2021-03-09T23-59-59"
  /\ fs !! "/var/log/foo-2021-03-10T07-59-59.log"
     = Some (mkFile (Sample.bytes 5) 420)
  /\ fs !! "/var/log/foo-2021-03-09T23-59-59.log" = None
  /\ fs !! "/var/log/foo.log" = Some (mkFile (Sample.bytes 1) 420).
Proof. evaluate. Qed.

(** On a host on UTC the same write names the backup after the end of
    the previous day. *)
Lemma day_split_stamp_on_utc_host :
  let r := Write Sample.dailyLogger Sample.eveGlobals Sample.world
                 (Sample.bytes 1) in
  let fs := w_files (wr_world r) in
  wr_err r = None
  /\ fs !! "/var/log/foo-2021-03-09T23-59-59.log"
     = Some (mkFile (Sample.bytes 5) 420)
  /\ fs !! "/var/log/foo.log" = Some (mkFile (Sample.bytes 1) 420).
Proof. evaluate. Qed.

(** ** The retention sweep: applying the decisions *)

Section SweepFacts.
Variable gzip : list Byte.byte -> list Byte.byte.

Lemma performAll_app (w : World) (a b : list Action) :
  performAll gzip w (a ++ b)
  = let '(r1, w1) := performAll gzip w a in
    let '(r2, w2) := performAll gzip w1 b in
    (r1 ++ r2, w2).
Proof.
  revert w. induction a as [|x a IH]; intros w; simpl.
  - by destruct (performAll gzip w b).
  - destruct (perform gzip w x) as [e w1]. rewrite IH.
    destruct (performAll gzip w1 a) as [r1 w2].
    by destruct (performAll gzip w2 b).
Qed.

Lemma firstError_app (r1 r2 : list (option error)) :
  firstError (r1 ++ r2) = keepFirst (firstError r1) (firstError r2).
Proof.
  induction r1 as [|[e|] r1 IH]; simpl; [by destruct (firstError r2) | done | done].
Qed.

Lemma keepFirst_assoc (a b c : option error) :
  keepFirst (keepFirst a b) c = keepFirst a (keepFirst b c).
Proof. by destruct a. Qed.

(** The removal loop, from any error already held. *)
Lemma remove_loop (d : string) (fs : list logInfo) : forall err w,
  fold_left (removeStep d) fs (err, w)
  = let '(rs, w') :=
      performAll gzip w (map (fun f => ADelete (Join d (Name f))) fs) in
    (keepFirst err (firstError rs), w').
Proof.
  induction fs as [|f fs IH]; intros err w; simpl.
  - by destruct err.
  - destruct (Remove w (Join d (Name f))) as [e w1]. rewrite IH.
    destruct (performAll gzip w1 _) as [rs w2].
    destruct err, e; done.
Qed.

(** The compression loop, likewise. *)
Lemma compress_loop (d : string) (fs : list logInfo) : forall err w,
  fold_left (compressStep gzip d) fs (err, w)
  = let '(rs, w') :=
      performAll gzip w
        (map (fun f => ACompress (Join d (Name f))
                                 (Join d (Name f) +:+ compressSuffix)) fs) in
    (keepFirst err (firstError rs), w').
Proof.
  induction fs as [|f fs IH]; intros err w; simpl.
  - by destruct err.
  - destruct (compressLogFile gzip w _ _) as [e w1]. rewrite IH.
    destruct (performAll gzip w1 _) as [rs w2].
    destruct err, e; done.
Qed.

Lemma millApply_performAll (d : string) (remove compress : list logInfo) (w : World) :
  millApply gzip d remove compress w
  = let '(rs, w') := performAll gzip w (sweepActions d remove compress) in
    (firstError rs, w').
Proof.
  unfold millApply, sweepActions. rewrite remove_loop, performAll_app.
  destruct (performAll gzip w _) as [r1 w1]. rewrite compress_loop.
  destruct (performAll gzip w1 _) as [r2 w2].
  by rewrite firstError_app.
Qed.

Lemma performAll_length (acts : list Action) : forall w,
  length (fst (performAll gzip w acts)) = length acts.
Proof.
  induction acts as [|a acts IH]; intros w; simpl; [done|].
  destruct (perform gzip w a) as [e w1]. specialize (IH w1).
  destruct (performAll gzip w1 acts). simpl in *. by rewrite IH.
Qed.

Lemma firstError_None (es : list (option error)) :
  firstError es = None <-> Forall (fun e => e = None) es.
Proof.
  induction es as [|[e|] es IH]; simpl.
  - split; [constructor | done].
  - split; [done | intros H; by inversion H].
  - rewrite IH. split; [by constructor | intros H; by inversion H].
Qed.

(** C7.  A sweep whose listing succeeded performs its actions one after
    the other: first a removal for every file to remove, then a
    compression for every file to compress.  Each action is run from the
    world the one before it left, whether that one failed or not, so
    none is skipped; and the sweep returns the first failure among the
    results, nil exactly when every action succeeded. *)
Theorem millRunOnce_continues_and_reports_first (l : Logger) (g : Globals)
    (w w1 : World) (files : list logInfo) :
  (LogMaxSaveQuantity (cfg l) =? 0) && (LogMaxSaveDay (cfg l) =? 0)
    && negb (Compress (cfg l)) = false ->
  oldLogFiles l w = (inl files, w1) ->
  let gw := if 0 <? LogMaxSaveDay (cfg l)
            then updateCurrentTimestamp (LocalTime (cfg l)) g w1
            else (g, w1) in
  let plan := millPlan (cfg l) (nowTime (fst gw)) files in
  let acts := sweepActions (dir (snd gw) l) (fst plan) (snd plan) in
  let run := performAll gzip (snd gw) acts in
  millRunOnce gzip l g w = (firstError (fst run), fst gw, snd run)
  /\ length (fst run) = (length (fst plan) + length (snd plan))%nat
  /\ (firstError (fst run) = None <-> Forall (fun e => e = None) (fst run)).
Proof.
  intros Hon Hls gw plan acts run. split; [|split].
  - unfold millRunOnce. rewrite Hon, Hls. subst run acts plan gw.
    destruct (if 0 <? LogMaxSaveDay (cfg l) then _ else _) as [g2 w2].
    cbn [fst snd]. destruct (millPlan _ _ _) as [rm cp]. cbn [fst snd].
    rewrite millApply_performAll.
    by destruct (performAll gzip w2 _).
  - subst run. rewrite performAll_length. unfold acts, sweepActions.
    by rewrite length_app, !length_map.
  - apply firstError_None.
Qed.

End SweepFacts.

(** ** The compression worker *)

Section CompressFacts.
Import OSFacts.
Variable gzip : list Byte.byte -> list Byte.byte.

Lemma chown_spec w name fi e w1 : chown w name fi = (e, w1) ->
  env w1 = env w /\ w_files w1 = w_files w
  /\ w_trace w1 = w_trace w ++ [OpChown name].
Proof. unfold chown, step. prim. Qed.

Lemma Copy_spec w f gzf stream e w1 :
  Copy gzip w f gzf = ((stream, e), w1) ->
  env w1 = env w /\ w_trace w1 = w_trace w ++ [OpCopy f gzf]
  /\ stream = gzip (contentOf w f)
  /\ exists data,
       w_files w1 = match w_files w !! gzf with
                    | Some x => <[gzf := mkFile data (f_mode x)]> (w_files w)
                    | None => w_files w
                    end.
Proof.
  unfold Copy, step, setContent.
  cbn [w_files w_trace logOp setFiles].
  intros H.
  destruct (w_fate w (length (w_trace w)) (OpCopy f gzf)) as [|k];
    destruct (w_files w !! gzf) as [y|];
    inversion H; subst; clear H;
    (split; [done|split; [done|split; [done|]]]);
    first [by eexists | by exists []].
Qed.

Lemma GzClose_spec w gzf stream e w1 :
  GzClose w gzf stream = (e, w1) ->
  env w1 = env w /\ w_trace w1 = w_trace w ++ [OpGzClose gzf]
  /\ match e with
     | None => w_files w1
               = match w_files w !! gzf with
                 | Some x => <[gzf := mkFile stream (f_mode x)]> (w_files w)
                 | None => w_files w
                 end
     | Some _ => w_files w1 = w_files w
     end.
Proof.
  unfold GzClose, step, setContent.
  cbn [w_files w_trace logOp setFiles].
  intros H.
  destruct (w_fate w (length (w_trace w)) (OpGzClose gzf)) as [|k];
    destruct (w_files w !! gzf) as [y|];
    inversion H; subst; clear H; repeat split; done.
Qed.





End CompressFacts.

(** ** The write path: sizes and rotations *)

Import OSFacts.

Lemma grows_refl w : grows false w w.
Proof. split; [done|]. exists []. by rewrite app_nil_r. Qed.

Lemma grows_trans b1 b2 w w1 w2 :
  grows b1 w w1 -> grows b2 w1 w2 -> grows (b1 || b2) w w2.
Proof.
  intros [He1 (t1 & Ht1 & Hb1)] [He2 (t2 & Ht2 & Hb2)].
  split; [congruence|]. exists (t1 ++ t2).
  rewrite Ht2, Ht1, <- app_assoc, existsb_app, Hb1, Hb2. done.
Qed.

Lemma grows_one b w w1 o :
  env w1 = env w -> w_trace w1 = w_trace w ++ [o] -> isCreate o = b ->
  grows b w w1.
Proof.
  intros He Ht Hb. split; [done|]. exists [o]. split; [done|].
  simpl. by rewrite Hb, orb_false_r.
Qed.

Lemma grows_rotated b w w1 : grows b w w1 -> rotated w w1 = b.
Proof.
  intros [_ (tr & Ht & Hb)]. unfold rotated, newOps.
  rewrite Ht, drop_app_length. done.
Qed.

Lemma grows_filename b w w1 l l1 :
  grows b w w1 -> fullPathFileName l1 = fullPathFileName l ->
  filename w1 l1 = filename w l.
Proof.
  intros [He _] Hf. unfold filename. rewrite Hf.
  unfold env in He. by inversion He.
Qed.

Lemma sameConf_refl l : sameConf l l.
Proof. done. Qed.

Lemma sameConf_trans l l1 l2 : sameConf l l1 -> sameConf l1 l2 -> sameConf l l2.
Proof. intros [? ?] [? ?]. split; congruence. Qed.

Lemma close_spec l w e l1 w1 : close l w = (e, l1, w1) ->
  sameConf l l1 /\ size l1 = size l /\ file l1 = None /\ grows false w w1.
Proof.
  unfold close. destruct (file l) as [h|] eqn:Eh.
  - destruct (FileClose w h) as [e' w'] eqn:E.
    apply FileClose_spec in E as (He & _ & Ht).
    intros H; inversion H; subst; clear H.
    repeat split; try done. by eapply grows_one.
  - intros H; inversion H; subst; clear H.
    repeat split; try done. apply grows_refl.
Qed.

Lemma backupName_spec g w name local nm w1 :
  backupName g w name local = (nm, w1) ->
  grows false w w1 /\ w_files w1 = w_files w.
Proof.
  unfold backupName, currentTime.
  destruct (Now w) as [t w'] eqn:E. apply Now_spec in E as (He & Hf & Ht & _).
  intros H; inversion H; subst; clear H.
  split; [by eapply grows_one | done].
Qed.

Lemma mill_sameConf l : sameConf l (mill l).
Proof. done. Qed.

(** [openNew]: on success the counter is 0, a handle is open and a file
    was created. *)
Lemma openNew_spec l g w e l1 w1 : openNew l g w = (e, l1, w1) ->
  sameConf l l1
  /\ exists b, grows b w w1
               /\ (e = None -> b = true /\ size l1 = 0 /\ is_Some (file l1)).
Proof.
  unfold openNew.
  destruct (MkdirAll w (dir w l)) as [e0 w0] eqn:E0.
  apply MkdirAll_spec in E0 as (He0 & _ & Ht0).
  assert (grows false w w0) as G0 by (by eapply grows_one).
  destruct e0 as [e0|].
  { intros H; inversion H; subst; clear H. split; [done|].
    exists false. split; [done | discriminate]. }
  destruct (Stat w0 (filename w0 l)) as [st w2] eqn:E2.
  apply Stat_spec in E2 as (He2 & _ & Ht2 & _).
  assert (grows false w w2) as G2.
  { change false with (false || false). eapply grows_trans; [exact G0|].
    by eapply grows_one. }
  clear G0 He0 Ht0 He2 Ht2.
  assert (forall r w3 (b : bool), grows b w w3 ->
            (let '(r, w) := Create w3 (filename w0 l) r in
             match r with
             | inl f => (None, setSize (setFile l (Some f)) 0, w)
             | inr e => (Some (EWrap "can't open new logfile" e), l, w)
             end) = (e, l1, w1) ->
            sameConf l l1
            /\ exists b, grows b w w1
                 /\ (e = None -> b = true /\ size l1 = 0 /\ is_Some (file l1)))
    as Hcreate.
  { intros r w3 b G3 H.
    destruct (Create w3 (filename w0 l) r) as [rc w4] eqn:E4.
    apply Create_spec in E4 as (He4 & Ht4 & _).
    assert (grows true w w4) as G4.
    { replace true with (b || true) by (by destruct b).
      eapply grows_trans; [exact G3|]. by eapply grows_one. }
    destruct rc as [f|e4]; inversion H; subst; clear H.
    - split; [done|]. exists true. split; [done|]. intros _.
      repeat split; first [done | by eexists].
    - split; [done|]. exists true. split; [done | discriminate]. }
  destruct st as [info|est].
  - destruct (backupName g w2 (filename w0 l) (LocalTime (cfg l)))
      as [newname w3] eqn:E3.
    apply backupName_spec in E3 as (G3 & _).
    destruct (Rename w3 (filename w0 l) newname) as [e4 w4] eqn:E4.
    apply Rename_spec in E4 as (He4 & Ht4 & _).
    assert (grows false w w4) as G4.
    { change false with (false || (false || false)).
      eapply grows_trans; [exact G2|]. eapply grows_trans; [exact G3|].
      by eapply grows_one. }
    destruct e4 as [e4|].
    { intros H; inversion H; subst; clear H. split; [done|].
      exists false. split; [done | discriminate]. }
    destruct (chown w4 (filename w0 l) info) as [e5 w5] eqn:E5.
    apply chown_spec in E5 as (He5 & _ & Ht5).
    assert (grows false w w5) as G5.
    { change false with (false || false). eapply grows_trans; [exact G4|].
      by eapply grows_one. }
    destruct e5 as [e5|].
    { intros H; inversion H; subst; clear H. split; [done|].
      exists false. split; [done | discriminate]. }
    apply (Hcreate _ _ _ G5).
  - apply (Hcreate _ _ _ G2).
Qed.

Lemma rotate_spec l g w e l1 w1 : rotate l g w = (e, l1, w1) ->
  sameConf l l1
  /\ exists b, grows b w w1
               /\ (e = None -> b = true /\ size l1 = 0 /\ is_Some (file l1)).
Proof.
  unfold rotate.
  destruct (close l w) as [[e0 l0] w0] eqn:E0.
  apply close_spec in E0 as (Hc0 & _ & _ & G0).
  destruct e0 as [e0|].
  { intros H; inversion H; subst; clear H. split; [done|].
    exists false. split; [done | discriminate]. }
  destruct (openNew l0 g w0) as [[e2 l2] w2] eqn:E2.
  apply openNew_spec in E2 as (Hc2 & b & G2 & Hok).
  assert (grows b w w2) as G by (eapply (grows_trans false); eauto).
  destruct e2 as [e2|]; intros H; inversion H; subst; clear H.
  - split; [by eapply sameConf_trans|]. exists b. split; [done | discriminate].
  - split; [by eapply sameConf_trans|]. exists b. split; [done|].
    intros _. destruct (Hok eq_refl) as (-> & Hs & Hf). done.
Qed.

Lemma max_same g g1 l l1 :
  megabyte g1 = megabyte g -> sameConf l l1 ->
  Lumberjack.max g1 l1 = Lumberjack.max g l.
Proof. intros Hm [Hc _]. unfold Lumberjack.max. by rewrite Hm, Hc. Qed.

(** [openExistingOrNew] on a logger without a handle: on success a
    handle is open, and the counter is 0 after a rotation, the size of
    the file found otherwise. *)
Lemma openExistingOrNew_spec l g w n l1 w1 :
  file l = None ->
  openExistingOrNew l g w n = (None, l1, w1) ->
  sameConf l l1
  /\ exists b, grows b w w1 /\ is_Some (file l1)
               /\ size l1 = (if b then 0 else preSize l w).
Proof.
  intros Hnil. unfold openExistingOrNew.
  change (filename w (mill l)) with (filename w l).
  destruct (Stat w (filename w l)) as [st w0] eqn:E0.
  apply Stat_spec in E0 as (He0 & _ & Ht0 & Hst).
  assert (grows false w w0) as G0 by (by eapply grows_one).
  destruct st as [info|est].
  - destruct Hst as (x & Hx & Hsz & _).
    destruct (Lumberjack.max g (mill l) <=? wrap64 (fi_size info + n)).
    + intros H. apply rotate_spec in H as (Hc & b & G & Hok).
      destruct (Hok eq_refl) as (-> & Hs & Hf).
      split; [done|]. exists true. split; [|done].
      change true with (false || true). by eapply grows_trans.
    + destruct (OpenAppend w0 (filename w l)) as [r w2] eqn:E2.
      apply OpenAppend_spec in E2 as (He2 & _ & Ht2 & _).
      assert (grows false w w2) as G2.
      { change false with (false || false). eapply grows_trans; [exact G0|].
        by eapply grows_one. }
      destruct r as [f|e].
      * intros H; inversion H; subst; clear H. split; [done|].
        exists false. split; [done|]. split; [by eexists|].
        cbn. unfold preSize. by rewrite Hnil, Hx.
      * intros H. apply openNew_spec in H as (Hc & b & G & Hok).
        destruct (Hok eq_refl) as (-> & Hs & Hf).
        split; [done|]. exists true. split; [|done].
        change true with (false || true). by eapply grows_trans.
  - destruct (IsNotExist est); [|discriminate].
    intros H. apply openNew_spec in H as (Hc & b & G & Hok).
    destruct (Hok eq_refl) as (-> & Hs & Hf).
    split; [done|]. exists true. split; [|done].
    change true with (false || true). by eapply grows_trans.
Qed.

Lemma writeOut_spec l g w p :
  wr_err (writeOut l g w p) = None -> written l g w p (writeOut l g w p) false.
Proof.
  unfold writeOut, written. destruct (file l) as [h|]; [|discriminate].
  destruct (FileWrite w h p) as [[n e] w1] eqn:E.
  apply FileWrite_spec in E as (He & Ht & _ & Hn & _).
  cbn. intros ->. rewrite (Hn eq_refl).
  repeat split; try done. by eapply grows_one.
Qed.

Lemma writeSized_spec l g w p :
  Z.of_nat (length p) <= Lumberjack.max g l ->
  wr_err (writeSized l g w p) = None ->
  exists b, written l g w p (writeSized l g w p) b
            /\ size (wr_logger (writeSized l g w p)) <= Lumberjack.max g l.
Proof.
  intros Hlen. unfold writeSized.
  destruct (Lumberjack.max g l <? wrap64 (size l + Z.of_nat (length p))) eqn:Ec.
  - destruct (rotate l g w) as [[e l1] w1] eqn:E1.
    apply rotate_spec in E1 as (Hc & b & G & Hok).
    destruct e as [e|]; [discriminate|].
    destruct (Hok eq_refl) as (-> & Hs & Hf).
    intros Hw. apply writeOut_spec in Hw as (Hc2 & Hm & G2 & Hn & Hsz).
    exists true. unfold written. rewrite Hsz, Hs. cbn [andb orb]. split.
    + split; [by eapply sameConf_trans|]. split; [done|].
      split; [change true with (true || false); by eapply grows_trans|].
      split; [done | reflexivity].
    + pose proof (wrap64_range (Lumberjack.max g l)) as Hr.
      assert (inInt64 (Lumberjack.max g l)) as Hin.
      { unfold Lumberjack.max. destruct (_ =? 0); apply wrap64_range. }
      rewrite wrap64_small; [lia|]. unfold inInt64 in *. lia.
  - intros Hw. apply writeOut_spec in Hw as (Hc2 & Hm & G2 & Hn & Hsz).
    exists false. split; [done|]. rewrite Hsz. lia.
Qed.

(** The last steps run after some first steps that left [l2], [g2] and
    [w2]. *)
Lemma written_after l g w p r b1 b2 l2 g2 w2 :
  sameConf l l2 -> megabyte g2 = megabyte g -> grows b1 w w2 ->
  size l2 = (if b1 then 0 else size l) ->
  written l2 g2 w2 p r b2 ->
  written l g w p r (b1 || b2).
Proof.
  intros Hc Hm G Hs (Hc2 & Hm2 & G2 & Hn & Hsz).
  split; [by eapply sameConf_trans|]. split; [congruence|].
  split; [by eapply grows_trans|]. split; [done|].
  rewrite Hsz, Hs. by destruct b1, b2.
Qed.

Lemma isNextDay_spec local g w next g1 w1 :
  isNextDay local g w = (next, g1, w1) ->
  megabyte g1 = megabyte g /\ grows false w w1.
Proof.
  unfold isNextDay, updateCurrentTimestamp, currentTime.
  destruct (Now w) as [t w'] eqn:E. apply Now_spec in E as (He & _ & Ht & _).
  intros H; inversion H; subst; clear H.
  split; [done | by eapply grows_one].
Qed.

Lemma writeDaily_spec l g w p :
  Z.of_nat (length p) <= Lumberjack.max g l ->
  wr_err (writeDaily l g w p) = None ->
  exists b, written l g w p (writeDaily l g w p) b
            /\ size (wr_logger (writeDaily l g w p)) <= Lumberjack.max g l.
Proof.
  intros Hlen. unfold writeDaily.
  destruct (0 <? LogSplitDay (cfg l)); [|by apply writeSized_spec].
  destruct (isNextDay (LocalTime (cfg l)) g w) as [[next g1] w1] eqn:E1.
  apply isNextDay_spec in E1 as (Hm1 & G1).
  assert (Lumberjack.max g1 l = Lumberjack.max g l) as Hmax1
    by (by apply max_same).
  destruct next.
  2: { intros Hw. apply writeSized_spec in Hw as (b & Hwr & Hle); [|lia].
       exists b. split; [|lia].
       change b with (false || b). by eapply written_after. }
  set (g2 := updateYesterdayTime (w_tz w1) (LocalTime (cfg l))
               (updateLastTimeOfToday (w_tz w1) (LocalTime (cfg l)) g1)).
  set (l2 := setSplitDayCount l (wrap64 (splitDayCount l + 1))).
  assert (megabyte g2 = megabyte g) as Hm2 by done.
  assert (sameConf l l2) as Hc2 by done.
  destruct (LogSplitDay (cfg l2) <=? splitDayCount l2).
  - destruct (rotate (setSplitDayCount l2 0) (setIsSplitDay g2 true) w1)
      as [[e l3] w3] eqn:E3.
    apply rotate_spec in E3 as (Hc3 & b & G3 & Hok).
    destruct e as [e|]; [discriminate|].
    destruct (Hok eq_refl) as (-> & Hs3 & Hf3).
    assert (sameConf l l3) as Hc
      by (eapply sameConf_trans; [exact Hc2 | exact Hc3]).
    assert (Lumberjack.max (setIsSplitDay (setIsSplitDay g2 true) false) l3
            = Lumberjack.max g l)
      as Hmax3 by (by apply max_same).
    intros Hw. apply writeSized_spec in Hw as (b & Hwr & Hle); [|lia].
    exists (true || b). split; [|lia].
    eapply written_after; [exact Hc | | | | exact Hwr]; try done.
    change true with (false || true). by eapply grows_trans.
  - assert (Lumberjack.max (setIsSplitDay g2 false) l2 = Lumberjack.max g l)
      as Hmax3 by (by apply max_same).
    intros Hw. apply writeSized_spec in Hw as (b & Hwr & Hle); [|lia].
    exists b. split; [|lia].
    change b with (false || b). by eapply written_after.
Qed.

(** The counter and the count after a [Write] that returned nil. *)
Lemma Write_counter (l : Logger) (g : Globals) (w : World)
    (p : list Byte.byte) :
  inInt64 (preSize l w + Z.of_nat (length p)) ->
  wr_err (Write l g w p) = None ->
  let r := Write l g w p in
  size (wr_logger r) <= Lumberjack.max g l
  /\ Lumberjack.max (wr_globals r) (wr_logger r) = Lumberjack.max g l
  /\ wr_n r = Z.of_nat (length p)
  /\ size (wr_logger r)
     = (if rotated w (wr_world r) then 0 else preSize l w) + wr_n r.
Proof.
  intros Hfit. unfold Write.
  destruct (Lumberjack.max g l <? Z.of_nat (length p)) eqn:Elen; [discriminate|].
  assert (inInt64 (0 + Z.of_nat (length p))) as Hfit0.
  { assert (inInt64 (Lumberjack.max g l)) as Hin
      by (unfold Lumberjack.max; destruct (_ =? 0); apply wrap64_range).
    unfold inInt64 in *. lia. }
  assert (forall l1 w1 b1, sameConf l l1 -> grows b1 w w1 ->
            size l1 = (if b1 then 0 else preSize l w) ->
            wr_err (writeDaily l1 g w1 p) = None ->
            let r := writeDaily l1 g w1 p in
            size (wr_logger r) <= Lumberjack.max g l
            /\ Lumberjack.max (wr_globals r) (wr_logger r) = Lumberjack.max g l
            /\ wr_n r = Z.of_nat (length p)
            /\ size (wr_logger r)
               = (if rotated w (wr_world r) then 0 else preSize l w) + wr_n r)
    as Hrest.
  { intros l1 w1 b1 Hc1 G1 Hs1 Hok r.
    assert (Lumberjack.max g l1 = Lumberjack.max g l) as Hmax
      by (by apply max_same).
    apply writeDaily_spec in Hok as (b & Hwr & Hle); [|lia].
    fold r in Hwr, Hle. destruct Hwr as (Hc & Hm & G & Hn & Hsz).
    split; [lia|]. split.
    { apply max_same; [done|]. by eapply sameConf_trans. }
    split; [done|].
    rewrite (grows_rotated (b1 || b) w (wr_world r))
      by (by eapply grows_trans).
    rewrite Hsz, Hn, Hs1.
    destruct b1, b; cbn [orb]; by rewrite wrap64_small. }
  destruct (file l) as [h|] eqn:Eh.
  - intros Hok. apply (Hrest l w false); try done; [apply grows_refl|].
    unfold preSize. by rewrite Eh.
  - destruct (openExistingOrNew l g w (Z.of_nat (length p)))
      as [[e l1] w1] eqn:E1.
    destruct e as [e|]; [discriminate|].
    apply openExistingOrNew_spec in E1 as (Hc1 & b1 & G1 & _ & Hs1); [|done].
    intros Hok. by apply (Hrest l1 w1 b1).
Qed.


(** ** The retention sweep: the decisions *)

Lemma logicalBackups_snoc files f :
  logicalBackups (files ++ [f]) = note (logicalBackups files) (lname f).
Proof. unfold logicalBackups. by rewrite fmap_app, fold_left_app. Qed.

Lemma note_NoDup seen x : NoDup seen -> NoDup (note seen x).
Proof.
  intros H. unfold note. case_decide; [done|].
  apply NoDup_app. split; [done|]. split; [|apply NoDup_singleton].
  intros y Hy Hy'. apply list_elem_of_singleton in Hy'. by subst.
Qed.

Lemma logicalBackups_NoDup files : NoDup (logicalBackups files).
Proof.
  induction files as [|f files IH] using rev_ind; [constructor|].
  rewrite logicalBackups_snoc. by apply note_NoDup.
Qed.

Lemma elem_of_note seen x y : y ∈ note seen x <-> y ∈ seen \/ y = x.
Proof.
  unfold note. case_decide.
  - split; [by left|]. intros [?| ->]; done.
  - rewrite elem_of_app, list_elem_of_singleton. done.
Qed.

Lemma elem_of_logicalBackups files y :
  y ∈ logicalBackups files <-> y ∈ lname <$> files.
Proof.
  induction files as [|f files IH] using rev_ind.
  - done.
  - rewrite logicalBackups_snoc, elem_of_note, IH, fmap_app, elem_of_app.
    simpl. rewrite list_elem_of_singleton. done.
Qed.

Lemma logicalBackups_length files :
  (length (logicalBackups files) <= length files)%nat.
Proof.
  induction files as [|f files IH] using rev_ind; [done|].
  rewrite logicalBackups_snoc, length_app. unfold note. simpl.
  case_decide; [lia|]. rewrite length_app. simpl. lia.
Qed.

Lemma elem_of_take_elem {A} (x : A) (n : nat) (l : list A) :
  x ∈ take n l -> x ∈ l.
Proof.
  rewrite elem_of_take. intros (i & Hi & _). by eapply list_elem_of_lookup_2.
Qed.

(** Among names without repetition, what was among the first [k] stays
    so when names are added at the end. *)
Lemma elem_of_take_app (k : nat) (a b : list string) (x : string) :
  x ∈ a -> NoDup (a ++ b) -> (x ∈ take k (a ++ b) <-> x ∈ take k a).
Proof.
  intros Hx Hnd. destruct (decide (k <= length a)%nat) as [Hk|Hk].
  - by rewrite take_app_le.
  - rewrite take_app_ge by lia. rewrite (take_ge a) by lia.
    rewrite elem_of_app. split; [|by left].
    intros [?|Hb]; [done|].
    apply NoDup_app in Hnd as (_ & Hd & _).
    exfalso. apply (Hd x Hx). by eapply elem_of_take_elem.
Qed.

Lemma elem_of_take_last (k : nat) (a : list string) (x : string) :
  NoDup (a ++ [x]) -> (x ∈ take k (a ++ [x]) <-> (length a < k)%nat).
Proof.
  intros Hnd. apply NoDup_app in Hnd as (_ & Hd & _).
  destruct (decide (k <= length a)%nat) as [Hk|Hk].
  - rewrite take_app_le by done. split; [|lia].
    intros Hx. apply elem_of_take_elem in Hx. exfalso.
    apply (Hd x Hx). by apply list_elem_of_singleton.
  - rewrite take_app_ge by lia. split; [lia|]. intros _.
    apply elem_of_app. right.
    replace (k - length a)%nat with (S (k - length a - 1)) by lia.
    simpl. by left.
Qed.

Lemma note_extends seen x : exists ext, note seen x = seen ++ ext.
Proof.
  unfold note. case_decide; [exists []; by rewrite app_nil_r | by eexists].
Qed.

Lemma grouped_prefix pre rest : grouped (pre ++ rest) -> grouped pre.
Proof.
  intros G p f r -> Hin. apply (G p f (r ++ rest)); [|done].
  by rewrite <- app_assoc.
Qed.

Lemma count_loop (k : Z) (files : list logInfo) :
  0 <= k -> grouped files ->
  countInv (Z.to_nat k) files (fold_left (countStep k) files (∅, [], [])).
Proof.
  intros Hk. induction files as [|f pre IH] using rev_ind; intros G.
  - cbn. repeat split; try done; try set_solver.
    intros pre' g Hnil. by destruct pre'.
  - rewrite fold_left_app. cbn [fold_left].
    specialize (IH (grouped_prefix _ _ G)).
    destruct (fold_left (countStep k) pre (∅, [], [])) as [[P rm] keep].
    destruct IH as (HP & Hlast & Hrm & Hkeep).
    unfold countStep, countInv. fold (lname f).
    rewrite logicalBackups_snoc.
    set (seen := logicalBackups pre) in *. set (x := lname f).
    pose proof (logicalBackups_NoDup (pre ++ [f])) as Hnd.
    rewrite logicalBackups_snoc in Hnd. fold seen x in Hnd.
    (* the name of [f] ends the names seen *)
    assert (exists s, note seen x = s ++ [x]) as [s Hs].
    { unfold note. case_decide as Hin; [|by eexists].
      apply elem_of_logicalBackups in Hin.
      destruct (G pre f [] eq_refl Hin) as (pre' & g & -> & Hg).
      destruct (Hlast pre' g eq_refl) as [s' Hs']. exists s'.
      by rewrite Hs', Hg. }
    destruct (note_extends seen x) as [ext Hext].
    assert (forall g, g ∈ pre ->
              (lname g ∈ take (Z.to_nat k) (note seen x)
               <-> lname g ∈ take (Z.to_nat k) seen)) as Hold.
    { intros g Hg. rewrite Hext. apply elem_of_take_app.
      - apply elem_of_logicalBackups. by apply list_elem_of_fmap_2.
      - by rewrite <- Hext. }
    assert (lname f ∈ take (Z.to_nat k) (note seen x)
            <-> (length s < Z.to_nat k)%nat) as Hnew.
    { fold x. rewrite Hs. apply elem_of_take_last. by rewrite <- Hs. }
    assert ({[x]} ∪ P = list_to_set (note seen x)) as HP'.
    { subst P. unfold note. case_decide as Hin.
      - apply set_eq. intros y. rewrite elem_of_union, elem_of_singleton,
          !elem_of_list_to_set. split; [intros [->|?]; done | by right].
      - rewrite list_to_set_app_L. simpl. apply set_eq. set_solver. }
    assert (base.size ({[x]} ∪ P) = S (length s)) as Hsize.
    { rewrite HP', size_list_to_set by done. rewrite Hs, length_app. simpl. lia. }
    rewrite Hsize.
    destruct (k <? Z.of_nat (S (length s))) eqn:Ecmp.
    + split; [done|]. split.
      { intros pre' g Heq. apply app_inj_tail in Heq as [_ <-]. by exists s. }
      split.
      * intros g. rewrite !elem_of_app, !list_elem_of_singleton, Hrm.
        split.
        -- intros [[Hg Hn]| ->]; [split; [by left|by rewrite Hold] |].
           split; [by right|]. rewrite Hnew. lia.
        -- intros [[Hg| ->] Hn]; [left; by rewrite <- Hold | by right].
      * intros g. rewrite Hkeep, elem_of_app, list_elem_of_singleton.
        split.
        -- intros [Hg Hn]. split; [by left | by rewrite Hold].
        -- intros [[Hg| ->] Hn]; [by rewrite <- Hold|].
           apply Hnew in Hn. lia.
    + split; [done|]. split.
      { intros pre' g Heq. apply app_inj_tail in Heq as [_ <-]. by exists s. }
      split.
      * intros g. rewrite Hrm, elem_of_app, list_elem_of_singleton.
        split.
        -- intros [Hg Hn]. split; [by left | by rewrite Hold].
        -- intros [[Hg| ->] Hn]; [by rewrite <- Hold|].
           exfalso. apply Hn, Hnew. lia.
      * intros g. rewrite !elem_of_app, !list_elem_of_singleton, Hkeep.
        split.
        -- intros [[Hg Hn]| ->]; [split; [by left|by rewrite Hold] |].
           split; [by right|]. rewrite Hnew. lia.
        -- intros [[Hg| ->] Hn]; [left; by rewrite <- Hold | by right].
Qed.

#[global] Instance newestFirst_trans : Transitive newestFirst.
Proof.
  intros a b c. unfold newestFirst, After. lia.
Qed.

#[global] Instance newestFirst_total : Total newestFirst.
Proof.
  intros a b. unfold newestFirst, After. lia.
Qed.

Lemma newestFirst_squeeze a b c :
  newestFirst a b -> newestFirst b c ->
  sameInstant (timestamp a) (timestamp c) ->
  sameInstant (timestamp b) (timestamp c).
Proof. unfold newestFirst, After, sameInstant. lia. Qed.

(** In a listing sorted newest first in which the rotation time tells
    the logical backups apart, the files of one backup stand together. *)
Lemma sorted_grouped files :
  Sorted newestFirst files -> tieFree files -> grouped files.
Proof.
  intros Hsorted Htie pre f rest -> Hin.
  apply Sorted_StronglySorted in Hsorted; [|apply _].
  apply list_elem_of_fmap in Hin as (h & Hname & Hh).
  destruct pre as [|g pre' _] using rev_ind; [by apply elem_of_nil in Hh|].
  exists pre', g. split; [done|].
  apply elem_of_app in Hh as [Hh|Hh].
  - apply Htie; [set_solver | set_solver |].
    apply (newestFirst_squeeze h).
    + rewrite <- app_assoc in Hsorted.
      apply (StronglySorted_app_1_elem_of _ _ _ h g) in Hsorted;
        [done | done | set_solver].
    + apply (StronglySorted_app_1_elem_of _ _ _ g f) in Hsorted;
        [done | set_solver | set_solver].
    + apply Htie; [set_solver | set_solver | done].
  - apply list_elem_of_singleton in Hh as ->. done.
Qed.

(** The count rule keeps the files of the [k] newest logical backups and
    removes the others. *)
Lemma byCount_spec (k : Z) (files : list logInfo) (f : logInfo) :
  0 < k -> grouped files ->
  (f ∈ fst (byCount k files) <-> f ∈ files /\ beyondCount k files f)
  /\ (f ∈ snd (byCount k files)
      <-> f ∈ files /\ ~ beyondCount k files f).
Proof.
  intros Hk G. unfold byCount, beyondCount.
  destruct ((0 <? k) && (k <? Z.of_nat (length files))) eqn:Eg.
  - pose proof (count_loop k files ltac:(lia) G) as Hinv.
    destruct (fold_left (countStep k) files (∅, [], [])) as [[P rm] keep].
    destruct Hinv as (_ & _ & Hrm & Hkeep). cbn [fst snd].
    rewrite Hrm, Hkeep. split; [done|].
    split; intros [? ?]; split; try done.
    + by intros ?.
    + destruct (decide (lname f ∈ take (Z.to_nat k) (logicalBackups files)));
        [done | by exfalso].
  - cbn [fst snd].
    assert (forall g, g ∈ files ->
              lname g ∈ take (Z.to_nat k) (logicalBackups files)) as Hall.
    { intros g Hg. rewrite take_ge.
      - apply elem_of_logicalBackups. by apply list_elem_of_fmap_2.
      - pose proof (logicalBackups_length files). lia. }
    split.
    + split; [by intros ?%elem_of_nil|]. intros [Hf Hn]. by apply Hn in Hall.
    + split; [|by intros [? ?]]. intros Hf. split; [done|].
      intros Hn. by apply Hn, Hall.
Qed.

(** The cut-off of the age rule, in whole seconds. *)
Lemma cutoff_Unix (now : Time) (days : Z) :
  0 < days <= 106751 -> 0 <= t_nsec now < 1000000000 ->
  Unix (cutoff now days) = Unix now - 86400 * days.
Proof.
  intros Hd Hn. unfold cutoff, maxAge, Hour, Second.
  rewrite (wrap64_small (24 * (3600 * 1000000000)))
    by (unfold inInt64; lia).
  rewrite (wrap64_small (24 * (3600 * 1000000000) * days))
    by (unfold inInt64; lia).
  rewrite wrap64_small by (unfold inInt64; lia).
  unfold Add.
  replace (-1 * (24 * (3600 * 1000000000) * days))
    with ((- (86400 * days)) * 1000000000) by lia.
  rewrite Z.quot_mul, Z.rem_mul by lia.
  replace (t_nsec now + 0) with (t_nsec now) by lia.
  assert ((1000000000 <=? t_nsec now) = false) as -> by lia.
  assert ((t_nsec now <? 0) = false) as -> by lia.
  unfold Unix. simpl. lia.
Qed.

Lemma byAge_spec (now : Time) (days : Z) (files : list logInfo) (f : logInfo) :
  0 < days ->
  (f ∈ fst (byAge now days files) <-> f ∈ files /\ tooOld now days f = true).
Proof.
  intros Hd. unfold byAge.
  assert ((0 <? days) = true) as -> by lia. cbn [fst].
  by rewrite list_elem_of_filter, (and_comm (f ∈ files)).
Qed.

(** C3, as the code has it.  With a count limit [k > 0] and an age
    limit of [days > 0] days, for a listing sorted newest first in which
    two files carry the same rotation time exactly when they are the
    same logical backup (a file and its [.gz]): the sweep marks for
    removal exactly the files that are beyond the [k] newest logical
    backups or whose rotation time, in whole seconds, is before the
    whole second of [now] minus the age limit.  The two times are
    compared as Unix seconds; nanoseconds do not count. *)
Theorem millPlan_removes_by_count_or_age (c : Config) (now : Time)
    (files : list logInfo) (f : logInfo) :
  0 < LogMaxSaveQuantity c ->
  0 < LogMaxSaveDay c <= 106751 ->
  0 <= t_nsec now < 1000000000 ->
  Sorted newestFirst files ->
  tieFree files ->
  (f ∈ fst (millPlan c now files)
   <-> f ∈ files
       /\ (beyondCount (LogMaxSaveQuantity c) files f
           \/ Unix (timestamp f) < Unix now - 86400 * LogMaxSaveDay c)).
Proof.
  intros Hk Hd Hn Hsorted Htie.
  pose proof (sorted_grouped files Hsorted Htie) as G.
  unfold millPlan.
  pose proof (byCount_spec (LogMaxSaveQuantity c) files f Hk G) as [Hrm Hkeep].
  destruct (byCount (LogMaxSaveQuantity c) files) as [rm1 keep1].
  cbn [fst snd] in Hrm, Hkeep.
  pose proof (byAge_spec now (LogMaxSaveDay c) keep1 f ltac:(lia)) as Hage.
  destruct (byAge now (LogMaxSaveDay c) keep1) as [rm2 keep2].
  cbn [fst snd] in Hage |- *.
  rewrite elem_of_app, Hrm, Hage, Hkeep.
  unfold tooOld. rewrite cutoff_Unix by done.
  assert ((Unix (timestamp f) <? Unix now - 86400 * LogMaxSaveDay c) = true
          <-> Unix (timestamp f) < Unix now - 86400 * LogMaxSaveDay c) as ->
    by lia.
  destruct (decide (lname f ∈ take (Z.to_nat (LogMaxSaveQuantity c))
                                   (logicalBackups files))) as [Hin|Hout].
  - unfold beyondCount. tauto.
  - unfold beyondCount. tauto.
Qed.

Lemma oldLogFiles_sorted (l : Logger) (w w1 : World) (files : list logInfo) :
  oldLogFiles l w = (inl files, w1) -> Sorted newestFirst files.
Proof.
  unfold oldLogFiles. destruct (ReadDir w (dir w l)) as [[fs|e] w'];
    [|discriminate].
  destruct (prefixAndExt w l) as [pre ext].
  destruct (scanBackups _ _ _ _ _ _) as [found|]; [|discriminate].
  intros H; inversion H; subst. apply Sorted_merge_sort, _.
Qed.

(** ** Paths and backup names *)

Module FilePathFacts.
Import FilePath.

Lemma chars_app (a b : string) : chars (a +:+ b) = chars a ++ chars b.
Proof.
  unfold chars. induction a as [|c a IH]; [done|].
  rewrite GoStringFacts.app_cons. simpl. by rewrite IH.
Qed.

Lemma str_app (a b : list ascii) : str (a ++ b) = str a +:+ str b.
Proof.
  unfold str. induction a as [|c a IH]; [done|].
  simpl. rewrite GoStringFacts.app_cons. by rewrite IH.
Qed.

Lemma str_chars (s : string) : str (chars s) = s.
Proof. apply string_of_list_ascii_of_string. Qed.

Lemma chars_str (l : list ascii) : chars (str l) = l.
Proof. apply list_ascii_of_string_of_list_ascii. Qed.

Lemma len_chars (s : string) : GoString.len s = length (chars s).
Proof. unfold GoString.len, chars. induction s; simpl; congruence. Qed.

(** *** [Ext] is an ending of the name *)

Lemma extRev_ending (r acc : list ascii) :
  extRev r acc = [] \/ exists n, extRev r acc = rev (take n r) ++ acc.
Proof.
  revert acc. induction r as [|c r IH]; intros acc; simpl; [by left|].
  destruct (isSlash c); [by left|].
  destruct (Ascii.eqb c dot).
  - right. exists 1%nat. done.
  - destruct (IH (c :: acc)) as [->|[n ->]]; [by left|].
    right. exists (S n). simpl. by rewrite <- app_assoc.
Qed.

Lemma Ext_ending (s : string) : exists stem, s = stem +:+ Ext s.
Proof.
  unfold Ext.
  destruct (extRev_ending (rev (chars s)) []) as [->|[n ->]].
  - exists s. by rewrite GoStringFacts.app_nil_r.
  - rewrite app_nil_r. exists (str (rev (drop n (rev (chars s))))).
    rewrite <- str_app, <- rev_app_distr, take_drop, rev_involutive.
    by rewrite str_chars.
Qed.

(** *** The last element of a joined path *)

Lemma split_nonempty (l : list ascii) : split l <> [].
Proof.
  induction l as [|c l IH]; simpl; [done|].
  destruct (isSlash c); [done|]. by destruct (split l).
Qed.

Lemma split_plain (f : list ascii) :
  forallb notSlash f = true -> split f = [f].
Proof.
  induction f as [|c f IH]; simpl; [done|].
  unfold notSlash at 1. intros [Hc Hf]%andb_prop.
  destruct (isSlash c); [done|]. by rewrite IH.
Qed.

Lemma split_app_slash (a f : list ascii) :
  forallb notSlash f = true -> split (a ++ slash :: f) = split a ++ [f].
Proof.
  intros Hf. induction a as [|c a IH]; simpl.
  - by rewrite split_plain.
  - destruct (isSlash c); [by rewrite IH|].
    rewrite IH. pose proof (split_nonempty a). by destruct (split a).
Qed.

Lemma cleanStep_plain rooted st f :
  plainChars f -> cleanStep rooted st f = f :: st.
Proof. intros (_ & He & Hd & Hdd). unfold cleanStep. by rewrite He, Hd, Hdd. Qed.

Lemma joinSlash_snoc (xs : list (list ascii)) (f : list ascii) :
  exists pre, joinSlash (xs ++ [f]) = pre ++ f
              /\ (pre = [] \/ exists q, pre = q ++ [slash]).
Proof.
  induction xs as [|x xs IH]; simpl.
  - exists []. split; [done | by left].
  - destruct IH as (pre & Hj & Hpre).
    destruct (xs ++ [f]) as [|y ys] eqn:E; [by destruct xs|].
    rewrite Hj. exists (x ++ slash :: pre). split.
    + by rewrite <- app_assoc.
    + right. destruct Hpre as [->|[q ->]].
      * exists x. done.
      * exists (x ++ slash :: q). by rewrite <- app_assoc.
Qed.

Lemma takeWhile_plain (f rest : list ascii) :
  forallb notSlash f = true ->
  (rest = [] \/ exists q, rest = slash :: q) ->
  takeWhileB notSlash (f ++ rest) = f.
Proof.
  intros Hf Hrest. induction f as [|c f IH]; simpl.
  - destruct Hrest as [->|[q ->]]; done.
  - simpl in Hf. apply andb_prop in Hf as [Hc Hf]. by rewrite Hc, IH.
Qed.

Lemma baseChars_ending (pre f : list ascii) :
  plainChars f -> (pre = [] \/ exists q, pre = q ++ [slash]) ->
  baseChars (pre ++ f) = f.
Proof.
  intros (Hf & He & _) Hpre. unfold baseChars.
  destruct (pre ++ f) as [|c0 l0] eqn:E.
  { destruct pre, f; done. }
  rewrite <- E, rev_app_distr.
  assert (forallb notSlash (rev f) = true) as Hrf.
  { rewrite forallb_forall in *. intros x Hx. apply Hf. by apply in_rev. }
  destruct (rev f) as [|c r] eqn:Er.
  { destruct f; [done|]. simpl in Er. by destruct (rev f). }
  simpl. simpl in Hrf. apply andb_prop in Hrf as [Hc Hr].
  unfold notSlash in Hc. destruct (isSlash c) eqn:Ec; [done|].
  unfold notSlash at 1. rewrite Ec. simpl.
  rewrite takeWhile_plain; [| done |].
  - change (rev (c :: r)) with (rev r ++ [c]).
    rewrite <- (rev_involutive f), Er. done.
  - destruct Hpre as [->|[q ->]]; [by left|].
    right. rewrite rev_app_distr. simpl. by eexists.
Qed.

Lemma cleanChars_ending (a f : list ascii) :
  plainChars f ->
  exists pre, (pre = [] \/ exists q, pre = q ++ [slash])
              /\ (cleanChars (a ++ slash :: f) = pre ++ f)
              /\ (cleanChars f = f).
Proof.
  intros Hp. pose proof Hp as (Hf & He & _).
  assert (forall rooted st, exists pre,
            (pre = [] \/ exists q, pre = q ++ [slash])
            /\ render rooted (f :: st) = pre ++ f) as Hrender.
  { intros rooted st. unfold render. simpl.
    destruct (joinSlash_snoc (rev st) f) as (pre & -> & Hpre).
    destruct rooted.
    - exists (slash :: pre). split; [|done].
      right. destruct Hpre as [->|[q ->]]; [by exists [] | by exists (slash :: q)].
    - exists pre. split; [done|]. destruct (pre ++ f) eqn:E; [|done].
      destruct pre, f; done. }
  destruct (Hrender (isRooted (a ++ slash :: f))
              (fold_left (cleanStep (isRooted (a ++ slash :: f))) (split a) []))
    as (pre & Hpre & Hr).
  exists pre. split; [done|]. split.
  - unfold cleanChars. destruct (a ++ slash :: f) eqn:E; [by destruct a|].
    rewrite <- E, split_app_slash, fold_left_app by done. cbn [fold_left].
    rewrite cleanStep_plain by done. by rewrite <- E in Hr.
  - unfold cleanChars. destruct f as [|c f'] eqn:Ef; [discriminate He|].
    rewrite <- Ef in *.
    rewrite split_plain by done. simpl. rewrite cleanStep_plain by done.
    unfold render. simpl.
    assert (isRooted f = false) as ->.
    { subst f. simpl in *. apply andb_prop in Hf as [Hc _].
      unfold notSlash in Hc. by destruct (isSlash c). }
    by subst f.
Qed.

Lemma plainName_chars (f : string) : plainName f = true -> plainChars (chars f).
Proof.
  unfold plainName, plainChars, noSlash.
  intros H. repeat (apply andb_prop in H as [H ?]).
  repeat split; try done; by apply negb_true_iff.
Qed.


End FilePathFacts.

Section BackupNames.
Import FilePathFacts.

Lemma trimExt_Ext (fname : string) :
  trimExt fname (Ext fname) +:+ Ext fname = fname.
Proof.
  destruct (Ext_ending fname) as [stem H].
  set (ext := Ext fname) in *. clearbody ext. subst fname.
  unfold trimExt. rewrite GoStringFacts.len_app.
  replace (len stem + len ext - len ext)%nat with (len stem) by lia.
  by rewrite GoStringFacts.substring_app_l.
Qed.

Lemma noSlash_app (a b : string) : noSlash (a +:+ b) = noSlash a && noSlash b.
Proof. unfold noSlash. by rewrite chars_app, forallb_app. Qed.






Lemma dashed_plain (a b : string) :
  noSlash a = true -> noSlash b = true ->
  plainName (a +:+ "-" +:+ b) = true.
Proof.
  intros Ha Hb. unfold plainName.
  rewrite !noSlash_app, Ha, Hb. rewrite !chars_app.
  change (chars "-") with ["-"%char].
  change (noSlash "-") with true.
  destruct (chars a) as [|x [|y l]]; destruct (chars b) as [|z m];
    cbn; rewrite ?andb_false_r; try done.
  - by destruct m.
  - by destruct l.
  - by destruct l.
Qed.



End BackupNames.

(** ** Examples for the theorems above *)

Lemma millRunOnce_continues_and_reports_first_witness :
  let l := Sample.keeper in
  let g := Sample.globals in
  let w := Sample.archive in
  let files := Sample.backups in
  let w1 := snd (oldLogFiles l w) in
  ((LogMaxSaveQuantity (cfg l) =? 0) && (LogMaxSaveDay (cfg l) =? 0)
    && negb (Compress (cfg l)) = false)
  /\ oldLogFiles l w = (inl files, w1)
  /\ (let gw := if 0 <? LogMaxSaveDay (cfg l)
                then updateCurrentTimestamp (LocalTime (cfg l)) g w1
                else (g, w1) in
      let plan := millPlan (cfg l) (nowTime (fst gw)) files in
      let acts := sweepActions (dir (snd gw) l) (fst plan) (snd plan) in
      let run := performAll Sample.toyGzip (snd gw) acts in
      millRunOnce Sample.toyGzip l g w = (firstError (fst run), fst gw, snd run)
      /\ length (fst run) = (length (fst plan) + length (snd plan))%nat
      /\ (firstError (fst run) = None <-> Forall (fun e => e = None) (fst run))).
Proof.
  cbv zeta.
  assert ((LogMaxSaveQuantity (cfg Sample.keeper) =? 0)
          && (LogMaxSaveDay (cfg Sample.keeper) =? 0)
          && negb (Compress (cfg Sample.keeper)) = false) as H1
    by (vm_compute; reflexivity).
  assert (oldLogFiles Sample.keeper Sample.archive
          = (inl Sample.backups, snd (oldLogFiles Sample.keeper Sample.archive)))
    as H2 by (vm_compute; reflexivity).
  exact (conj H1 (conj H2
    (millRunOnce_continues_and_reports_first Sample.toyGzip Sample.keeper
       Sample.globals Sample.archive _ Sample.backups H1 H2))).
Defined.

(** C3 as the claim states it fails: a backup rotated at 2021-03-09
    00:30:00 is strictly older than [now] less one day when [now] is
    2021-03-10 00:30:00.000000005, and it is within the count limit; the
    sweep does not mark it for removal, since both times fall in the
    same second. *)
Lemma age_rule_compares_whole_seconds :
  let c := Sample.keepConf in
  let f := Sample.dayOld in
  0 < LogMaxSaveQuantity c
  /\ 0 < maxAge (LogMaxSaveDay c)
  /\ timeFromName c 0 (Name f) "foo-" ".log" = inl (timestamp f)
  /\ Before (timestamp f) (Add Sample.now (- maxAge (LogMaxSaveDay c))) = true
  /\ fst (millPlan c Sample.now [f]) = [].
Proof. evaluate. Qed.

Lemma backups_sorted : Sorted newestFirst Sample.backups.
Proof. repeat constructor. Qed.

Lemma backups_tieFree : tieFree Sample.backups.
Proof.
  intros f g Hf Hg. unfold Sample.backups in *.
  repeat (apply elem_of_cons in Hf as [->|Hf]);
    try (by apply elem_of_nil in Hf);
    repeat (apply elem_of_cons in Hg as [->|Hg]);
    try (by apply elem_of_nil in Hg);
    (split; [intros H; try (vm_compute in H; discriminate); vm_compute; done
            | intros [H1 H2]; try (vm_compute in H1; discriminate);
              vm_compute; done]).
Qed.

Lemma millPlan_removes_by_count_or_age_witness :
  let c := Sample.keepConf in
  let f := Sample.backup 1615161600 "foo-2021-03-08T00-00-00.log" in
  0 < LogMaxSaveQuantity c
  /\ 0 < LogMaxSaveDay c <= 106751
  /\ 0 <= t_nsec Sample.now < 1000000000
  /\ Sorted newestFirst Sample.backups
  /\ tieFree Sample.backups
  /\ (f ∈ fst (millPlan c Sample.now Sample.backups)
      <-> f ∈ Sample.backups
          /\ (beyondCount (LogMaxSaveQuantity c) Sample.backups f
              \/ Unix (timestamp f) < Unix Sample.now - 86400 * LogMaxSaveDay c)).
Proof.
  cbv zeta.
  assert (0 < LogMaxSaveQuantity Sample.keepConf) as H1 by (vm_compute; reflexivity).
  assert (0 < LogMaxSaveDay Sample.keepConf <= 106751) as H2 by (simpl; lia).
  assert (0 <= t_nsec Sample.now < 1000000000) as H3 by (simpl; lia).
  exact (conj H1 (conj H2 (conj H3 (conj backups_sorted (conj backups_tieFree
    (millPlan_removes_by_count_or_age Sample.keepConf Sample.now Sample.backups
       _ H1 H2 H3 backups_sorted backups_tieFree)))))).
Defined.





(** The same backup name written out: on a host eight hours east of
    Greenwich a logger set to UTC names the backup by the UTC wall
    clock, and the name is read back as the instant of the rotation. *)
Lemma backup_name_on_east_host :
  let l := Sample.logger in
  let w := Sample.eastWorld in
  fst (backupName Sample.globals w (filename w l) (LocalTime (cfg l)))
  = "/var/log/foo-2021-03-10T00-30-00.log"
  /\ timeFromName (cfg l) (w_tz w) "foo-2021-03-10T00-30-00.log" "foo-" ".log"
     = inl (mkTime 1615336200 0 UTC).
Proof. evaluate. Qed.

(** ** The day boundary *)

Lemma civilOf_day (abs : Z) :
  let c := civilOf abs in
  days_from_civil (c_year c) (c_month c) (c_day c) = abs / 86400.
Proof.
  unfold civilOf. pose proof (GoTimeFacts.civil_roundtrip (abs / 86400)) as Hr.
  destruct (civil_from_days (abs / 86400)) as [[y m] d]. simpl. tauto.
Qed.


(** The end of the day of a date written by [FormatDate]. *)
Lemma endOfDay_FormatDate (tz : Z) (local : bool) (abs : Z) :
  0 <= c_year (civilOf abs) <= 9999 ->
  endOfDay tz local (formatDate (civilOf abs))
  = 86400 * (abs / 86400) + 86399 - (if local then tz else 0).
Proof.
  intros Hy.
  pose proof (GoTimeFacts.civilOf_valid abs Hy) as (_ & Hm & Hd & _).
  pose proof (civilOf_day abs) as Hday. cbv zeta in Hday.
  set (c := civilOf abs) in *.
  set (c' := mkCivil (c_year c) (c_month c) (c_day c) 23 59 59).
  assert (validCivil c') as Hv
    by (unfold validCivil, c';
        cbn [c_year c_month c_day c_hour c_min c_sec]; lia).
  assert (formatDate c +:+ "_23:59:59" = formatCivil timeFormat c') as Hs
    by reflexivity.
  unfold endOfDay. rewrite Hs. unfold Parse, ParseInLocation.
  rewrite (GoTimeFacts.parseFields_formatCivil timeFormat c' Hv).
  destruct local; unfold orZero, Unix, Date, c';
    cbn [negb t_sec c_year c_month c_day c_hour c_min c_sec offset];
    rewrite Hday; lia.
Qed.

Lemma updateLastTimeOfToday_formula (tz : Z) (local : bool) (g : Globals) :
  0 <= c_year (civilOf (nowTimestamp g + tz)) <= 9999 ->
  lastTimestamp (updateLastTimeOfToday tz local g)
  = 86400 * ((nowTimestamp g + tz) / 86400) + 86399 - (if local then tz else 0).
Proof.
  intros Hy. unfold updateLastTimeOfToday, FormatDate, wall.
  cbn [lastTimestamp setLastTimestamp ofUnix t_sec t_loc offset].
  by apply endOfDay_FormatDate.
Qed.






(** X3.  After [updateLastTimeOfToday], [isNextDay] answers true exactly
    when the second read from the clock lies on a later day than
    [nowTimestamp] did: both days on the local clock with [local], and
    the clock's day in UTC against the earlier local day without. *)
Theorem isNextDay_after_update (local : bool) (g : Globals) (w : World) :
  0 <= c_year (civilOf (nowTimestamp g + w_tz w)) <= 9999 ->
  let g1 := updateLastTimeOfToday (w_tz w) local g in
  let s := fst (w_clock w (length (w_trace w))) in
  let '(next, g2, w2) := isNextDay local g1 w in
  (next = true <->
   (nowTimestamp g + w_tz w) / 86400
   < (s + (if local then w_tz w else 0)) / 86400)
  /\ nowTimestamp g2 = s
  /\ lastTimestamp g2 = lastTimestamp g1
  /\ w_files w2 = w_files w.
Proof.
  intros Hy g1 s.
  pose proof (updateLastTimeOfToday_formula (w_tz w) local g Hy) as Hl.
  fold g1 in Hl.
  unfold isNextDay, updateCurrentTimestamp, currentTime.
  destruct (Now w) as [t w1] eqn:E.
  apply Now_spec in E as (_ & Hf & _ & _ & _ & Hs).
  cbn [lastTimestamp nowTimestamp setNow].
  assert (Unix (if negb local then toUTC t else t) = s) as ->
    by (subst s; rewrite <- Hs; by destruct local).
  set (off := if local then w_tz w else 0) in *.
  pose proof (Z.div_mod (s + off) 86400).
  pose proof (Z.mod_pos_bound (s + off) 86400).
  set (q := (s + off) / 86400) in *.
  set (D := (nowTimestamp g + w_tz w) / 86400) in *.
  repeat split; try done.
  - intros Hn. apply Z.ltb_lt in Hn. lia.
  - intros Hn. apply Z.ltb_lt. lia.
Qed.

Lemma isNextDay_after_update_witness :
  let g := Sample.eveGlobals in
  let w := Sample.eastWorld in
  0 <= c_year (civilOf (nowTimestamp g + w_tz w)) <= 9999
  /\ (let g1 := updateLastTimeOfToday (w_tz w) true g in
      let s := fst (w_clock w (length (w_trace w))) in
      let '(next, g2, w2) := isNextDay true g1 w in
      (next = true <->
       (nowTimestamp g + w_tz w) / 86400 < (s + w_tz w) / 86400)
      /\ nowTimestamp g2 = s
      /\ lastTimestamp g2 = lastTimestamp g1
      /\ w_files w2 = w_files w).
Proof.
  cbv zeta.
  assert (0 <= c_year (civilOf (nowTimestamp Sample.eveGlobals
                                + w_tz Sample.eastWorld)) <= 9999)
    as H1 by (split; vm_compute; discriminate).
  exact (conj H1 (isNextDay_after_update true Sample.eveGlobals Sample.eastWorld H1)).
Defined.

(** ** What a rotation does to the files *)

Lemma ops_nil w : ops w w [].
Proof. split; [done | by rewrite app_nil_r]. Qed.

Lemma ops_app w w1 w2 t1 t2 : ops w w1 t1 -> ops w1 w2 t2 -> ops w w2 (t1 ++ t2).
Proof.
  intros [He1 Ht1] [He2 Ht2]. split; [congruence|].
  by rewrite Ht2, Ht1, <- app_assoc.
Qed.

Lemma ops_grows w w1 tr : ops w w1 tr -> grows (existsb isCreate tr) w w1.
Proof. intros [He Ht]. split; [done|]. by exists tr. Qed.

Lemma ops_newOps w w1 tr : ops w w1 tr -> newOps w w1 = tr.
Proof. intros [_ Ht]. unfold newOps. by rewrite Ht, drop_app_length. Qed.

Lemma ops_filename w w1 tr l : ops w w1 tr -> filename w1 l = filename w l.
Proof. intros [He _]. unfold filename. unfold env in He. by inversion He. Qed.

Lemma ops_fate w w1 tr : ops w w1 tr -> w_fate w1 = w_fate w.
Proof. intros [He _]. by apply env_fate. Qed.

(** [Stat] fails only for a missing file or by the oracle. *)
Lemma Stat_inr w p e w1 : Stat w p = (inr e, w1) ->
  w_files w !! key p = None
  \/ w_fate w (length (w_trace w)) (OpStat p) <> Succeeds.
Proof.
  unfold Stat, step.
  destruct (w_fate w (length (w_trace w)) (OpStat p)) eqn:Ef.
  - destruct (w_files w !! key p); [discriminate | by left].
  - intros _. by right.
Qed.

Lemma openNew_Opened l g w e l1 w1 :
  openNew l g w = (e, l1, w1) ->
  exists tr, ops w w1 tr /\ Opened l g w e l1 w1 tr.
Proof.
  unfold openNew.
  destruct (MkdirAll w (dir w l)) as [e0 w0] eqn:E0.
  apply MkdirAll_spec in E0 as (He0 & Hf0 & Ht0).
  assert (ops w w0 [OpMkdirAll (dir w l)]) as O0 by done.
  destruct e0 as [e0|].
  { intros H; inversion H; subst; clear H.
    eexists. split; [exact O0|]. by constructor. }
  rewrite (ops_filename _ _ _ l O0).
  set (name := filename w l).
  destruct (Stat w0 name) as [st w2] eqn:E2.
  pose proof E2 as E2'.
  apply Stat_spec in E2 as (He2 & Hf2 & Ht2 & Hst).
  assert (ops w w2 ([OpMkdirAll (dir w l)] ++ [OpStat name])) as O2
    by (eapply ops_app; [exact O0 | done]).
  destruct st as [info|est].
  - destruct Hst as (x & Hx & _ & Hmode). rewrite Hf0 in Hx.
    destruct (backupName g w2 name (LocalTime (cfg l))) as [newname w3] eqn:E3.
    assert (id (newname = fst (backupName g w2 name (LocalTime (cfg l)))))
      as Hnew by (by rewrite E3).
    unfold backupName, currentTime in E3.
    destruct (Now w2) as [t w3'] eqn:En.
    apply Now_spec in En as (He3 & Hf3 & Ht3 & _).
    assert (w3' = w3) as -> by (by inversion E3). clear E3.
    assert (ops w w3 (([OpMkdirAll (dir w l)] ++ [OpStat name]) ++ [OpNow])) as O3
      by (eapply ops_app; [exact O2 | done]).
    destruct (Rename w3 name newname) as [e4 w4] eqn:E4.
    apply Rename_spec in E4 as (He4 & Ht4 & Hr4).
    assert (ops w w4 ((([OpMkdirAll (dir w l)] ++ [OpStat name]) ++ [OpNow])
                      ++ [OpRename name newname])) as O4
      by (eapply ops_app; [exact O3 | done]).
    destruct e4 as [e4|].
    { intros H; inversion H; subst; clear H.
      eexists. split; [exact O4|].
      constructor. by rewrite Hr4, Hf3, Hf2, Hf0. }
    destruct Hr4 as (x' & Hx' & Hf4).
    rewrite Hf3, Hf2, Hf0 in Hx', Hf4.
    assert (x' = x) as -> by congruence.
    destruct (chown w4 name info) as [e5 w5] eqn:E5.
    apply chown_spec in E5 as (He5 & Hf5 & Ht5).
    assert (ops w w5 (((([OpMkdirAll (dir w l)] ++ [OpStat name]) ++ [OpNow])
                      ++ [OpRename name newname]) ++ [OpChown name])) as O5
      by (eapply ops_app; [exact O4 | done]).
    destruct e5 as [e5|].
    { intros H; inversion H; subst; clear H.
      eexists. split; [exact O5|].
      eapply (OpenedMovedOnly _ _ _ _ _ _ newname w2 x); try done.
      - by destruct O2.
      - set_solver.
      - rewrite Hf5, Hf4. done. }
    destruct (Create w5 name (fi_mode info)) as [r w6] eqn:E6.
    apply Create_spec in E6 as (He6 & Ht6 & Hr6).
    assert (ops w w6 ((((([OpMkdirAll (dir w l)] ++ [OpStat name]) ++ [OpNow])
                      ++ [OpRename name newname]) ++ [OpChown name])
                      ++ [OpCreate name (fi_mode info)])) as O6
      by (eapply ops_app; [exact O5 | done]).
    destruct r as [f|e6]; intros H; inversion H; subst; clear H.
    + destruct Hr6 as (-> & Hf6).
      eexists. split; [exact O6|].
      eapply (OpenedMoved _ _ _ _ _ newname w2 x); try done.
      * by destruct O2.
      * set_solver.
      * rewrite Hf6, Hf5, Hf4. unfold movedAside. f_equal. f_equal.
        destruct (decide (key newname = key name)) as [Hk|Hk].
        -- rewrite Hk. by rewrite lookup_insert_eq.
        -- rewrite lookup_insert_ne by done. by rewrite lookup_delete_eq.
    + eexists. split; [exact O6|].
      eapply (OpenedMovedOnly _ _ _ _ _ _ newname w2 x); try done.
      * by destruct O2.
      * set_solver.
      * rewrite Hr6, Hf5, Hf4. done.
  - apply Stat_inr in E2' as Hno.
    destruct (Create w2 name 384) as [r w6] eqn:E6.
    apply Create_spec in E6 as (He6 & Ht6 & Hr6).
    assert (ops w w6 (([OpMkdirAll (dir w l)] ++ [OpStat name])
                      ++ [OpCreate name 384])) as O6
      by (eapply ops_app; [exact O2 | done]).
    destruct r as [f|e6]; intros H; inversion H; subst; clear H.
    + destruct Hr6 as (-> & Hf6).
      eexists. split; [exact O6|].
      apply OpenedInPlace; try done.
      * destruct Hno as [Hno|Hno]; [left; by rewrite <- Hf0 | right].
        exists (length (w_trace w0)). by rewrite <- (ops_fate _ _ _ O0).
      * intros a b Hin. set_solver.
      * rewrite Hf6, Hf2, Hf0. done.
    + eexists. split; [exact O6|].
      constructor. by rewrite Hr6, Hf2, Hf0.
Qed.

(** [rotate] is [close], then [openNew] on the logger without handle. *)
Lemma rotate_Opened l g w e l1 w1 :
  rotate l g w = (e, l1, w1) ->
  (exists err, e = Some err /\ w_files w1 = w_files w
               /\ file l1 = None /\ size l1 = size l
               /\ splitDayCount l1 = splitDayCount l)
  \/ exists w0 tr0 tr l2,
       ops w w0 tr0 /\ w_files w0 = w_files w /\ ops w0 w1 tr
       /\ (forall a b, OpRename a b ∉ tr0)
       /\ Opened (setFile l None) g w0 e l2 w1 tr
       /\ (l1 = l2 \/ l1 = mill l2).
Proof.
  unfold rotate, close.
  assert (forall w0 tr0, ops w w0 tr0 -> w_files w0 = w_files w ->
            (forall a b, OpRename a b ∉ tr0) ->
            (let '(err, l0, w2) := openNew (setFile l None) g w0 in
             match err with
             | Some e0 => (Some e0, l0, w2)
             | None => (None, mill l0, w2)
             end) = (e, l1, w1) ->
            exists w0 tr0 tr l2,
              ops w w0 tr0 /\ w_files w0 = w_files w /\ ops w0 w1 tr
              /\ (forall a b, OpRename a b ∉ tr0)
              /\ Opened (setFile l None) g w0 e l2 w1 tr
              /\ (l1 = l2 \/ l1 = mill l2)) as Hopen.
  { intros w0 tr0 O0 Hf0 Hn0.
    destruct (openNew (setFile l None) g w0) as [[e2 l2] w2] eqn:E2.
    apply openNew_Opened in E2 as (tr & O2 & Hop).
    destruct e2 as [e2|]; intros H; exists w0, tr0, tr, l2;
      inversion H; subst; clear H;
      (split; [done|]); (split; [done|]); (split; [done|]);
      (split; [done|]); (split; [done|]); first [by left | by right]. }
  destruct (file l) as [h|] eqn:Eh.
  - destruct (FileClose w h) as [e0 w0] eqn:E0.
    apply FileClose_spec in E0 as (He0 & Hf0 & Ht0).
    destruct e0 as [e0|].
    + intros H; inversion H; subst; clear H. left. by exists e0.
    + intros H. right. apply (Hopen w0 [OpClose h]); try done.
      intros a b Hin. set_solver.
  - intros H. right. apply (Hopen w []); try done.
    + apply ops_nil.
    + intros a b Hin. set_solver.
    + replace (setFile l None) with l by (destruct l; simpl in *; by subst).
      exact H.
Qed.

Lemma setFile_filename w l f : filename w (setFile l f) = filename w l.
Proof. done. Qed.

(** X4.  A successful [rotate] of a log that is there, when [Stat]
    does not fail: the bytes and the mode of the log are now under a
    backup name taken from the clock during the call, the log itself
    is empty with the mode it had, the handle is open on it with a
    counter of 0, and no other file has changed. *)
Theorem rotate_moves_log_aside (l : Logger) (g : Globals) (w : World)
    (l1 : Logger) (w1 : World) (x : File) :
  let name := filename w l in
  w_files w !! key name = Some x ->
  (forall n, w_fate w n (OpStat name) = Succeeds) ->
  rotate l g w = (None, l1, w1) ->
  exists newname wb,
    env wb = env w
    /\ newname = fst (backupName g wb name (LocalTime (cfg l)))
    /\ OpRename name newname ∈ newOps w w1
    /\ w_files w1 !! key name = Some (mkFile [] (f_mode x))
    /\ (key newname <> key name -> w_files w1 !! key newname = Some x)
    /\ (forall k, k <> key name -> k <> key newname ->
        w_files w1 !! k = w_files w !! k)
    /\ file l1 = Some (key name) /\ size l1 = 0.
Proof.
  intros name Hx Hstat H.
  apply rotate_Opened in H as [(err & He & _) | (w0 & tr0 & tr & l2 & O0 & Hf0 & O2 & Hn0 & Hop & Hl)];
    [discriminate|].
  pose proof (ops_filename _ _ _ l O0) as Hname. fold name in Hname.
  pose proof (ops_newOps _ _ _ (ops_app _ _ _ _ _ O0 O2)) as Hnew.
  inversion Hop as [| | w1' tr' newname wb x' Hx' Hnm Hwb Hin Hcr Hfs
                      | w1' tr' Hno Hnr Hcr Hfs]; subst.
  - rewrite setFile_filename, Hname in *. rewrite Hf0 in *.
    assert (x' = x) as -> by congruence.
    exists (fst (backupName g wb name (LocalTime (cfg l)))), wb.
    set (newname := fst (backupName g wb name (LocalTime (cfg l)))) in *.
    split; [destruct O0; congruence|]. split; [done|].
    split; [rewrite Hnew; set_solver|].
    rewrite Hfs. unfold movedAside.
    split; [by rewrite lookup_insert_eq|].
    split; [intros Hk; rewrite lookup_insert_ne by done;
            by rewrite lookup_insert_eq|].
    split.
    { intros k Hk1 Hk2. rewrite lookup_insert_ne by done.
      rewrite lookup_insert_ne by done. by rewrite lookup_delete_ne. }
    destruct Hl as [-> | ->]; done.
  - rewrite setFile_filename, Hname in *. rewrite Hf0 in *.
    destruct Hno as [Hno | (n & Hn)]; [congruence|].
    rewrite (ops_fate _ _ _ O0) in Hn. by rewrite Hstat in Hn.
Qed.

(** X5.  A [rotate] that returns an error leaves the logger without a
    handle and with its counter, and does not lose the log: its bytes
    are still at the path of the log, or under the name the log was
    renamed to before the failure. *)
Theorem rotate_failure_keeps_log (l : Logger) (g : Globals) (w : World)
    (e : error) (l1 : Logger) (w1 : World) :
  let name := filename w l in
  rotate l g w = (Some e, l1, w1) ->
  file l1 = None /\ size l1 = size l
  /\ forall x, w_files w !! key name = Some x ->
       w_files w1 !! key name = Some x
       \/ exists newname, OpRename name newname ∈ newOps w w1
                          /\ w_files w1 !! key newname = Some x.
Proof.
  intros name H.
  apply rotate_Opened in H as [(err & He & Hf & Hh & Hs & _) | (w0 & tr0 & tr & l2 & O0 & Hf0 & O2 & Hn0 & Hop & Hl)].
  { repeat split; try done. intros x Hx. left. by rewrite Hf. }
  pose proof (ops_filename _ _ _ l O0) as Hname. fold name in Hname.
  pose proof (ops_newOps _ _ _ (ops_app _ _ _ _ _ O0 O2)) as Hnew.
  inversion Hop as [e' w1' tr' Hfs | e' w1' tr' newname wb x' Hx' Hnm Hwb Hin Hfs
                    | | ]; subst.
  - split; [by destruct Hl as [-> | ->]|].
    split; [by destruct Hl as [-> | ->]|].
    intros x Hx. left. by rewrite Hfs, Hf0.
  - rewrite setFile_filename, Hname in *. rewrite Hf0 in *.
    split; [by destruct Hl as [-> | ->]|].
    split; [by destruct Hl as [-> | ->]|].
    intros x Hx.
    assert (x' = x) as -> by congruence.
    right. exists (fst (backupName g wb name (LocalTime (cfg l)))).
    split; [rewrite Hnew; set_solver|].
    rewrite Hfs. unfold movedAside. by rewrite lookup_insert_eq.
Qed.

(** X6.  A successful [rotate] when there is no log at the path: the
    log is created empty with mode 0600, nothing is renamed, and no
    other file changes. *)
Theorem rotate_creates_missing_log (l : Logger) (g : Globals) (w : World)
    (l1 : Logger) (w1 : World) :
  let name := filename w l in
  w_files w !! key name = None ->
  rotate l g w = (None, l1, w1) ->
  w_files w1 = <[key name := mkFile [] 384]> (w_files w)
  /\ (forall a b, OpRename a b ∉ newOps w w1)
  /\ file l1 = Some (key name) /\ size l1 = 0.
Proof.
  intros name Hx H.
  apply rotate_Opened in H as [(err & He & _) | (w0 & tr0 & tr & l2 & O0 & Hf0 & O2 & Hn0 & Hop & Hl)];
    [discriminate|].
  pose proof (ops_filename _ _ _ l O0) as Hname. fold name in Hname.
  pose proof (ops_newOps _ _ _ (ops_app _ _ _ _ _ O0 O2)) as Hnew.
  inversion Hop as [| | w1' tr' newname wb x' Hx' Hnm Hwb Hin Hcr Hfs
                      | w1' tr' Hno Hnr Hcr Hfs]; subst.
  - rewrite setFile_filename, Hname in *. rewrite Hf0 in *. congruence.
  - rewrite setFile_filename, Hname in *. rewrite Hf0 in *.
    rewrite Hx in Hfs.
    split; [done|]. split.
    { intros a b Hin. rewrite Hnew in Hin. apply elem_of_app in Hin as [Hin|Hin].
      - by apply (Hn0 a b). - by apply (Hnr a b). }
    destruct Hl as [-> | ->]; done.
Qed.

(** X7.  A successful [rotate] that renamed nothing, which happens to
    a log that is there when [Stat] fails: the log is emptied in place,
    no other file changes, so the bytes it held are on disk no more. *)
Theorem rotate_without_rename_truncates (l : Logger) (g : Globals) (w : World)
    (l1 : Logger) (w1 : World) (x : File) :
  let name := filename w l in
  w_files w !! key name = Some x ->
  (forall a b, OpRename a b ∉ newOps w w1) ->
  rotate l g w = (None, l1, w1) ->
  w_files w1 = <[key name := mkFile [] (f_mode x)]> (w_files w)
  /\ exists n, w_fate w n (OpStat name) <> Succeeds.
Proof.
  intros name Hx Hnr H.
  apply rotate_Opened in H as [(err & He & _) | (w0 & tr0 & tr & l2 & O0 & Hf0 & O2 & Hn0 & Hop & Hl)];
    [discriminate|].
  pose proof (ops_filename _ _ _ l O0) as Hname. fold name in Hname.
  pose proof (ops_newOps _ _ _ (ops_app _ _ _ _ _ O0 O2)) as Hnew.
  inversion Hop as [| | w1' tr' newname wb x' Hx' Hnm Hwb Hin Hcr Hfs
                      | w1' tr' Hno Hnr' Hcr Hfs]; subst.
  - exfalso. rewrite setFile_filename, Hname in *.
    apply (Hnr name (fst (backupName g wb name (LocalTime (cfg l))))).
    rewrite Hnew. set_solver.
  - rewrite setFile_filename, Hname in *. rewrite Hf0 in *.
    rewrite Hx in Hfs. split; [done|].
    destruct Hno as [Hno | (n & Hn)]; [congruence|].
    exists n. by rewrite <- (ops_fate _ _ _ O0).
Qed.

(** After a successful [rotate] the handle is open on an empty file. *)
Lemma rotate_holds l g w l1 w1 :
  rotate l g w = (None, l1, w1) -> holds w1 l1 [].
Proof.
  intros H.
  apply rotate_Opened in H as [(err & He & _) | (w0 & tr0 & tr & l2 & O0 & Hf0 & O2 & Hn0 & Hop & Hl)];
    [discriminate|].
  inversion Hop as [| | w1' tr' newname wb x' Hx' Hnm Hwb Hin Hcr Hfs
                      | w1' tr' Hno Hnr' Hcr Hfs]; subst;
    (eexists _, _; split; [destruct Hl as [-> | ->]; reflexivity|];
     split; [rewrite Hfs; apply lookup_insert_eq|];
     split; [done|]; destruct Hl as [-> | ->]; done).
Qed.

Lemma rotate_error_nil l g w e l1 w1 :
  rotate l g w = (Some e, l1, w1) -> file l1 = None.
Proof.
  intros H.
  apply rotate_Opened in H as [(err & He & Hf & Hh & _) | (w0 & tr0 & tr & l2 & O0 & Hf0 & O2 & Hn0 & Hop & Hl)];
    [done|].
  inversion Hop; subst; destruct Hl as [-> | ->]; done.
Qed.

(** ** What [Write] leaves in the log *)

Lemma holds_inSync w l d : holds w l d -> inSync l w.
Proof.
  intros (h & x & Hh & Hx & _ & Hs). unfold inSync. rewrite Hh. by exists x.
Qed.

Lemma holds_files w w1 l l1 d :
  w_files w1 = w_files w -> file l1 = file l -> size l1 = size l ->
  holds w l d -> holds w1 l1 d.
Proof.
  intros Hf Hh Hs (h & x & Hh' & Hx & Hd & Hs').
  exists h, x. rewrite Hf, Hh, Hs. done.
Qed.

Lemma short_fits (d d' p : list Byte.byte) :
  (length d' <= length d)%nat ->
  inInt64 (Z.of_nat (length d) + Z.of_nat (length p)) ->
  inInt64 (Z.of_nat (length d') + Z.of_nat (length p)).
Proof. unfold inInt64. lia. Qed.

Lemma writeOut_holds l g w p d :
  holds w l d ->
  inInt64 (Z.of_nat (length d) + Z.of_nat (length p)) ->
  let r := writeOut l g w p in
  inSync (wr_logger r) (wr_world r)
  /\ grows false w (wr_world r)
  /\ (wr_err r = None -> holds (wr_world r) (wr_logger r) (d ++ p)).
Proof.
  intros (h & x & Hh & Hx & Hd & Hs) Hfit. unfold writeOut. rewrite Hh.
  destruct (FileWrite w h p) as [[n e] w1] eqn:E.
  apply FileWrite_spec in E as (He & Ht & Hn & Hok & Hf).
  rewrite Hx in Hf. cbn [wr_logger wr_world wr_err].
  assert (size (setSize l (wrap64 (size l + n)))
          = sizeOf (mkFile (f_data x ++ firstn (Z.to_nat n) p) (f_mode x))) as Hsz.
  { cbn [size setSize]. unfold sizeOf in *. cbn [f_data].
    rewrite length_app, length_firstn. rewrite Hs.
    rewrite wrap64_small; [lia|]. subst d. unfold inInt64 in *. lia. }
  split; [|split].
  - unfold inSync. cbn [file setSize]. rewrite Hh.
    eexists. split; [rewrite Hf; apply lookup_insert_eq | exact Hsz].
  - by eapply grows_one.
  - intros ->. specialize (Hok eq_refl). exists h. eexists.
    split; [done|]. split; [rewrite Hf; apply lookup_insert_eq|].
    split; [|exact Hsz]. cbn [f_data]. rewrite Hd. f_equal.
    rewrite Hok, Nat2Z.id. apply firstn_all.
Qed.

Lemma writeSized_holds l g w p d :
  holds w l d ->
  inInt64 (Z.of_nat (length d) + Z.of_nat (length p)) ->
  let r := writeSized l g w p in
  inSync (wr_logger r) (wr_world r)
  /\ (wr_err r = None ->
      exists b, grows b w (wr_world r)
                /\ holds (wr_world r) (wr_logger r) ((if b then [] else d) ++ p)).
Proof.
  intros Hh Hfit. unfold writeSized.
  destruct (Lumberjack.max g l <? wrap64 (size l + Z.of_nat (length p))).
  - destruct (rotate l g w) as [[e l1] w1] eqn:E1.
    destruct e as [e|].
    + apply rotate_error_nil in E1. cbn [wr_logger wr_world wr_err].
      split; [|discriminate]. unfold inSync. by rewrite E1.
    + pose proof (rotate_holds _ _ _ _ _ E1) as Hh1.
      apply rotate_spec in E1 as (_ & b & G & Hok).
      destruct (Hok eq_refl) as (-> & _).
      assert (inInt64 (Z.of_nat (length (@nil Byte.byte)) + Z.of_nat (length p)))
        as Hfit1 by (eapply short_fits; [|exact Hfit]; simpl; lia).
      destruct (writeOut_holds l1 g w1 p [] Hh1 Hfit1) as (Hs & G2 & Hw).
      split; [done|]. intros He. exists true. split; [|by apply Hw].
      change true with (true || false). by eapply grows_trans.
  - destruct (writeOut_holds l g w p d Hh Hfit) as (Hs & G2 & Hw).
    split; [done|]. intros He. exists false. split; [done | by apply Hw].
Qed.

Lemma writeDaily_holds l g w p d :
  holds w l d ->
  inInt64 (Z.of_nat (length d) + Z.of_nat (length p)) ->
  let r := writeDaily l g w p in
  inSync (wr_logger r) (wr_world r)
  /\ (wr_err r = None ->
      exists b, grows b w (wr_world r)
                /\ holds (wr_world r) (wr_logger r) ((if b then [] else d) ++ p)).
Proof.
  intros Hh Hfit. unfold writeDaily.
  destruct (0 <? LogSplitDay (cfg l)); [|by apply writeSized_holds].
  destruct (isNextDay (LocalTime (cfg l)) g w) as [[next g1] w1] eqn:E1.
  assert (w_files w1 = w_files w) as Hf1.
  { unfold isNextDay, updateCurrentTimestamp, currentTime in E1.
    destruct (Now w) as [t w'] eqn:E. apply Now_spec in E as (_ & Hf & _).
    by inversion E1; subst. }
  apply isNextDay_spec in E1 as (_ & G1).
  assert (holds w1 l d) as Hh1 by (by eapply holds_files).
  assert (forall l2 g2, file l2 = file l -> size l2 = size l ->
            let r := writeSized l2 g2 w1 p in
            inSync (wr_logger r) (wr_world r)
            /\ (wr_err r = None ->
                exists b, grows b w (wr_world r)
                  /\ holds (wr_world r) (wr_logger r) ((if b then [] else d) ++ p)))
    as Hrest.
  { intros l2 g2 Hfl Hsz.
    assert (holds w1 l2 d) as Hh2 by (by eapply holds_files).
    destruct (writeSized_holds l2 g2 w1 p d Hh2 Hfit) as (Hs & Hw).
    split; [done|]. intros He. destruct (Hw He) as (b & G & Hd).
    exists b. split; [|done]. change b with (false || b). by eapply grows_trans. }
  destruct next; [|by apply Hrest].
  set (g2 := updateYesterdayTime _ _ _).
  set (l2 := setSplitDayCount l _).
  destruct (LogSplitDay (cfg l2) <=? splitDayCount l2); [|by apply Hrest].
  destruct (rotate (setSplitDayCount l2 0) (setIsSplitDay g2 true) w1)
    as [[e l3] w3] eqn:E3.
  destruct e as [e|].
  - apply rotate_error_nil in E3. cbn [wr_logger wr_world wr_err].
    split; [|discriminate]. unfold inSync. by rewrite E3.
  - pose proof (rotate_holds _ _ _ _ _ E3) as Hh3.
    apply rotate_spec in E3 as (_ & b & G3 & Hok).
    destruct (Hok eq_refl) as (-> & _).
    assert (inInt64 (Z.of_nat (length (@nil Byte.byte)) + Z.of_nat (length p)))
      as Hfit3 by (eapply short_fits; [|exact Hfit]; simpl; lia).
    destruct (writeSized_holds l3 (setIsSplitDay (setIsSplitDay g2 true) false)
                w3 p [] Hh3 Hfit3) as (Hs & Hw).
    split; [done|]. intros He. destruct (Hw He) as (b & G & Hd).
    exists true. split.
    + replace true with (false || (true || b)) by done.
      eapply grows_trans; [exact G1|]. by eapply grows_trans.
    + by destruct b.
Qed.

Lemma Opened_holds l g w l1 w1 tr :
  Opened l g w None l1 w1 tr -> holds w1 l1 [] /\ existsb isCreate tr = true.
Proof.
  intros Hop.
  inversion Hop as [| | w1' tr' newname wb x' Hx' Hnm Hwb Hin Hcr Hfs
                      | w1' tr' Hno Hnr' Hcr Hfs]; subst;
    (split; [|done]; eexists _, _; split; [reflexivity|];
     split; [rewrite Hfs; apply lookup_insert_eq | done]).
Qed.

Lemma Opened_error l g w e l1 w1 tr :
  Opened l g w (Some e) l1 w1 tr -> l1 = l.
Proof. intros Hop. by inversion Hop. Qed.

Lemma openNew_holds l g w e l1 w1 :
  openNew l g w = (e, l1, w1) ->
  match e with
  | None => grows true w w1 /\ holds w1 l1 []
  | Some _ => l1 = l
  end.
Proof.
  intros H. apply openNew_Opened in H as (tr & O & Hop).
  destruct e as [e|]; [by eapply Opened_error|].
  apply Opened_holds in Hop as (Hh & Hcr). split; [|done].
  rewrite <- Hcr. by apply ops_grows.
Qed.

(** [openExistingOrNew] on a logger without a handle. *)
Lemma openExistingOrNew_holds l g w n e l1 w1 :
  file l = None ->
  openExistingOrNew l g w n = (e, l1, w1) ->
  match e with
  | None => exists b, grows b w w1
                      /\ holds w1 l1 (if b then [] else logData l w)
  | Some _ => file l1 = None
  end.
Proof.
  intros Hnil. unfold openExistingOrNew.
  change (filename w (mill l)) with (filename w l).
  assert (forall w0, grows false w w0 -> openNew (mill l) g w0 = (e, l1, w1) ->
            match e with
            | None => exists b, grows b w w1
                                /\ holds w1 l1 (if b then [] else logData l w)
            | Some _ => file l1 = None
            end) as Hnew.
  { intros w0 G0 H. apply openNew_holds in H. destruct e as [e|].
    - by subst l1.
    - destruct H as (G & Hh). exists true. split; [|done].
      change true with (false || true). by eapply grows_trans. }
  destruct (Stat w (filename w l)) as [st w0] eqn:E0.
  apply Stat_spec in E0 as (He0 & Hf0 & Ht0 & Hst).
  assert (grows false w w0) as G0 by (by eapply grows_one).
  destruct st as [info|est].
  - destruct Hst as (x & Hx & Hsz & _).
    destruct (Lumberjack.max g (mill l) <=? wrap64 (fi_size info + n)).
    + intros H. destruct e as [e|].
      * by apply rotate_error_nil in H.
      * pose proof (rotate_holds _ _ _ _ _ H) as Hh.
        apply rotate_spec in H as (_ & b & G & Hok).
        destruct (Hok eq_refl) as (-> & _).
        exists true. split; [|done].
        change true with (false || true). by eapply grows_trans.
    + destruct (OpenAppend w0 (filename w l)) as [r w2] eqn:E2.
      apply OpenAppend_spec in E2 as (He2 & Hf2 & Ht2 & Hr).
      assert (grows false w w2) as G2.
      { change false with (false || false). eapply grows_trans; [exact G0|].
        by eapply grows_one. }
      destruct r as [f|e2].
      * destruct Hr as (-> & _).
        intros H; inversion H; subst; clear H.
        exists false. split; [done|].
        exists (key (filename w l)), x.
        split; [done|]. split; [by rewrite Hf2, Hf0|].
        split; [|done].
        unfold logData, dataAt. by rewrite Hnil, Hx.
      * apply (Hnew w2 G2).
  - destruct (IsNotExist est).
    + apply (Hnew w0 G0).
    + intros H; inversion H; subst; clear H. done.
Qed.

Lemma logData_length l w :
  inSync l w -> Z.of_nat (length (logData l w)) = preSize l w.
Proof.
  unfold inSync, logData, preSize, dataAt.
  destruct (file l) as [h|].
  - intros (x & -> & ->). done.
  - intros _. by destruct (w_files w !! key (filename w l)).
Qed.

(** The two results below, together. *)
Lemma Write_holds l g w p :
  inSync l w ->
  inInt64 (preSize l w + Z.of_nat (length p)) ->
  let r := Write l g w p in
  inSync (wr_logger r) (wr_world r)
  /\ (wr_err r = None ->
      holds (wr_world r) (wr_logger r)
            ((if rotated w (wr_world r) then [] else logData l w) ++ p)).
Proof.
  intros Hs Hfit. rewrite <- (logData_length l w Hs) in Hfit.
  unfold Write.
  destruct (Lumberjack.max g l <? Z.of_nat (length p)).
  { cbn [wr_logger wr_world wr_err]. split; [done | discriminate]. }
  destruct (file l) as [h|] eqn:Eh.
  - assert (holds w l (logData l w)) as Hh.
    { unfold inSync in Hs. rewrite Eh in Hs. destruct Hs as (x & Hx & Hsz).
      exists h, x. repeat split; try done.
      unfold logData, dataAt. by rewrite Eh, Hx. }
    destruct (writeDaily_holds l g w p _ Hh Hfit) as (Hs' & Hw).
    split; [done|]. intros He. destruct (Hw He) as (b & G & Hd).
    by rewrite (grows_rotated _ _ _ G).
  - destruct (openExistingOrNew l g w (Z.of_nat (length p))) as [[e l1] w1] eqn:E1.
    apply openExistingOrNew_holds in E1; [|done].
    destruct e as [e|].
    { cbn [wr_logger wr_world wr_err]. split; [|discriminate].
      unfold inSync. by rewrite E1. }
    destruct E1 as (b1 & G1 & Hh1).
    assert (inInt64 (Z.of_nat (length (if b1 then [] else logData l w))
                     + Z.of_nat (length p))) as Hfit1.
    { eapply short_fits; [|exact Hfit]. destruct b1; simpl; lia. }
    destruct (writeDaily_holds l1 g w1 p _ Hh1 Hfit1) as (Hs' & Hw).
    split; [done|]. intros He. destruct (Hw He) as (b & G & Hd).
    rewrite (grows_rotated _ _ _ (grows_trans _ _ _ _ _ G1 G)).
    by destruct b1, b.
Qed.

Lemma writeOut_wrote l g w p d :
  holds w l d ->
  inInt64 (Z.of_nat (length d) + Z.of_nat (length p)) ->
  let r := writeOut l g w p in
  0 <= wr_n r <= Z.of_nat (length p) /\ wrote w d p r false.
Proof.
  intros (h & x & Hh & Hx & Hd & Hs) Hfit. unfold writeOut, wrote. rewrite Hh.
  unfold FileWrite, step. rewrite Hx.
  set (fate := w_fate w (length (w_trace w)) (OpWrite h)).
  set (n := match fate with Succeeds => length p | Fails k => Nat.min k (length p) end).
  cbn [wr_n wr_err wr_logger wr_world].
  assert (n <= length p)%nat as Hn by (subst n; destruct fate; lia).
  split; [lia|]. exists h. split; [done|]. rewrite Nat2Z.id.
  split.
  { exists h. eexists. split; [done|]. split; [apply lookup_insert_eq|].
    cbn [f_data size setSize]. split; [by rewrite Hd|].
    unfold sizeOf in *. cbn [f_data]. rewrite length_app, length_firstn, Hs.
    rewrite wrap64_small; [lia|]. subst d. unfold inInt64 in *. lia. }
  split.
  { split; [done|]. exists [OpWrite h]. done. }
  subst n. destruct fate as [|k]; [left | right]; done.
Qed.

Lemma wrote_after w w1 d p r b1 b2 :
  grows b1 w w1 -> wrote w1 (if b1 then [] else d) p r b2 ->
  wrote w d p r (b1 || b2).
Proof.
  intros G (h & Hh & Hd & G2 & He). exists h. split; [done|].
  split; [by destruct b1, b2|]. split; [by eapply grows_trans | done].
Qed.

Lemma writeSized_wrote l g w p d :
  holds w l d ->
  inInt64 (Z.of_nat (length d) + Z.of_nat (length p)) ->
  let r := writeSized l g w p in
  0 <= wr_n r <= Z.of_nat (length p)
  /\ ((exists b, wrote w d p r b) \/ gaveUp r).
Proof.
  intros Hh Hfit. unfold writeSized.
  destruct (Lumberjack.max g l <? wrap64 (size l + Z.of_nat (length p))).
  - destruct (rotate l g w) as [[e l1] w1] eqn:E1.
    destruct e as [e|].
    + cbn [wr_n]. split; [lia|]. right. split; [done | by eexists].
    + pose proof (rotate_holds _ _ _ _ _ E1) as Hh1.
      apply rotate_spec in E1 as (_ & b & G & Hok).
      destruct (Hok eq_refl) as (-> & _).
      assert (inInt64 (Z.of_nat (length (@nil Byte.byte)) + Z.of_nat (length p)))
        as Hfit1 by (eapply short_fits; [|exact Hfit]; simpl; lia).
      destruct (writeOut_wrote l1 g w1 p [] Hh1 Hfit1) as (Hn & Hw).
      split; [done|]. left. exists (true || false).
      by apply (wrote_after w w1 d p _ true false).
  - destruct (writeOut_wrote l g w p d Hh Hfit) as (Hn & Hw).
    split; [done|]. left. by exists false.
Qed.

Lemma writeDaily_wrote l g w p d :
  holds w l d ->
  inInt64 (Z.of_nat (length d) + Z.of_nat (length p)) ->
  let r := writeDaily l g w p in
  0 <= wr_n r <= Z.of_nat (length p)
  /\ ((exists b, wrote w d p r b) \/ gaveUp r).
Proof.
  intros Hh Hfit. unfold writeDaily.
  destruct (0 <? LogSplitDay (cfg l)); [|by apply writeSized_wrote].
  destruct (isNextDay (LocalTime (cfg l)) g w) as [[next g1] w1] eqn:E1.
  assert (w_files w1 = w_files w) as Hf1.
  { unfold isNextDay, updateCurrentTimestamp, currentTime in E1.
    destruct (Now w) as [t w'] eqn:E. apply Now_spec in E as (_ & Hf & _).
    by inversion E1; subst. }
  apply isNextDay_spec in E1 as (_ & G1).
  assert (forall l2 g2, file l2 = file l -> size l2 = size l ->
            let r := writeSized l2 g2 w1 p in
            0 <= wr_n r <= Z.of_nat (length p)
            /\ ((exists b, wrote w d p r b) \/ gaveUp r)) as Hrest.
  { intros l2 g2 Hfl Hsz.
    assert (holds w1 l2 d) as Hh2 by (by eapply holds_files).
    destruct (writeSized_wrote l2 g2 w1 p d Hh2 Hfit) as (Hn & Hw).
    split; [done|]. destruct Hw as [[b Hw]|Hw]; [left | by right].
    exists (false || b). by apply (wrote_after w w1 d p _ false b). }
  destruct next; [|by apply Hrest].
  set (g2 := updateYesterdayTime _ _ _).
  set (l2 := setSplitDayCount l _).
  destruct (LogSplitDay (cfg l2) <=? splitDayCount l2); [|by apply Hrest].
  destruct (rotate (setSplitDayCount l2 0) (setIsSplitDay g2 true) w1)
    as [[e l3] w3] eqn:E3.
  destruct e as [e|].
  - cbn [wr_n]. split; [lia|]. right. split; [done | by eexists].
  - pose proof (rotate_holds _ _ _ _ _ E3) as Hh3.
    apply rotate_spec in E3 as (_ & b & G3 & Hok).
    destruct (Hok eq_refl) as (-> & _).
    assert (inInt64 (Z.of_nat (length (@nil Byte.byte)) + Z.of_nat (length p)))
      as Hfit3 by (eapply short_fits; [|exact Hfit]; simpl; lia).
    destruct (writeSized_wrote l3 (setIsSplitDay (setIsSplitDay g2 true) false)
                w3 p [] Hh3 Hfit3) as (Hn & Hw).
    split; [done|]. destruct Hw as [[b Hw]|Hw]; [left | by right].
    exists (false || (true || b)).
    apply (wrote_after w w1 d p _ false (true || b)); [done|].
    by apply (wrote_after w1 w3 d p _ true b).
Qed.

Lemma Write_wrote l g w p :
  inSync l w ->
  inInt64 (preSize l w + Z.of_nat (length p)) ->
  let r := Write l g w p in
  0 <= wr_n r <= Z.of_nat (length p)
  /\ ((exists b, wrote w (logData l w) p r b) \/ gaveUp r).
Proof.
  intros Hs Hfit. rewrite <- (logData_length l w Hs) in Hfit.
  unfold Write.
  destruct (Lumberjack.max g l <? Z.of_nat (length p)).
  { cbn [wr_n]. split; [lia|]. right. split; [done | by eexists]. }
  destruct (file l) as [h|] eqn:Eh.
  - assert (holds w l (logData l w)) as Hh.
    { unfold inSync in Hs. rewrite Eh in Hs. destruct Hs as (x & Hx & Hsz).
      exists h, x. repeat split; try done.
      unfold logData, dataAt. by rewrite Eh, Hx. }
    by apply writeDaily_wrote.
  - destruct (openExistingOrNew l g w (Z.of_nat (length p))) as [[e l1] w1] eqn:E1.
    apply openExistingOrNew_holds in E1; [|done].
    destruct e as [e|].
    { cbn [wr_n]. split; [lia|]. right. split; [done | by eexists]. }
    destruct E1 as (b1 & G1 & Hh1).
    assert (inInt64 (Z.of_nat (length (if b1 then [] else logData l w))
                     + Z.of_nat (length p))) as Hfit1.
    { eapply short_fits; [|exact Hfit]. destruct b1; simpl; lia. }
    destruct (writeDaily_wrote l1 g w1 p _ Hh1 Hfit1) as (Hn & Hw).
    split; [done|]. destruct Hw as [[b Hw]|Hw]; [left | by right].
    exists (b1 || b). by apply (wrote_after w w1 _ p _ b1 b).
Qed.

(** C5.  [Write] and the bytes it writes (the sum of the size before the
    call and the length of the payload being within 64 bits).  When the
    call returns nil, the count returned is the length of the payload,
    the counter is within the threshold, and the counter is the size
    before the write (0 if a file was made anew during the call) plus
    the count returned.  For a logger whose counter is the size of the
    file behind its handle, the count is what reached the file: the
    count returned is between 0 and the length of the payload, the
    counter is again the size of the file behind the handle, and when
    the call returns nil, or a count above 0, the file behind the handle
    holds what the log held before the call (nothing if the file was
    made anew), followed by the first bytes of the payload, as many as
    the count returned; the counter is the size before the write plus
    that count; and the error, if there is one, is the error of the
    write itself, not wrapped. *)
Theorem Write_size_accounting (l : Logger) (g : Globals) (w : World)
    (p : list Byte.byte) :
  inInt64 (preSize l w + Z.of_nat (length p)) ->
  let r := Write l g w p in
  let before := if rotated w (wr_world r) then [] else logData l w in
  let start := if rotated w (wr_world r) then 0 else preSize l w in
  (wr_err r = None ->
   wr_n r = Z.of_nat (length p)
   /\ size (wr_logger r) <= Lumberjack.max g l
   /\ Lumberjack.max (wr_globals r) (wr_logger r) = Lumberjack.max g l
   /\ size (wr_logger r) = start + wr_n r)
  /\ (inSync l w ->
      0 <= wr_n r <= Z.of_nat (length p)
      /\ inSync (wr_logger r) (wr_world r)
      /\ (wr_err r = None \/ 0 < wr_n r ->
          exists h x,
            file (wr_logger r) = Some h
            /\ w_files (wr_world r) !! h = Some x
            /\ f_data x = before ++ firstn (Z.to_nat (wr_n r)) p
            /\ size (wr_logger r) = sizeOf x
            /\ size (wr_logger r) = start + wr_n r
            /\ (wr_err r = None \/ wr_err r = Some (EOs EIO (OpWrite h))))).
Proof.
  intros Hfit r before start. split.
  - intros He.
    destruct (Write_counter l g w p Hfit He) as (H1 & H2 & H3 & H4).
    done.
  - intros Hs.
    destruct (Write_wrote l g w p Hs Hfit) as (Hn & Hw). fold r in Hn, Hw.
    destruct (Write_holds l g w p Hs Hfit) as (Hs' & _). fold r in Hs'.
    split; [done|]. split; [done|].
    intros Hreached.
    destruct Hw as [(b & h & Hh & Hd & G & He) | (Hz & [e He])];
      [|destruct Hreached; [congruence | lia]].
    pose proof (grows_rotated _ _ _ G) as Hb. fold r in Hb.
    destruct Hd as (h' & x & Hh' & Hx & Hdata & Hsz).
    assert (h' = h) as -> by congruence.
    exists h, x. subst before start. rewrite Hb.
    split; [done|]. split; [done|]. split; [done|]. split; [done|].
    split; [|destruct He as [[? _]|?]; [by left | by right]].
    rewrite Hsz. unfold sizeOf. rewrite Hdata, length_app, length_firstn.
    rewrite <- (logData_length l w Hs).
    destruct b; simpl length; lia.
Qed.

(** X8.  [Write] keeps the counter true: if the counter of the open
    handle is the size of its file before the call, it is so after the
    call, whatever the call returns. *)
Theorem Write_keeps_size_in_sync (l : Logger) (g : Globals) (w : World)
    (p : list Byte.byte) :
  inSync l w ->
  inInt64 (preSize l w + Z.of_nat (length p)) ->
  inSync (wr_logger (Write l g w p)) (wr_world (Write l g w p)).
Proof. intros Hs Hfit. by apply Write_holds. Qed.

(** X9.  A [Write] that returns a nil error has put the whole payload
    at the end of the log: the file behind the handle holds what the
    log held before the call, or nothing if the call rotated, followed
    by the payload. *)
Theorem Write_appends_payload (l : Logger) (g : Globals) (w : World)
    (p : list Byte.byte) :
  inSync l w ->
  inInt64 (preSize l w + Z.of_nat (length p)) ->
  wr_err (Write l g w p) = None ->
  let r := Write l g w p in
  exists h x, file (wr_logger r) = Some h
    /\ w_files (wr_world r) !! h = Some x
    /\ f_data x = (if rotated w (wr_world r) then [] else logData l w) ++ p.
Proof.
  intros Hs Hfit He r.
  destruct (Write_holds l g w p Hs Hfit) as (_ & Hw).
  destruct (Hw He) as (h & x & Hh & Hx & Hd & _). by exists h, x.
Qed.

(** ** When [Write] rotates *)

Lemma max_inInt64 g l : inInt64 (Lumberjack.max g l).
Proof. unfold Lumberjack.max. destruct (_ =? 0); apply wrap64_range. Qed.

Lemma writeOut_grows l g w p : grows false w (wr_world (writeOut l g w p)).
Proof.
  unfold writeOut. destruct (file l) as [h|]; [|apply grows_refl].
  destruct (FileWrite w h p) as [[n e] w1] eqn:E.
  apply FileWrite_spec in E as (He & Ht & _). by eapply grows_one.
Qed.

(** The size check of [Write] on its own: a successful call rotates
    exactly when the counter plus the payload is over the threshold. *)
Lemma writeSized_rotates l g w p :
  inInt64 (size l + Z.of_nat (length p)) ->
  wr_err (writeSized l g w p) = None ->
  grows (Lumberjack.max g l <? size l + Z.of_nat (length p)) w
        (wr_world (writeSized l g w p)).
Proof.
  intros Hfit. unfold writeSized. rewrite (wrap64_small _ Hfit).
  destruct (Lumberjack.max g l <? size l + Z.of_nat (length p)).
  - destruct (rotate l g w) as [[e l1] w1] eqn:E1.
    apply rotate_spec in E1 as (_ & b & G & Hok).
    destruct e as [e|]; [discriminate|].
    destruct (Hok eq_refl) as (-> & _). intros _.
    change true with (true || false). eapply grows_trans; [exact G|].
    apply writeOut_grows.
  - intros _. apply writeOut_grows.
Qed.

(** X10.  Through an open handle, without day splitting, a successful
    [Write] rotates exactly when the counter plus the length of the
    payload is greater than the threshold: a write that lands on the
    threshold is appended. *)
Theorem open_write_rotates_over_threshold (l : Logger) (g : Globals) (w : World)
    (p : list Byte.byte) :
  is_Some (file l) ->
  LogSplitDay (cfg l) <= 0 ->
  inInt64 (size l + Z.of_nat (length p)) ->
  wr_err (Write l g w p) = None ->
  rotated w (wr_world (Write l g w p))
  = (Lumberjack.max g l <? size l + Z.of_nat (length p)).
Proof.
  intros [h Hh] Hday Hfit. unfold Write.
  destruct (Lumberjack.max g l <? Z.of_nat (length p)); [discriminate|].
  rewrite Hh. unfold writeDaily.
  assert ((0 <? LogSplitDay (cfg l)) = false) as -> by lia.
  intros He. apply grows_rotated. by apply writeSized_rotates.
Qed.

Lemma Stat_found w p x :
  w_fate w (length (w_trace w)) (OpStat p) = Succeeds ->
  w_files w !! key p = Some x ->
  Stat w p = (inl (mkInfo (Base p) (sizeOf x) (f_mode x)), logOp w (OpStat p)).
Proof. intros Hf Hx. unfold Stat, step. by rewrite Hf, Hx. Qed.

Lemma OpenAppend_found w p x :
  w_fate w (length (w_trace w)) (OpAppend p) = Succeeds ->
  w_files w !! key p = Some x ->
  OpenAppend w p = (inl (key p), logOp w (OpAppend p)).
Proof. intros Hf Hx. unfold OpenAppend, step. by rewrite Hf, Hx. Qed.

(** X11.  A logger without a handle that finds its log, without day
    splitting and when [Stat] and the opening for append do not fail: a
    successful [Write] rotates exactly when the size of the log plus the
    length of the payload is greater than or equal to the threshold.
    The first write of a logger rotates one byte earlier than the
    later ones. *)
Theorem first_write_rotates_from_threshold (l : Logger) (g : Globals) (w : World)
    (p : list Byte.byte) (x : File) :
  let name := filename w l in
  file l = None ->
  w_files w !! key name = Some x ->
  (forall n, w_fate w n (OpStat name) = Succeeds) ->
  (forall n, w_fate w n (OpAppend name) = Succeeds) ->
  LogSplitDay (cfg l) <= 0 ->
  inInt64 (sizeOf x + Z.of_nat (length p)) ->
  wr_err (Write l g w p) = None ->
  rotated w (wr_world (Write l g w p))
  = (Lumberjack.max g l <=? sizeOf x + Z.of_nat (length p)).
Proof.
  intros name Hnil Hx Hstat Happ Hday Hfit. unfold Write.
  destruct (Lumberjack.max g l <? Z.of_nat (length p)) eqn:Elen; [discriminate|].
  rewrite Hnil. unfold openExistingOrNew.
  change (filename w (mill l)) with name.
  change (Lumberjack.max g (mill l)) with (Lumberjack.max g l).
  rewrite (Stat_found w name x (Hstat _) Hx). cbn [fi_size].
  rewrite (wrap64_small _ Hfit).
  set (w0 := logOp w (OpStat name)).
  assert (grows false w w0) as G0 by (by eapply grows_one).
  destruct (Lumberjack.max g l <=? sizeOf x + Z.of_nat (length p)) eqn:Ec.
  - destruct (rotate (mill l) g w0) as [[e l1] w1] eqn:E1.
    apply rotate_spec in E1 as (Hc & b & G & Hok).
    destruct e as [e|]; [discriminate|].
    destruct (Hok eq_refl) as (-> & Hs1 & _).
    intros He.
    assert (Lumberjack.max g l1 = Lumberjack.max g l) as Hmax
      by (by apply (max_same g g (mill l) l1)).
    apply writeDaily_spec in He as (b & (_ & _ & G' & _) & _); [|lia].
    apply grows_rotated. replace true with (false || (true || b)) by done.
    eapply grows_trans; [exact G0|]. by eapply grows_trans.
  - assert (w_fate w0 = w_fate w) as Hfate by done.
    rewrite (OpenAppend_found w0 name x); [|by rewrite Hfate|done].
    set (w2 := logOp w0 (OpAppend name)).
    set (l2 := setSize (setFile (mill l) (Some (key name))) (sizeOf x)).
    assert (grows false w w2) as G2.
    { change false with (false || false). eapply grows_trans; [exact G0|].
      by eapply grows_one. }
    unfold writeDaily.
    assert ((0 <? LogSplitDay (cfg l2)) = false) as -> by (cbn; lia).
    intros He. apply grows_rotated.
    pose proof (writeSized_rotates l2 g w2 p Hfit He) as G.
    assert ((Lumberjack.max g l2 <? size l2 + Z.of_nat (length p)) = false) as Hc.
    { change (Lumberjack.max g l2) with (Lumberjack.max g l).
      change (size l2) with (sizeOf x). lia. }
    rewrite Hc in G. change false with (false || false).
    by eapply grows_trans.
Qed.

(** ** The day counter and the day-split flag *)

Lemma rotate_count l g w e l1 w1 :
  rotate l g w = (e, l1, w1) ->
  splitDayCount l1 = splitDayCount l /\ cfg l1 = cfg l.
Proof.
  intros H. pose proof H as H'. apply rotate_spec in H' as ((Hcf & _) & _).
  split; [|done].
  apply rotate_Opened in H as [(err & He & Hf & Hh & Hs & Hc) | (w0 & tr0 & tr & l2 & O0 & Hf0 & O2 & Hn0 & Hop & Hl)];
    [done|].
  inversion Hop; subst; destruct Hl as [-> | ->]; done.
Qed.

Lemma openNew_count l g w e l1 w1 :
  openNew l g w = (e, l1, w1) ->
  splitDayCount l1 = splitDayCount l /\ cfg l1 = cfg l.
Proof.
  intros H. apply openNew_Opened in H as (tr & _ & Hop).
  inversion Hop; subst; done.
Qed.

Lemma openExistingOrNew_count l g w n e l1 w1 :
  openExistingOrNew l g w n = (e, l1, w1) ->
  splitDayCount l1 = splitDayCount l /\ cfg l1 = cfg l.
Proof.
  unfold openExistingOrNew.
  destruct (Stat w (filename w (mill l))) as [[info|est] w0].
  - destruct (_ <=? _); [intros H; by apply rotate_count in H|].
    destruct (OpenAppend w0 (filename w (mill l))) as [[f|e2] w2].
    + intros H; by inversion H.
    + intros H; by apply openNew_count in H.
  - destruct (IsNotExist est); [intros H; by apply openNew_count in H|].
    intros H; by inversion H.
Qed.

Lemma writeOut_count l g w p :
  let r := writeOut l g w p in
  splitDayCount (wr_logger r) = splitDayCount l /\ cfg (wr_logger r) = cfg l
  /\ wr_globals r = g.
Proof.
  unfold writeOut. destruct (file l) as [h|]; [|done].
  by destruct (FileWrite w h p) as [[n e] w1].
Qed.

Lemma writeSized_count l g w p :
  let r := writeSized l g w p in
  splitDayCount (wr_logger r) = splitDayCount l /\ cfg (wr_logger r) = cfg l
  /\ wr_globals r = g.
Proof.
  unfold writeSized. destruct (_ <? _); [|apply writeOut_count].
  destruct (rotate l g w) as [[e l1] w1] eqn:E1.
  apply rotate_count in E1 as (Hc & Hcf).
  destruct e as [e|]; [done|].
  destruct (writeOut_count l1 g w1 p) as (? & ? & ?).
  repeat split; congruence.
Qed.

(** X12.  With day splitting configured, [Write] keeps the day counter
    at or above 0 and below [LogSplitDay], whatever it returns; the
    configuration is not changed. *)
Theorem Write_keeps_day_counter_in_range (l : Logger) (g : Globals) (w : World)
    (p : list Byte.byte) :
  0 < LogSplitDay (cfg l) < 2 ^ 63 ->
  0 <= splitDayCount l < LogSplitDay (cfg l) ->
  let r := Write l g w p in
  cfg (wr_logger r) = cfg l
  /\ 0 <= splitDayCount (wr_logger r) < LogSplitDay (cfg l).
Proof.
  intros Hd Hc.
  assert (forall l1 g1 w1, splitDayCount l1 = splitDayCount l -> cfg l1 = cfg l ->
            let r := writeDaily l1 g1 w1 p in
            cfg (wr_logger r) = cfg l
            /\ 0 <= splitDayCount (wr_logger r) < LogSplitDay (cfg l)) as Hdaily.
  { intros l1 g1 w1 Hc1 Hcf1. cbv zeta. unfold writeDaily.
    assert (forall l2 g2 w2, cfg l2 = cfg l ->
              0 <= splitDayCount l2 < LogSplitDay (cfg l) ->
              let r := writeSized l2 g2 w2 p in
              cfg (wr_logger r) = cfg l
              /\ 0 <= splitDayCount (wr_logger r) < LogSplitDay (cfg l)) as Hsized.
    { intros l2 g2 w2 Hcf2 Hc2. cbv zeta.
      destruct (writeSized_count l2 g2 w2 p) as (-> & -> & _). done. }
    destruct (0 <? LogSplitDay (cfg l1)); [|apply Hsized; [done | lia]].
    destruct (isNextDay (LocalTime (cfg l1)) g1 w1) as [[next g2] w2].
    destruct next; [|apply Hsized; [done | lia]].
    set (l2 := setSplitDayCount l1 (wrap64 (splitDayCount l1 + 1))).
    assert (splitDayCount l2 = splitDayCount l + 1) as Hc2.
    { subst l2. cbn [splitDayCount setSplitDayCount]. rewrite Hc1.
      apply wrap64_small. unfold inInt64. lia. }
    change (cfg l2) with (cfg l1). rewrite Hcf1.
    destruct (LogSplitDay (cfg l) <=? splitDayCount l2) eqn:Ec.
    - destruct (rotate (setSplitDayCount l2 0) _ w2) as [[e l3] w3] eqn:E3.
      apply rotate_count in E3 as (Hc3 & Hcf3).
      change (cfg l3 = cfg l1) in Hcf3. change (splitDayCount l3 = 0) in Hc3.
      destruct e as [e|].
      + cbn [wr_logger]. rewrite Hc3. split; [congruence | lia].
      + apply Hsized; [congruence | lia].
    - apply Hsized; [done | lia]. }
  cbv zeta. unfold Write.
  destruct (Lumberjack.max g l <? Z.of_nat (length p)); [done|].
  destruct (file l) as [h|]; [by apply Hdaily|].
  destruct (openExistingOrNew l g w (Z.of_nat (length p))) as [[e l1] w1] eqn:E1.
  apply openExistingOrNew_count in E1 as (Hc1 & Hcf1).
  destruct e as [e|]; [|by apply Hdaily].
  cbn [wr_logger]. rewrite Hc1. done.
Qed.

(** X13.  [Write] leaves the day-split flag set, when it was not set
    before, only in one case: day splitting is configured, the rotation
    for the new day failed, and the call returned that error with a
    count of 0, no handle open and the day counter back at 0.  A
    successful [Write] leaves the flag as it found it. *)
Theorem Write_leaves_flag_only_on_failed_day_split (l : Logger) (g : Globals)
    (w : World) (p : list Byte.byte) :
  isSplitDay g = false ->
  let r := Write l g w p in
  (wr_err r = None -> isSplitDay (wr_globals r) = false)
  /\ (isSplitDay (wr_globals r) = true ->
      0 < LogSplitDay (cfg l) /\ is_Some (wr_err r) /\ wr_n r = 0
      /\ file (wr_logger r) = None /\ splitDayCount (wr_logger r) = 0).
Proof.
  intros Hflag.
  assert (forall l1 w1, cfg l1 = cfg l ->
            let r := writeDaily l1 g w1 p in
            (wr_err r = None -> isSplitDay (wr_globals r) = false)
            /\ (isSplitDay (wr_globals r) = true ->
                0 < LogSplitDay (cfg l) /\ is_Some (wr_err r) /\ wr_n r = 0
                /\ file (wr_logger r) = None
                /\ splitDayCount (wr_logger r) = 0)) as Hdaily.
  { intros l1 w1 Hcf1. cbv zeta. unfold writeDaily.
    assert (forall l2 g2 w2, isSplitDay g2 = false ->
              let r := writeSized l2 g2 w2 p in
              (wr_err r = None -> isSplitDay (wr_globals r) = false)
              /\ (isSplitDay (wr_globals r) = true ->
                  0 < LogSplitDay (cfg l) /\ is_Some (wr_err r) /\ wr_n r = 0
                  /\ file (wr_logger r) = None
                  /\ splitDayCount (wr_logger r) = 0)) as Hsized.
    { intros l2 g2 w2 Hg2. cbv zeta.
      destruct (writeSized_count l2 g2 w2 p) as (_ & _ & ->).
      split; [done | congruence]. }
    rewrite Hcf1.
    destruct (0 <? LogSplitDay (cfg l)) eqn:Ed; [|by apply Hsized].
    destruct (isNextDay (LocalTime (cfg l)) g w1) as [[next g2] w2] eqn:E2.
    assert (isSplitDay g2 = false) as Hg2.
    { unfold isNextDay, updateCurrentTimestamp in E2.
      destruct (currentTime w1) as [t w']. inversion E2; subst. done. }
    destruct next; [|by apply Hsized].
    set (l2 := setSplitDayCount l1 (wrap64 (splitDayCount l1 + 1))).
    destruct (LogSplitDay (cfg l2) <=? splitDayCount l2); [|by apply Hsized].
    destruct (rotate (setSplitDayCount l2 0) _ w2) as [[e l3] w3] eqn:E3.
    destruct e as [e|]; [|by apply Hsized].
    pose proof (rotate_error_nil _ _ _ _ _ _ E3) as Hnil.
    apply rotate_count in E3 as (Hc3 & _).
    cbn [wr_err wr_globals wr_n wr_logger]. split; [discriminate|].
    intros _. split; [lia|]. split; [by eexists|]. split; [done|].
    split; [done | exact Hc3]. }
  cbv zeta. unfold Write.
  destruct (Lumberjack.max g l <? Z.of_nat (length p)).
  { cbn [wr_err wr_globals]. split; [discriminate | congruence]. }
  destruct (file l) as [h|]; [by apply Hdaily|].
  destruct (openExistingOrNew l g w (Z.of_nat (length p))) as [[e l1] w1] eqn:E1.
  apply openExistingOrNew_count in E1 as (_ & Hcf1).
  destruct e as [e|]; [|by apply Hdaily].
  cbn [wr_err wr_globals]. split; [discriminate | congruence].
Qed.

(** ** The decisions of a sweep: every file once *)

Lemma count_fold (k : Z) (files : list logInfo) :
  0 <= k ->
  let '(P, rm, keep) := fold_left (countStep k) files (∅, [], []) in
  files ≡ₚ rm ++ keep
  /\ exists P0 : gset string,
       P0 ⊆ P /\ Z.of_nat (base.size P0) <= k
       /\ forall f, f ∈ keep -> lname f ∈ P0.
Proof.
  intros Hk. induction files as [|f pre IH] using rev_ind.
  - cbn. split; [done|]. exists ∅.
    split; [done|]. split; [by rewrite size_empty | set_solver].
  - rewrite fold_left_app. cbn [fold_left].
    destruct (fold_left (countStep k) pre (∅, [], [])) as [[P rm] keep].
    destruct IH as (Hperm & P0 & Hsub & Hsz & Hin).
    unfold countStep. fold (lname f).
    destruct (k <? Z.of_nat (base.size ({[lname f]} ∪ P))) eqn:Ec.
    + split.
      * rewrite Hperm. rewrite <- !app_assoc. apply Permutation_app_head.
        apply Permutation_app_comm.
      * exists P0. split; [set_solver | done].
    + split.
      * rewrite Hperm. by rewrite app_assoc.
      * exists ({[lname f]} ∪ P). split; [done|]. split; [lia|].
        intros f' Hf'. apply elem_of_app in Hf' as [Hf'|Hf'].
        -- apply Hin in Hf'. set_solver.
        -- apply list_elem_of_singleton in Hf'. subst. set_solver.
Qed.

Lemma logicalSet_size (files : list logInfo) :
  (base.size (logicalSet files) <= length files)%nat.
Proof.
  unfold logicalSet. induction files as [|f files IH].
  - done.
  - rewrite fmap_cons, list_to_set_cons. cbn [length].
    rewrite size_union_alt, size_singleton.
    pose proof (subseteq_size (list_to_set (lname <$> files) ∖ {[lname f]})
                  (list_to_set (lname <$> files) : gset string)
                  ltac:(set_solver)).
    lia.
Qed.

Lemma logicalSet_within (files : list logInfo) (P : gset string) :
  (forall f, f ∈ files -> lname f ∈ P) ->
  (base.size (logicalSet files) <= base.size P)%nat.
Proof.
  intros H. apply subseteq_size. unfold logicalSet.
  intros x Hx. apply elem_of_list_to_set, list_elem_of_fmap in Hx
    as (f & -> & Hf). by apply H.
Qed.

Lemma byCount_split (k : Z) (files : list logInfo) :
  files ≡ₚ fst (byCount k files) ++ snd (byCount k files)
  /\ (0 < k -> Z.of_nat (base.size (logicalSet (snd (byCount k files)))) <= k).
Proof.
  unfold byCount.
  destruct ((0 <? k) && (k <? Z.of_nat (length files))) eqn:Eg.
  - pose proof (count_fold k files ltac:(lia)) as H.
    destruct (fold_left (countStep k) files (∅, [], [])) as [[P rm] keep].
    destruct H as (Hperm & P0 & _ & Hsz & Hin). cbn [fst snd].
    split; [done|]. intros _.
    pose proof (logicalSet_within keep P0 Hin). lia.
  - cbn [fst snd]. split; [done|]. intros Hk.
    pose proof (logicalSet_size files). lia.
Qed.

Lemma byAge_split (now : Time) (days : Z) (files : list logInfo) :
  files ≡ₚ fst (byAge now days files) ++ snd (byAge now days files)
  /\ (forall f, f ∈ snd (byAge now days files) -> f ∈ files).
Proof.
  unfold byAge. destruct (0 <? days); cbn [fst snd]; [|done].
  split.
  - induction files as [|f files IH]; [done|].
    rewrite !filter_cons. destruct (tooOld now days f) eqn:E.
    + rewrite decide_True by done. rewrite decide_False by done.
      simpl. by constructor.
    + rewrite decide_False by done. rewrite decide_True by done.
      rewrite <- Permutation_middle. by constructor.
  - intros f Hf. by apply list_elem_of_filter in Hf as [_ ?].
Qed.

(** X14.  The decisions of a sweep put every listed file on exactly
    one side: the files to remove and the files kept are, together, the
    listing; and the files to compress are the kept files whose name
    does not end in [.gz], when compression is configured, none
    otherwise. *)
Theorem millPlan_partitions_listing (c : Config) (now : Time)
    (files : list logInfo) :
  files ≡ₚ fst (millPlan c now files) ++ kept c now files
  /\ forall f, f ∈ snd (millPlan c now files)
       <-> Compress c = true /\ f ∈ kept c now files
           /\ HasSuffix (Name f) compressSuffix = false.
Proof.
  unfold millPlan, kept.
  pose proof (byCount_split (LogMaxSaveQuantity c) files) as (H1 & _).
  destruct (byCount (LogMaxSaveQuantity c) files) as [rm1 rest1].
  cbn [fst snd] in *.
  pose proof (byAge_split now (LogMaxSaveDay c) rest1) as (H2 & _).
  destruct (byAge now (LogMaxSaveDay c) rest1) as [rm2 rest2].
  cbn [fst snd] in *. split.
  - rewrite H1, H2. by rewrite app_assoc.
  - intros f. unfold toCompress. destruct (Compress c).
    + rewrite list_elem_of_filter. tauto.
    + split; [by intros ?%elem_of_nil | by intros [? _]].
Qed.

(** X15.  With a count limit [K > 0], the files a sweep keeps belong to
    at most [K] logical backups (a file and its [.gz] being one),
    whatever the order of the listing. *)
Theorem millPlan_keeps_at_most (c : Config) (now : Time) (files : list logInfo) :
  0 < LogMaxSaveQuantity c ->
  Z.of_nat (base.size (logicalSet (kept c now files))) <= LogMaxSaveQuantity c.
Proof.
  intros Hk. unfold kept.
  pose proof (byCount_split (LogMaxSaveQuantity c) files) as (_ & H1).
  specialize (H1 Hk).
  pose proof (byAge_split now (LogMaxSaveDay c)
                (snd (byCount (LogMaxSaveQuantity c) files))) as (_ & H2).
  assert (logicalSet (snd (byAge now (LogMaxSaveDay c)
                             (snd (byCount (LogMaxSaveQuantity c) files))))
          ⊆ logicalSet (snd (byCount (LogMaxSaveQuantity c) files))) as Hsub.
  { unfold logicalSet. intros x Hx.
    apply elem_of_list_to_set, list_elem_of_fmap in Hx as (f & -> & Hf).
    apply elem_of_list_to_set, list_elem_of_fmap. exists f. split; [done|].
    by apply H2. }
  apply subseteq_size in Hsub. lia.
Qed.

Lemma millPlan_keeps_at_most_witness :
  0 < LogMaxSaveQuantity Sample.keepConf
  /\ Z.of_nat (base.size (logicalSet (kept Sample.keepConf Sample.now
                                          Sample.backups)))
     <= LogMaxSaveQuantity Sample.keepConf.
Proof.
  assert (0 < LogMaxSaveQuantity Sample.keepConf) as H1 by (vm_compute; reflexivity).
  exact (conj H1 (millPlan_keeps_at_most Sample.keepConf Sample.now
                    Sample.backups H1)).
Defined.

Module GoStringMore.
Import GoString GoStringFacts FilePathFacts.

Lemma HasPrefix_inv (s p : string) :
  HasPrefix s p = true -> exists r, s = p +:+ r.
Proof.
  unfold HasPrefix. revert s. induction p as [|c p IH]; intros s H.
  - by exists s.
  - destruct s as [|d s]; [done|]. simpl in H.
    destruct (ascii_dec c d) as [->|]; [|done].
    destruct (IH s H) as [r ->]. by exists r.
Qed.

Lemma chars_substring (n m : nat) (s : string) :
  chars (substring n m s) = take m (drop n (chars s)).
Proof.
  unfold chars. revert n m. induction s as [|c s IH]; intros n m.
  - destruct n, m; done.
  - destruct n as [|n].
    + destruct m as [|m]; [done|]. simpl. f_equal. apply (IH 0%nat m).
    + simpl. apply IH.
Qed.

Lemma chars_inj (a b : string) : chars a = chars b -> a = b.
Proof. intros H. by rewrite <- (str_chars a), <- (str_chars b), H. Qed.

Lemma HasSuffix_inv (s suf : string) :
  HasSuffix s suf = true -> exists a, s = a +:+ suf.
Proof.
  unfold HasSuffix. intros H. apply andb_prop in H as [Hl He].
  apply Nat.leb_le in Hl. apply String.eqb_eq in He.
  exists (str (take (len s - len suf) (chars s))).
  apply chars_inj. rewrite chars_app, chars_str.
  apply (f_equal chars) in He. rewrite chars_substring in He.
  rewrite take_ge in He by (rewrite length_drop, <- len_chars; lia).
  by rewrite <- He, take_drop.
Qed.

(** A string with prefix [p] and suffix [e] that is long enough for
    both is [p], a middle and [e]. *)
Lemma prefix_suffix_middle (s p e : string) :
  HasPrefix s p = true -> HasSuffix s e = true ->
  (len p + len e <= len s)%nat ->
  exists x, s = p +:+ x +:+ e.
Proof.
  intros Hp He Hl.
  apply HasPrefix_inv in Hp as [r ->].
  apply HasSuffix_inv in He as [a Ha].
  apply (f_equal chars) in Ha. rewrite !chars_app in Ha.
  rewrite !len_chars, chars_app, length_app in Hl.
  assert (length (chars p) <= length (chars a))%nat as Hpa.
  { apply (f_equal length) in Ha. rewrite !length_app in Ha. lia. }
  exists (str (drop (length (chars p)) (chars a))).
  f_equal. apply chars_inj. rewrite chars_app, chars_str.
  apply (f_equal (drop (length (chars p)))) in Ha.
  rewrite drop_app_length in Ha. rewrite Ha.
  by rewrite drop_app_le.
Qed.

End GoStringMore.

(** ** Which names are backups *)

(** X16.  [timeFromName] accepts a name exactly when it is the prefix,
    a timestamp that parses in the layout of backups, and the
    extension; the time returned is the one parsed. *)
Theorem timeFromName_accepts (c : Config) (tz : Z) (fname pre ext : string)
    (t : Time) :
  timeFromName c tz fname pre ext = inl t
  <-> exists ts, fname = pre +:+ ts +:+ ext /\ parseStamp c tz ts = Some t.
Proof.
  unfold timeFromName, parseStamp. split.
  - destruct (HasPrefix fname pre) eqn:Hp; [|discriminate].
    destruct (HasSuffix fname ext) eqn:He; [|discriminate].
    cbn [negb].
    destruct (slice fname (len pre) (len fname - len ext)) as [ts|] eqn:Hs;
      [|discriminate].
    assert (len pre + len ext <= len fname)%nat as Hl.
    { unfold slice in Hs.
      destruct ((len pre <=? len fname - len ext)%nat
                && (len fname - len ext <=? len fname)%nat) eqn:Eb;
        [|discriminate].
      apply andb_prop in Eb as [Eb _]. apply Nat.leb_le in Eb.
      unfold HasSuffix in He. apply andb_prop in He as [He _].
      apply Nat.leb_le in He. lia. }
    destruct (GoStringMore.prefix_suffix_middle _ _ _ Hp He Hl) as [x Hx].
    rewrite Hx, GoStringFacts.slice_middle in Hs.
    assert (x = ts) as -> by congruence.
    intros H. exists ts. split; [done|].
    destruct (LocalTime c).
    + by destruct (ParseInLocation tz backupTimeFormat ts Local); inversion H.
    + by destruct (Parse backupTimeFormat ts); inversion H.
  - intros (ts & -> & Hparse).
    rewrite GoStringFacts.HasPrefix_app. cbn [negb].
    replace (pre +:+ ts +:+ ext) with ((pre +:+ ts) +:+ ext)
      by (by rewrite GoStringFacts.app_assoc).
    rewrite GoStringFacts.HasSuffix_app. cbn [negb].
    replace ((pre +:+ ts) +:+ ext) with (pre +:+ ts +:+ ext)
      by (by rewrite GoStringFacts.app_assoc).
    rewrite GoStringFacts.slice_middle. by rewrite Hparse.
Qed.

Lemma timeFromName_prefix c tz fname pre ext t :
  timeFromName c tz fname pre ext = inl t -> HasPrefix fname pre = true.
Proof.
  unfold timeFromName. by destruct (HasPrefix fname pre).
Qed.

Lemma backupEntry_prefix c tz pre ext lf :
  backupEntry c tz pre ext lf -> HasPrefix (Name lf) pre = true.
Proof.
  unfold backupEntry.
  destruct (timeFromName c tz (Name lf) pre ext) eqn:E.
  - intros _. by eapply timeFromName_prefix.
  - intros H. by eapply timeFromName_prefix.
Qed.

Lemma scanBackups_spec c tz pre ext files : forall acc out,
  scanBackups c tz pre ext files acc = Some out ->
  forall lf, lf ∈ out
             <-> lf ∈ acc \/ (info lf ∈ files /\ backupEntry c tz pre ext lf).
Proof.
  induction files as [|f rest IH]; intros acc out H lf.
  - inversion H; subst. split; [by left|]. intros [?|[Hin _]]; [done|].
    by apply elem_of_nil in Hin.
  - cbn [scanBackups] in H.
    assert (forall t, timeFromName c tz (fi_name f) pre ext = inl t
                      \/ (exists e, timeFromName c tz (fi_name f) pre ext = inr e)
                         /\ timeFromName c tz (fi_name f) pre (ext +:+ compressSuffix)
                            = inl t ->
              (lf = mkLogInfo t f <-> info lf = f /\ backupEntry c tz pre ext lf))
      as Hone.
    { intros t Ht. unfold backupEntry, Name. split.
      - intros ->. cbn [info timestamp]. split; [done|].
        destruct Ht as [-> | [[e ->] Ht]]; done.
      - intros [Hi Hb]. destruct lf as [t' f']. cbn [info timestamp] in *.
        subst f'. destruct Ht as [Ht | [[e Ht] Ht']]; rewrite Ht in Hb; congruence. }
    assert ((exists e, timeFromName c tz (fi_name f) pre ext = inr e)
            /\ (exists e, timeFromName c tz (fi_name f) pre (ext +:+ compressSuffix)
                          = inr e) ->
            info lf = f -> ~ backupEntry c tz pre ext lf) as Hnone.
    { intros [[e He] [e' He']] Hi. unfold backupEntry, Name. rewrite Hi, He, He'.
      discriminate. }
    destruct (timeFromName c tz (fi_name f) pre ext) as [t|e] eqn:E1.
    + rewrite (IH _ _ H lf), elem_of_app, list_elem_of_singleton, elem_of_cons.
      rewrite (Hone t) by (by left). tauto.
    + destruct (isPanic e); [discriminate|].
      destruct (timeFromName c tz (fi_name f) pre (ext +:+ compressSuffix))
        as [t|e'] eqn:E2.
      * rewrite (IH _ _ H lf), elem_of_app, list_elem_of_singleton, elem_of_cons.
        rewrite (Hone t) by (right; split; [by eexists | done]). tauto.
      * destruct (isPanic e'); [discriminate|].
        rewrite (IH _ _ H lf), elem_of_cons.
        assert (info lf = f -> ~ backupEntry c tz pre ext lf) as Hn
          by (apply Hnone; split; by eexists).
        tauto.
Qed.

Lemma extRev_dot (r acc : list ascii) :
  extRev r acc = [] \/ exists t, extRev r acc = dot :: t.
Proof.
  revert acc. induction r as [|c r IH]; intros acc; simpl; [by left|].
  destruct (isSlash c); [by left|].
  destruct (Ascii.eqb c dot) eqn:E; [|apply IH].
  apply Ascii.eqb_eq in E. subst. right. by eexists.
Qed.

Lemma Ext_dot (s : string) : Ext s = EmptyString \/ exists r, Ext s = String dot r.
Proof.
  unfold Ext. destruct (extRev_dot (rev (chars s)) []) as [-> | [t ->]].
  - by left.
  - right. by exists (str t).
Qed.

(** The name of the log itself does not start with the prefix of its
    backups. *)
Lemma live_log_no_prefix (fname : string) :
  HasPrefix fname (trimExt fname (Ext fname) +:+ "-") = false.
Proof.
  destruct (HasPrefix fname (trimExt fname (Ext fname) +:+ "-")) eqn:E; [|done].
  exfalso. apply GoStringMore.HasPrefix_inv in E as [r Hr].
  pose proof (trimExt_Ext fname) as Hs.
  set (stem := trimExt fname (Ext fname)) in *.
  rewrite <- Hs in Hr at 1. rewrite GoStringFacts.app_assoc in Hr.
  apply (f_equal chars) in Hr. rewrite !FilePathFacts.chars_app in Hr.
  apply app_inv_head in Hr.
  destruct (Ext_dot fname) as [He | [t He]]; rewrite He in Hr; discriminate.
Qed.

(** The entries [oldLogFiles] lists. *)
Lemma oldLogFiles_members (l : Logger) (w w1 : World) (files : list logInfo) :
  oldLogFiles l w = (inl files, w1) ->
  forall lf, lf ∈ files
    <-> info lf ∈ entries (w_files w) (dir w l)
        /\ backupEntry (cfg l) (w_tz w) (fst (prefixAndExt w l))
                       (snd (prefixAndExt w l)) lf.
Proof.
  intros H. unfold oldLogFiles in H.
  destruct (ReadDir w (dir w l)) as [r w'] eqn:E.
  unfold ReadDir, step in E.
  destruct (w_fate w (length (w_trace w)) (OpReadDir (dir w l)));
    inversion E; subst; clear E; [|discriminate].
  destruct (prefixAndExt w l) as [pre ext] eqn:Epe.
  destruct (scanBackups (cfg l) (w_tz w) pre ext
              (entries (w_files w) (dir w l)) []) as [found|] eqn:Es;
    [|discriminate].
  inversion H; subst; clear H. cbn [fst snd].
  intros lf. rewrite merge_sort_Permutation.
  rewrite (scanBackups_spec _ _ _ _ _ _ _ Es lf).
  split; [intros [Hin|?]; [by apply elem_of_nil in Hin | done] | by right].
Qed.

Lemma backupEntry_not_live (l : Logger) (w : World) (lf : logInfo) :
  backupEntry (cfg l) (w_tz w) (fst (prefixAndExt w l))
              (snd (prefixAndExt w l)) lf ->
  Name lf <> Base (filename w l).
Proof.
  intros Hb Heq. apply backupEntry_prefix in Hb. rewrite Heq in Hb.
  unfold prefixAndExt in Hb. cbn [fst] in Hb.
  by rewrite live_log_no_prefix in Hb.
Qed.

(** X17.  What [oldLogFiles] returns when the directory can be read: no
    file is changed; the list is sorted newest first; it holds exactly
    the entries of the directory of the log whose name is the prefix of
    the log, a timestamp and the extension of the log, with or without
    [.gz] behind it, each with the time read from its name; and the log
    itself is never among them. *)
Theorem oldLogFiles_lists_backups (l : Logger) (w w1 : World)
    (files : list logInfo) :
  oldLogFiles l w = (inl files, w1) ->
  w_files w1 = w_files w
  /\ Sorted newestFirst files
  /\ (forall lf, lf ∈ files
        <-> info lf ∈ entries (w_files w) (dir w l)
            /\ backupEntry (cfg l) (w_tz w) (fst (prefixAndExt w l))
                           (snd (prefixAndExt w l)) lf)
  /\ (forall lf, lf ∈ files -> Name lf <> Base (filename w l)).
Proof.
  intros H. pose proof (oldLogFiles_sorted _ _ _ _ H) as Hsorted.
  pose proof (oldLogFiles_members _ _ _ _ H) as Hmem.
  split.
  { unfold oldLogFiles in H.
    destruct (ReadDir w (dir w l)) as [r w'] eqn:E.
    apply ReadDir_spec in E as (_ & Hf & _).
    destruct r as [fs|e]; [|discriminate].
    destruct (prefixAndExt w l) as [pre ext].
    destruct (scanBackups _ _ _ _ _ _); [|discriminate].
    by inversion H; subst. }
  split; [done|]. split; [done|].
  intros lf Hin. apply Hmem in Hin as [_ Hb]. by eapply backupEntry_not_live.
Qed.

(** ** The files a sweep works on *)

Lemma only_same ks w w1 : w_files w1 = w_files w -> only ks w w1.
Proof. intros H k _. by rewrite H. Qed.

Lemma only_trans ks w w1 w2 : only ks w w1 -> only ks w1 w2 -> only ks w w2.
Proof. intros H1 H2 k Hk. by rewrite H2, H1. Qed.

Lemma only_weaken ks ks' w w1 : ks ⊆ ks' -> only ks w w1 -> only ks' w w1.
Proof. intros Hs H k Hk. apply H. set_solver. Qed.

Lemma only_insert ks w w1 k x :
  k ∈ ks -> w_files w1 = <[k := x]> (w_files w) -> only ks w w1.
Proof.
  intros Hk H k' Hk'. rewrite H, lookup_insert_ne; [done|].
  intros ->. done.
Qed.

Lemma only_delete ks w w1 k :
  k ∈ ks -> w_files w1 = delete k (w_files w) -> only ks w w1.
Proof.
  intros Hk H k' Hk'. rewrite H, lookup_delete_ne; [done|].
  intros ->. done.
Qed.

Lemma Remove_only ks w p e w1 :
  key p ∈ ks -> Remove w p = (e, w1) -> only ks w w1.
Proof.
  intros Hk H. apply Remove_spec in H as (_ & _ & Hr).
  destruct e; [apply only_same; tauto|].
  destruct Hr as [_ Hr]. by eapply only_delete.
Qed.

Lemma Create_only ks w p m r w1 :
  key p ∈ ks -> Create w p m = (r, w1) -> only ks w w1.
Proof.
  intros Hk H. unfold Create, step in H.
  destruct (w_fate w (length (w_trace w)) (OpCreate p m));
    inversion H; subst; clear H.
  - by eapply only_insert.
  - by apply only_same.
Qed.

Section SweepFrame.
Variable gzip : list Byte.byte -> list Byte.byte.

Lemma Copy_only ks w f gzf r w1 :
  gzf ∈ ks -> Copy gzip w f gzf = (r, w1) -> only ks w w1.
Proof.
  intros Hk H. destruct r as [stream e].
  apply Copy_spec in H as (_ & _ & _ & data & Hf).
  destruct (w_files w !! gzf); [by eapply only_insert | by apply only_same].
Qed.

Lemma GzClose_only ks w gzf stream e w1 :
  gzf ∈ ks -> GzClose w gzf stream = (e, w1) -> only ks w w1.
Proof.
  intros Hk H. apply GzClose_spec in H as (_ & _ & Hf).
  destruct e; [by apply only_same|].
  destruct (w_files w !! gzf); [by eapply only_insert | by apply only_same].
Qed.

Lemma FileClose_only ks w h e w1 : FileClose w h = (e, w1) -> only ks w w1.
Proof. intros H. apply FileClose_spec in H as (_ & Hf & _). by apply only_same. Qed.

Lemma compressBody_only w src dst r w1 :
  compressBody gzip w src (key src) (key dst) = (r, w1) ->
  only [key src; key dst] w w1.
Proof.
  unfold compressBody.
  destruct (Copy gzip w (key src) (key dst)) as [[stream e1] w2] eqn:E1.
  apply (Copy_only [key src; key dst]) in E1; [|set_solver].
  destruct e1 as [e|]; [intros H; by inversion H; subst|].
  destruct (GzClose w2 (key dst) stream) as [e2 w3] eqn:E2.
  apply (GzClose_only [key src; key dst]) in E2; [|set_solver].
  destruct e2 as [e|];
    [intros H; inversion H; subst; by eapply only_trans|].
  destruct (FileClose w3 (key dst)) as [e3 w4] eqn:E3.
  apply (FileClose_only [key src; key dst]) in E3.
  destruct e3 as [e|];
    [intros H; inversion H; subst; eauto using only_trans|].
  destruct (FileClose w4 (key src)) as [e4 w5] eqn:E4.
  apply (FileClose_only [key src; key dst]) in E4.
  destruct e4 as [e|];
    [intros H; inversion H; subst; eauto using only_trans|].
  intros H. apply (Remove_only [key src; key dst]) in H; [|set_solver].
  eauto using only_trans.
Qed.

(** [compressLogFile] works on its source and its destination, and on
    nothing else. *)
Lemma compressLogFile_only w src dst r w1 :
  compressLogFile gzip w src dst = (r, w1) -> only [key src; key dst] w w1.
Proof.
  unfold compressLogFile.
  destruct (Open w src) as [r1 w2] eqn:E1.
  apply Open_spec in E1 as (_ & Hf1 & _ & Hr1).
  apply (only_same [key src; key dst]) in Hf1.
  destruct r1 as [f|e]; [|intros H; by inversion H; subst].
  destruct Hr1 as [-> _].
  destruct (Stat w2 src) as [r2 w3] eqn:E2.
  apply Stat_spec in E2 as (_ & Hf2 & _).
  apply (only_same [key src; key dst]) in Hf2.
  destruct r2 as [fi|e].
  2: { destruct (FileClose w3 (key src)) as [e3 w4] eqn:E3.
       apply (FileClose_only [key src; key dst]) in E3.
       intros H; inversion H; subst. eauto using only_trans. }
  destruct (chown w3 dst fi) as [e3 w4] eqn:E3.
  apply chown_spec in E3 as (_ & Hf3 & _).
  apply (only_same [key src; key dst]) in Hf3.
  destruct e3 as [e|].
  { destruct (FileClose w4 (key src)) as [e4 w5] eqn:E4.
    apply (FileClose_only [key src; key dst]) in E4.
    intros H; inversion H; subst. eauto using only_trans. }
  destruct (Create w4 dst (fi_mode fi)) as [r4 w5] eqn:E4.
  pose proof E4 as E4'.
  apply (Create_only [key src; key dst]) in E4; [|set_solver].
  destruct r4 as [gzf|e].
  2: { destruct (FileClose w5 (key src)) as [e5 w6] eqn:E5.
       apply (FileClose_only [key src; key dst]) in E5.
       intros H; inversion H; subst. eauto 6 using only_trans. }
  apply Create_spec in E4' as (_ & _ & -> & _).
  destruct (compressBody gzip w5 src (key src) (key dst)) as [err w6] eqn:E5.
  apply compressBody_only in E5.
  assert (only [key src; key dst] w w6) as H6 by eauto 6 using only_trans.
  destruct err as [e|].
  - destruct (Remove w6 dst) as [e6 w7] eqn:E6.
    apply (Remove_only [key src; key dst]) in E6; [|set_solver].
    destruct (FileClose w7 (key dst)) as [e7 w8] eqn:E7.
    apply (FileClose_only [key src; key dst]) in E7.
    destruct (FileClose w8 (key src)) as [e8 w9] eqn:E8.
    apply (FileClose_only [key src; key dst]) in E8.
    intros H; inversion H; subst. eauto 6 using only_trans.
  - destruct (FileClose w6 (key dst)) as [e7 w8] eqn:E7.
    apply (FileClose_only [key src; key dst]) in E7.
    destruct (FileClose w8 (key src)) as [e8 w9] eqn:E8.
    apply (FileClose_only [key src; key dst]) in E8.
    intros H; inversion H; subst. eauto 6 using only_trans.
Qed.

Lemma perform_only w a e w1 :
  perform gzip w a = (e, w1) -> only (targets a) w w1.
Proof.
  destruct a as [p|src dst]; simpl.
  - apply Remove_only. set_solver.
  - apply compressLogFile_only.
Qed.

Lemma performAll_only (ks : list string) (acts : list Action) : forall w,
  (forall a, a ∈ acts -> targets a ⊆ ks) ->
  only ks w (snd (performAll gzip w acts)).
Proof.
  induction acts as [|a acts IH]; intros w Hks; simpl.
  - by apply only_same.
  - destruct (perform gzip w a) as [e w1] eqn:E1.
    apply perform_only in E1.
    specialize (IH w1 ltac:(intros; apply Hks; set_solver)).
    destruct (performAll gzip w1 acts) as [es w2]. cbn [snd] in *.
    eapply only_trans; [|exact IH].
    eapply only_weaken; [|exact E1]. apply Hks. set_solver.
Qed.

End SweepFrame.

Section MillMore.
Variable gzip : list Byte.byte -> list Byte.byte.

Lemma millPlan_subset (c : Config) (now : Time) (files : list logInfo) (f : logInfo) :
  f ∈ fst (millPlan c now files) \/ f ∈ snd (millPlan c now files) -> f ∈ files.
Proof.
  unfold millPlan.
  pose proof (byCount_split (LogMaxSaveQuantity c) files) as (H1 & _).
  destruct (byCount (LogMaxSaveQuantity c) files) as [rm1 rest1].
  cbn [fst snd] in *.
  pose proof (byAge_split now (LogMaxSaveDay c) rest1) as (H2 & _).
  destruct (byAge now (LogMaxSaveDay c) rest1) as [rm2 rest2].
  cbn [fst snd] in *.
  rewrite H1, H2. rewrite !elem_of_app. unfold toCompress.
  destruct (Compress c).
  - rewrite list_elem_of_filter. tauto.
  - intros [?|Hn]; [tauto | by apply elem_of_nil in Hn].
Qed.

Lemma elem_of_sweepKeys d files k :
  k ∈ sweepKeys d files
  <-> exists f, f ∈ files /\ (k = key (Join d (Name f))
                              \/ k = key (Join d (Name f) +:+ compressSuffix)).
Proof.
  unfold sweepKeys. rewrite list_elem_of_In, in_flat_map. split.
  - intros (f & Hf & Hk). exists f. apply list_elem_of_In in Hf. split; [done|].
    simpl in Hk. destruct Hk as [<-|[<-|[]]]; [by left | by right].
  - intros (f & Hf & Hk). exists f. apply list_elem_of_In in Hf. split; [done|].
    simpl. destruct Hk as [->| ->]; tauto.
Qed.

Lemma updateCurrentTimestamp_files local g w g1 w1 :
  updateCurrentTimestamp local g w = (g1, w1) ->
  w_files w1 = w_files w /\ env w1 = env w.
Proof.
  unfold updateCurrentTimestamp, currentTime.
  destruct (Now w) as [t w'] eqn:E. apply Now_spec in E as (He & Hf & _).
  intros H; by inversion H; subst.
Qed.

Lemma oldLogFiles_files l w r w1 :
  oldLogFiles l w = (r, w1) -> w_files w1 = w_files w /\ env w1 = env w.
Proof.
  unfold oldLogFiles.
  destruct (ReadDir w (dir w l)) as [r0 w'] eqn:E.
  apply ReadDir_spec in E as (He & Hf & _).
  destruct r0 as [fs|e]; [|intros H; by inversion H; subst].
  destruct (prefixAndExt w l) as [pre ext].
  destruct (scanBackups _ _ _ _ _ _); intros H; by inversion H; subst.
Qed.

Lemma env_dir w w1 l : env w1 = env w -> dir w1 l = dir w l.
Proof. intros He. unfold dir, filename. unfold env in He. by inversion He. Qed.

(** The files a sweep may change. *)
Lemma millRunOnce_frame (l : Logger) (g : Globals) (w : World) :
  let w' := snd (millRunOnce gzip l g w) in
  match fst (oldLogFiles l w) with
  | inl files => only (sweepKeys (dir w l) files) w w'
  | inr _ => w_files w' = w_files w
  end.
Proof.
  cbv zeta. unfold millRunOnce.
  destruct (oldLogFiles l w) as [r w1] eqn:E1.
  pose proof (oldLogFiles_files _ _ _ _ E1) as (Hf1 & He1).
  destruct ((LogMaxSaveQuantity (cfg l) =? 0) && (LogMaxSaveDay (cfg l) =? 0)
            && negb (Compress (cfg l))).
  { cbn [fst snd]. destruct r; [by apply only_same | done]. }
  cbn [fst]. destruct r as [files|e]; [|done].
  destruct (if 0 <? LogMaxSaveDay (cfg l)
            then updateCurrentTimestamp (LocalTime (cfg l)) g w1
            else (g, w1)) as [g2 w2] eqn:E2.
  assert (w_files w2 = w_files w /\ env w2 = env w) as (Hf2 & He2).
  { destruct (0 <? LogMaxSaveDay (cfg l)).
    - apply updateCurrentTimestamp_files in E2 as (? & ?). split; congruence.
    - by inversion E2; subst. }
  destruct (millPlan (cfg l) (nowTime g2) files) as [remove compress] eqn:Ep.
  rewrite millApply_performAll. rewrite (env_dir w w2 l He2).
  pose proof (performAll_only gzip (sweepKeys (dir w l) files)
                (sweepActions (dir w l) remove compress) w2) as Hall.
  destruct (performAll gzip w2 (sweepActions (dir w l) remove compress))
    as [rs w3].
  cbn [snd] in *.
  eapply only_trans; [by apply only_same|]. apply Hall.
  intros a Ha. unfold sweepActions in Ha.
  apply elem_of_app in Ha as [Ha|Ha]; apply list_elem_of_fmap in Ha as (f & -> & Hf);
    (assert (f ∈ files) as Hin
       by (apply (millPlan_subset (cfg l) (nowTime g2)); rewrite Ep; cbn [fst snd]; tauto));
    intros k Hk; apply elem_of_sweepKeys; exists f; (split; [done|]);
    simpl in Hk; set_solver.
Qed.

(** X18.  A sweep works on listed backups only: when the directory
    could be read, no file changes except, possibly, the files of the
    listing and the [.gz] beside each; when it could not, no file
    changes at all. *)
Theorem millRunOnce_only_backups (l : Logger) (g : Globals) (w : World) :
  let w' := snd (millRunOnce gzip l g w) in
  match fst (oldLogFiles l w) with
  | inl files => only (sweepKeys (dir w l) files) w w'
  | inr _ => w_files w' = w_files w
  end.
Proof. apply millRunOnce_frame. Qed.

(** X19.  [compressFiles(fileName)], the compression run at start-up,
    changes no file but the one named and the [.gz] beside it; and it
    changes nothing at all unless both compression and an age limit are
    configured: without [LogMaxSaveDay] the file is not even looked
    for.  In that case its result is nil, or the error of the listing. *)
Theorem compressFiles_only_named_file (l : Logger) (g : Globals) (w : World)
    (fileName : string) :
  let r := compressFiles gzip l g w fileName in
  let fn := Join (dir w l) fileName in
  only [key fn; key (fn +:+ compressSuffix)] w (snd r)
  /\ (LogMaxSaveDay (cfg l) <= 0 \/ Compress (cfg l) = false ->
      w_files (snd r) = w_files w
      /\ fst (fst r) = match fst (oldLogFiles l w) with
                       | inl _ => None
                       | inr e => Some e
                       end).
Proof.
  cbv zeta. unfold compressFiles.
  destruct (oldLogFiles l w) as [r w1] eqn:E1.
  pose proof (oldLogFiles_files _ _ _ _ E1) as (Hf1 & He1).
  destruct r as [files|e]; cbn [fst snd];
    [|split; [by apply only_same | done]].
  destruct (0 <? LogMaxSaveDay (cfg l)) eqn:Ed.
  - destruct (updateCurrentTimestamp (LocalTime (cfg l)) g w1) as [g2 w2] eqn:E2.
    apply updateCurrentTimestamp_files in E2 as (Hf2 & He2).
    assert (w_files w2 = w_files w) as Hf by congruence.
    assert (env w2 = env w) as He by congruence.
    destruct (Compress (cfg l)) eqn:Ec.
    2: { cbn [fst snd]. split; [by apply only_same | done]. }
    destruct (List.find _ files) as [f|] eqn:Efind.
    2: { cbn [fst snd]. split; [by apply only_same | intros [?|?]; [lia|done]]. }
    apply List.find_some in Efind as (_ & Hname).
    apply andb_prop in Hname as [Hname _]. apply String.eqb_eq in Hname.
    destruct (negb (HasSuffix (Name f) compressSuffix)).
    2: { cbn [fst snd]. split; [by apply only_same | intros [?|?]; [lia|done]]. }
    rewrite (env_dir w w2 l He), Hname.
    destruct (compressLogFile gzip w2 _ _) as [e w3] eqn:E3.
    apply compressLogFile_only in E3. cbn [fst snd].
    split; [|intros [?|?]; [lia|done]].
    eapply only_trans; [by apply only_same | exact E3].
  - destruct (Compress (cfg l)); cbn [fst snd];
      (split; [by apply only_same | done]).
Qed.

End MillMore.

(** ** Examples for the properties of rotation, writing and listing *)

Lemma rotate_moves_log_aside_witness :
  let l := Sample.openLogger in
  let g := Sample.globals in
  let w := Sample.world in
  let l1 := snd (fst (rotate l g w)) in
  let w1 := snd (rotate l g w) in
  let x := mkFile (Sample.bytes 5) 420 in
  let name := filename w l in
  w_files w !! key name = Some x
  /\ (forall n, w_fate w n (OpStat name) = Succeeds)
  /\ rotate l g w = (None, l1, w1)
  /\ exists newname wb,
       env wb = env w
       /\ newname = fst (backupName g wb name (LocalTime (cfg l)))
       /\ OpRename name newname ∈ newOps w w1
       /\ w_files w1 !! key name = Some (mkFile [] (f_mode x))
       /\ (key newname <> key name -> w_files w1 !! key newname = Some x)
       /\ (forall k, k <> key name -> k <> key newname ->
           w_files w1 !! k = w_files w !! k)
       /\ file l1 = Some (key name) /\ size l1 = 0.
Proof.
  cbv zeta.
  assert (w_files Sample.world !! key (filename Sample.world Sample.openLogger)
          = Some (mkFile (Sample.bytes 5) 420)) as H1 by (vm_compute; reflexivity).
  assert (forall n, w_fate Sample.world n
                      (OpStat (filename Sample.world Sample.openLogger))
                    = Succeeds) as H2 by (intros n; reflexivity).
  assert (rotate Sample.openLogger Sample.globals Sample.world
          = (None, snd (fst (rotate Sample.openLogger Sample.globals Sample.world)),
             snd (rotate Sample.openLogger Sample.globals Sample.world))) as H3
    by (vm_compute; reflexivity).
  exact (conj H1 (conj H2 (conj H3
    (rotate_moves_log_aside Sample.openLogger Sample.globals Sample.world
       _ _ _ H1 H2 H3)))).
Defined.

Lemma rotate_failure_keeps_log_witness :
  let l := Sample.openLogger in
  let g := Sample.globals in
  let w := Sample.shakyWorld in
  let e := EOs EIO (OpClose "/var/log/foo.log") in
  let l1 := snd (fst (rotate l g w)) in
  let w1 := snd (rotate l g w) in
  let name := filename w l in
  rotate l g w = (Some e, l1, w1)
  /\ file l1 = None /\ size l1 = size l
  /\ forall x, w_files w !! key name = Some x ->
       w_files w1 !! key name = Some x
       \/ exists newname, OpRename name newname ∈ newOps w w1
                          /\ w_files w1 !! key newname = Some x.
Proof.
  cbv zeta.
  assert (rotate Sample.openLogger Sample.globals Sample.shakyWorld
          = (Some (EOs EIO (OpClose "/var/log/foo.log")),
             snd (fst (rotate Sample.openLogger Sample.globals Sample.shakyWorld)),
             snd (rotate Sample.openLogger Sample.globals Sample.shakyWorld))) as H1
    by (vm_compute; reflexivity).
  exact (conj H1
    (rotate_failure_keeps_log Sample.openLogger Sample.globals Sample.shakyWorld
       _ _ _ H1)).
Defined.

Lemma rotate_creates_missing_log_witness :
  let l := Sample.logger in
  let g := Sample.globals in
  let w := Sample.bareWorld in
  let l1 := snd (fst (rotate l g w)) in
  let w1 := snd (rotate l g w) in
  let name := filename w l in
  w_files w !! key name = None
  /\ rotate l g w = (None, l1, w1)
  /\ w_files w1 = <[key name := mkFile [] 384]> (w_files w)
  /\ (forall a b, OpRename a b ∉ newOps w w1)
  /\ file l1 = Some (key name) /\ size l1 = 0.
Proof.
  cbv zeta.
  assert (w_files Sample.bareWorld !! key (filename Sample.bareWorld Sample.logger)
          = None) as H1 by (vm_compute; reflexivity).
  assert (rotate Sample.logger Sample.globals Sample.bareWorld
          = (None, snd (fst (rotate Sample.logger Sample.globals Sample.bareWorld)),
             snd (rotate Sample.logger Sample.globals Sample.bareWorld))) as H2
    by (vm_compute; reflexivity).
  exact (conj H1 (conj H2
    (rotate_creates_missing_log Sample.logger Sample.globals Sample.bareWorld
       _ _ H1 H2))).
Defined.

Lemma rotate_without_rename_truncates_witness :
  let l := Sample.logger in
  let g := Sample.globals in
  let w := Sample.blindWorld in
  let l1 := snd (fst (rotate l g w)) in
  let w1 := snd (rotate l g w) in
  let x := mkFile (Sample.bytes 5) 420 in
  let name := filename w l in
  w_files w !! key name = Some x
  /\ (forall a b, OpRename a b ∉ newOps w w1)
  /\ rotate l g w = (None, l1, w1)
  /\ w_files w1 = <[key name := mkFile [] (f_mode x)]> (w_files w)
  /\ exists n, w_fate w n (OpStat name) <> Succeeds.
Proof.
  cbv zeta.
  assert (w_files Sample.blindWorld !! key (filename Sample.blindWorld Sample.logger)
          = Some (mkFile (Sample.bytes 5) 420)) as H1 by (vm_compute; reflexivity).
  assert (forall a b, OpRename a b
                      ∉ newOps Sample.blindWorld
                          (snd (rotate Sample.logger Sample.globals Sample.blindWorld)))
    as H2.
  { intros a b Hin.
    assert (newOps Sample.blindWorld
              (snd (rotate Sample.logger Sample.globals Sample.blindWorld))
            = [OpMkdirAll "/var/log"; OpStat "/var/log/foo.log";
               OpCreate "/var/log/foo.log" 384]) as Hops
      by (vm_compute; reflexivity).
    rewrite Hops in Hin. set_solver. }
  assert (rotate Sample.logger Sample.globals Sample.blindWorld
          = (None, snd (fst (rotate Sample.logger Sample.globals Sample.blindWorld)),
             snd (rotate Sample.logger Sample.globals Sample.blindWorld))) as H3
    by (vm_compute; reflexivity).
  exact (conj H1 (conj H2 (conj H3
    (rotate_without_rename_truncates Sample.logger Sample.globals
       Sample.blindWorld _ _ _ H1 H2 H3)))).
Defined.

Lemma Write_keeps_size_in_sync_witness :
  let l := Sample.openLogger in
  let g := Sample.globals in
  let w := Sample.world in
  let p := Sample.bytes 7 in
  inSync l w
  /\ inInt64 (preSize l w + Z.of_nat (length p))
  /\ inSync (wr_logger (Write l g w p)) (wr_world (Write l g w p)).
Proof.
  cbv zeta.
  assert (inSync Sample.openLogger Sample.world) as H1
    by (exists (mkFile (Sample.bytes 5) 420); split; vm_compute; reflexivity).
  assert (inInt64 (preSize Sample.openLogger Sample.world
                   + Z.of_nat (length (Sample.bytes 7)))) as H2
    by (split; vm_compute; [discriminate | reflexivity]).
  exact (conj H1 (conj H2
    (Write_keeps_size_in_sync Sample.openLogger Sample.globals Sample.world
       (Sample.bytes 7) H1 H2))).
Defined.

Lemma Write_appends_payload_witness :
  let l := Sample.openLogger in
  let g := Sample.globals in
  let w := Sample.world in
  let p := Sample.bytes 3 in
  inSync l w
  /\ inInt64 (preSize l w + Z.of_nat (length p))
  /\ wr_err (Write l g w p) = None
  /\ (let r := Write l g w p in
      exists h x, file (wr_logger r) = Some h
        /\ w_files (wr_world r) !! h = Some x
        /\ f_data x = (if rotated w (wr_world r) then [] else logData l w) ++ p).
Proof.
  cbv zeta.
  assert (inSync Sample.openLogger Sample.world) as H1
    by (exists (mkFile (Sample.bytes 5) 420); split; vm_compute; reflexivity).
  assert (inInt64 (preSize Sample.openLogger Sample.world
                   + Z.of_nat (length (Sample.bytes 3)))) as H2
    by (split; vm_compute; [discriminate | reflexivity]).
  assert (wr_err (Write Sample.openLogger Sample.globals Sample.world
                    (Sample.bytes 3)) = None) as H3 by (vm_compute; reflexivity).
  exact (conj H1 (conj H2 (conj H3
    (Write_appends_payload Sample.openLogger Sample.globals Sample.world
       (Sample.bytes 3) H1 H2 H3)))).
Defined.

Lemma open_write_rotates_over_threshold_witness :
  let l := Sample.openLogger in
  let g := Sample.globals in
  let w := Sample.world in
  let p := Sample.bytes 6 in
  is_Some (file l)
  /\ LogSplitDay (cfg l) <= 0
  /\ inInt64 (size l + Z.of_nat (length p))
  /\ wr_err (Write l g w p) = None
  /\ rotated w (wr_world (Write l g w p))
     = (Lumberjack.max g l <? size l + Z.of_nat (length p)).
Proof.
  cbv zeta.
  assert (is_Some (file Sample.openLogger)) as H1 by (by eexists).
  assert (LogSplitDay (cfg Sample.openLogger) <= 0) as H2
    by (vm_compute; discriminate).
  assert (inInt64 (size Sample.openLogger + Z.of_nat (length (Sample.bytes 6))))
    as H3 by (split; vm_compute; [discriminate | reflexivity]).
  assert (wr_err (Write Sample.openLogger Sample.globals Sample.world
                    (Sample.bytes 6)) = None) as H4 by (vm_compute; reflexivity).
  exact (conj H1 (conj H2 (conj H3 (conj H4
    (open_write_rotates_over_threshold Sample.openLogger Sample.globals
       Sample.world (Sample.bytes 6) H1 H2 H3 H4))))).
Defined.

Lemma first_write_rotates_from_threshold_witness :
  let l := Sample.logger in
  let g := Sample.globals in
  let w := Sample.world in
  let p := Sample.bytes 5 in
  let x := mkFile (Sample.bytes 5) 420 in
  let name := filename w l in
  file l = None
  /\ w_files w !! key name = Some x
  /\ (forall n, w_fate w n (OpStat name) = Succeeds)
  /\ (forall n, w_fate w n (OpAppend name) = Succeeds)
  /\ LogSplitDay (cfg l) <= 0
  /\ inInt64 (sizeOf x + Z.of_nat (length p))
  /\ wr_err (Write l g w p) = None
  /\ rotated w (wr_world (Write l g w p))
     = (Lumberjack.max g l <=? sizeOf x + Z.of_nat (length p)).
Proof.
  cbv zeta.
  assert (file Sample.logger = None) as H1 by reflexivity.
  assert (w_files Sample.world !! key (filename Sample.world Sample.logger)
          = Some (mkFile (Sample.bytes 5) 420)) as H2 by (vm_compute; reflexivity).
  assert (forall n, w_fate Sample.world n
                      (OpStat (filename Sample.world Sample.logger)) = Succeeds)
    as H3 by (intros n; reflexivity).
  assert (forall n, w_fate Sample.world n
                      (OpAppend (filename Sample.world Sample.logger)) = Succeeds)
    as H4 by (intros n; reflexivity).
  assert (LogSplitDay (cfg Sample.logger) <= 0) as H5
    by (vm_compute; discriminate).
  assert (inInt64 (sizeOf (mkFile (Sample.bytes 5) 420)
                   + Z.of_nat (length (Sample.bytes 5)))) as H6
    by (split; vm_compute; [discriminate | reflexivity]).
  assert (wr_err (Write Sample.logger Sample.globals Sample.world
                    (Sample.bytes 5)) = None) as H7 by (vm_compute; reflexivity).
  exact (conj H1 (conj H2 (conj H3 (conj H4 (conj H5 (conj H6 (conj H7
    (first_write_rotates_from_threshold Sample.logger Sample.globals
       Sample.world (Sample.bytes 5) _ H1 H2 H3 H4 H5 H6 H7)))))))).
Defined.

Lemma Write_keeps_day_counter_in_range_witness :
  let l := Sample.dailyLogger in
  let g := Sample.eveGlobals in
  let w := Sample.world in
  let p := Sample.bytes 1 in
  0 < LogSplitDay (cfg l) < 2 ^ 63
  /\ 0 <= splitDayCount l < LogSplitDay (cfg l)
  /\ (let r := Write l g w p in
      cfg (wr_logger r) = cfg l
      /\ 0 <= splitDayCount (wr_logger r) < LogSplitDay (cfg l)).
Proof.
  cbv zeta.
  assert (0 < LogSplitDay (cfg Sample.dailyLogger) < 2 ^ 63) as H1
    by (split; vm_compute; reflexivity).
  assert (0 <= splitDayCount Sample.dailyLogger
          < LogSplitDay (cfg Sample.dailyLogger)) as H2
    by (split; vm_compute; [discriminate | reflexivity]).
  exact (conj H1 (conj H2
    (Write_keeps_day_counter_in_range Sample.dailyLogger Sample.eveGlobals
       Sample.world (Sample.bytes 1) H1 H2))).
Defined.

Lemma Write_leaves_flag_only_on_failed_day_split_witness :
  let l := Sample.dailyLogger in
  let g := Sample.eveGlobals in
  let w := Sample.shakyWorld in
  let p := Sample.bytes 1 in
  isSplitDay g = false
  /\ (let r := Write l g w p in
      (wr_err r = None -> isSplitDay (wr_globals r) = false)
      /\ (isSplitDay (wr_globals r) = true ->
          0 < LogSplitDay (cfg l) /\ is_Some (wr_err r) /\ wr_n r = 0
          /\ file (wr_logger r) = None /\ splitDayCount (wr_logger r) = 0)).
Proof.
  cbv zeta.
  assert (isSplitDay Sample.eveGlobals = false) as H1 by reflexivity.
  exact (conj H1
    (Write_leaves_flag_only_on_failed_day_split Sample.dailyLogger
       Sample.eveGlobals Sample.shakyWorld (Sample.bytes 1) H1)).
Defined.

Lemma oldLogFiles_lists_backups_witness :
  let l := Sample.keeper in
  let w := Sample.archive in
  let w1 := snd (oldLogFiles l w) in
  let files := Sample.backups in
  oldLogFiles l w = (inl files, w1)
  /\ w_files w1 = w_files w
  /\ Sorted newestFirst files
  /\ (forall lf, lf ∈ files
        <-> info lf ∈ entries (w_files w) (dir w l)
            /\ backupEntry (cfg l) (w_tz w) (fst (prefixAndExt w l))
                           (snd (prefixAndExt w l)) lf)
  /\ (forall lf, lf ∈ files -> Name lf <> Base (filename w l)).
Proof.
  cbv zeta.
  assert (oldLogFiles Sample.keeper Sample.archive
          = (inl Sample.backups, snd (oldLogFiles Sample.keeper Sample.archive)))
    as H1 by (vm_compute; reflexivity).
  exact (conj H1
    (oldLogFiles_lists_backups Sample.keeper Sample.archive _ _ H1)).
Defined.

(** ** The sweep and the log itself *)

Module FilePathMore.
Import FilePath FilePathFacts.

(** Cleaning keeps a plain last element. *)
Lemma cleanChars_last (pre f : list ascii) :
  plainChars f -> (pre = [] \/ exists q, pre = q ++ [slash]) ->
  exists pre', (pre' = [] \/ exists q, pre' = q ++ [slash])
               /\ cleanChars (pre ++ f) = pre' ++ f.
Proof.
  intros Hp Hpre.
  destruct Hpre as [-> | [q ->]].
  - destruct (cleanChars_ending [] f Hp) as (_ & _ & _ & Hc).
    exists []. split; [by left | done].
  - destruct (cleanChars_ending q f Hp) as (pre' & Hpre' & Hc & _).
    exists pre'. split; [done|]. by rewrite <- app_assoc.
Qed.

Lemma Base_Clean_last (pre f : list ascii) :
  plainChars f -> (pre = [] \/ exists q, pre = q ++ [slash]) ->
  Base (Clean (str (pre ++ f))) = str f.
Proof.
  intros Hp Hpre. unfold Base, Clean. rewrite !chars_str.
  destruct (cleanChars_last pre f Hp Hpre) as (pre' & Hpre' & ->).
  by rewrite baseChars_ending.
Qed.

Lemma Join_last (d f : string) :
  plainName f = true ->
  exists pre, (pre = [] \/ exists q, pre = q ++ [slash])
              /\ chars (Join d f) = pre ++ chars f.
Proof.
  intros Hp. apply plainName_chars in Hp.
  assert (f <> EmptyString) as Hne.
  { intros ->. by destruct Hp as (_ & He & _). }
  destruct (cleanChars_ending (chars d) (chars f) Hp) as (pre & Hpre & Hc1 & Hc2).
  unfold Join, Clean.
  destruct d as [|c d'] eqn:Ed; destruct f as [|c' f'] eqn:Ef; try done;
    rewrite <- ?Ed, <- ?Ef in *.
  - exists []. split; [by left|]. by rewrite chars_str, Hc2.
  - exists pre. split; [done|].
    rewrite chars_str, !chars_app. change (chars "/") with [slash].
    simpl. by rewrite Hc1.
Qed.

Lemma plainChars_app (f s : list ascii) :
  plainChars f -> forallb notSlash s = true -> (2 <= length s)%nat ->
  plainChars (f ++ s).
Proof.
  intros (Hf & He & _) Hs Hl. unfold plainChars.
  rewrite forallb_app, Hf, Hs.
  destruct f as [|a f]; [done|].
  destruct s as [|b [|c s]]; simpl in Hl; try lia.
  repeat split; try done.
  - simpl. by destruct f.
  - simpl. destruct f as [|a' f]; [done|]. simpl. by destruct f.
Qed.

(** The last element of the key of a file in directory [d]. *)
Lemma Base_key_Join (d f : string) :
  plainName f = true -> Base (OS.key (Join d f)) = f.
Proof.
  intros Hp. destruct (Join_last d f Hp) as (pre & Hpre & Hc).
  apply plainName_chars in Hp. unfold OS.key.
  rewrite <- (str_chars (Join d f)), Hc, Base_Clean_last by done.
  apply str_chars.
Qed.

Lemma Base_key_Join_app (d f s : string) :
  plainName f = true -> noSlash s = true -> (2 <= String.length s)%nat ->
  Base (OS.key (Join d f +:+ s)) = f +:+ s.
Proof.
  intros Hp Hs Hl. destruct (Join_last d f Hp) as (pre & Hpre & Hc).
  apply plainName_chars in Hp. unfold OS.key.
  rewrite <- (str_chars (Join d f +:+ s)), chars_app, Hc, <- app_assoc.
  rewrite Base_Clean_last; [by rewrite str_app, !str_chars | | done].
  apply plainChars_app; [done | done |].
  by rewrite <- len_chars.
Qed.

Lemma Base_key_path (a b : string) :
  plainName b = true -> Base (OS.key (a +:+ "/" +:+ b)) = b.
Proof.
  intros Hp. apply plainName_chars in Hp. unfold OS.key.
  rewrite <- (str_chars (a +:+ "/" +:+ b)), !chars_app.
  change (chars "/") with [slash].
  replace (chars a ++ [slash] ++ chars b) with ((chars a ++ [slash]) ++ chars b)
    by (by rewrite <- app_assoc).
  rewrite Base_Clean_last; [apply str_chars | done |].
  right. by eexists.
Qed.

Lemma Base_path (a b : string) :
  plainName b = true -> Base (a +:+ "/" +:+ b) = b.
Proof.
  intros Hp. apply plainName_chars in Hp. unfold Base.
  rewrite !chars_app. change (chars "/") with [slash].
  replace (chars a ++ [slash] ++ chars b) with ((chars a ++ [slash]) ++ chars b)
    by (by rewrite <- app_assoc).
  rewrite baseChars_ending; [apply str_chars | done |].
  right. by eexists.
Qed.

(** [Base] gives a name without separator, or the root. *)
Lemma baseChars_shape (l : list ascii) :
  baseChars l = [slash] \/ forallb notSlash (baseChars l) = true.
Proof.
  unfold baseChars. destruct l as [|c l]; [by right|].
  destruct (dropWhileB isSlash (rev (c :: l))) as [|x r]; [by left|].
  right. generalize (x :: r). intros r'.
  rewrite forallb_forall. intros y Hy. apply in_rev in Hy.
  induction r' as [|z r' IH]; [done|]. simpl in Hy.
  destruct (notSlash z) eqn:Ez; [|done].
  destruct Hy as [<-|Hy]; [done | by apply IH].
Qed.

End FilePathMore.

Lemma entries_names (fs : gmap string File) (d : string) (fi : FileInfo) :
  fi ∈ entries fs d -> exists k, fi_name fi = Base k.
Proof.
  unfold entries. rewrite merge_sort_Permutation, list_elem_of_omap.
  intros ([k x] & _ & H).
  destruct (String.eqb (Dir k) (key d)); [|discriminate].
  inversion H; subst. by exists k.
Qed.

(** A listed backup has a plain name. *)
Lemma listed_plain (l : Logger) (w : World) (lf : logInfo) :
  info lf ∈ entries (w_files w) (dir w l) ->
  backupEntry (cfg l) (w_tz w) (fst (prefixAndExt w l))
              (snd (prefixAndExt w l)) lf ->
  plainName (Name lf) = true.
Proof.
  intros Hin Hb. apply entries_names in Hin as [k Hk].
  apply backupEntry_prefix, GoStringMore.HasPrefix_inv in Hb as [r Hr].
  unfold prefixAndExt in Hr. cbn [fst] in Hr.
  set (stem := trimExt _ _) in Hr.
  rewrite GoStringFacts.app_assoc in Hr.
  assert (noSlash (Name lf) = true) as Hns.
  { unfold Name. rewrite Hk. unfold noSlash, Base.
    rewrite FilePathFacts.chars_str.
    destruct (FilePathMore.baseChars_shape (chars k)) as [Hs|Hs]; [|done].
    exfalso. unfold Name in Hr. rewrite Hk in Hr. unfold Base in Hr.
    rewrite Hs in Hr. apply (f_equal chars) in Hr.
    rewrite FilePathFacts.chars_str, !FilePathFacts.chars_app in Hr.
    change (chars "-") with ["-"%char] in Hr.
    destruct (chars stem) as [|c [|c' s]]; simpl in Hr; discriminate. }
  rewrite Hr in Hns |- *. rewrite !noSlash_app in Hns.
  apply andb_prop in Hns as [H1 H2]. apply andb_prop in H2 as [_ H2].
  by apply dashed_plain.
Qed.

Section LiveLog.
Variable gzip : list Byte.byte -> list Byte.byte.

(** X20.  A sweep never touches the log itself: for a log path that
    ends in a plain file name, the file at that path is after
    [millRunOnce] what it was before, whatever the directory holds and
    whatever fails. *)
Theorem millRunOnce_spares_the_log (l : Logger) (g : Globals) (w : World)
    (a b : string) :
  filename w l = a +:+ "/" +:+ b ->
  plainName b = true ->
  w_files (snd (millRunOnce gzip l g w)) !! key (filename w l)
  = w_files w !! key (filename w l).
Proof.
  intros Hname Hb.
  pose proof (millRunOnce_frame gzip l g w) as Hframe. cbv zeta in Hframe.
  destruct (oldLogFiles l w) as [r w1] eqn:E. cbn [fst] in Hframe.
  destruct r as [files|e]; [|by rewrite Hframe].
  apply Hframe. intros Hin.
  apply elem_of_sweepKeys in Hin as (f & Hf & Hk).
  apply (oldLogFiles_members _ _ _ _ E) in Hf as [Hent Hbe].
  pose proof (listed_plain _ _ _ Hent Hbe) as Hplain.
  pose proof (backupEntry_not_live _ _ _ Hbe) as Hlive.
  rewrite Hname, FilePathMore.Base_path in Hlive by done.
  destruct Hk as [Hk|Hk]; apply (f_equal Base) in Hk;
    rewrite Hname, FilePathMore.Base_key_path in Hk by done.
  - rewrite FilePathMore.Base_key_Join in Hk by done. congruence.
  - rewrite FilePathMore.Base_key_Join_app in Hk;
      [| done | reflexivity | simpl; lia].
    apply backupEntry_prefix, GoStringMore.HasPrefix_inv in Hbe as [r Hr].
    assert (HasPrefix b (fst (prefixAndExt w l)) = true) as Hp.
    { rewrite Hk, Hr, GoStringFacts.app_assoc.
      apply GoStringFacts.HasPrefix_app. }
    unfold prefixAndExt in Hp. cbn [fst] in Hp.
    rewrite Hname, FilePathMore.Base_path in Hp by done.
    by rewrite live_log_no_prefix in Hp.
Qed.

End LiveLog.

Lemma millRunOnce_spares_the_log_witness :
  let l := Sample.keeper in
  let g := Sample.globals in
  let w := Sample.archive in
  filename w l = "/var/log" +:+ "/" +:+ "foo.log"
  /\ plainName "foo.log" = true
  /\ w_files (snd (millRunOnce Sample.toyGzip l g w)) !! key (filename w l)
     = w_files w !! key (filename w l).
Proof.
  cbv zeta.
  assert (filename Sample.archive Sample.keeper
          = "/var/log" +:+ "/" +:+ "foo.log") as H1 by reflexivity.
  assert (plainName "foo.log" = true) as H2 by reflexivity.
  exact (conj H1 (conj H2
    (millRunOnce_spares_the_log Sample.toyGzip Sample.keeper Sample.globals Sample.archive
       "/var/log" "foo.log" H1 H2))).
Defined.

Lemma Write_size_accounting_witness :
  let l := Sample.openLogger in
  let g := Sample.globals in
  let w := Sample.world in
  let p := Sample.bytes 4 in
  inInt64 (preSize l w + Z.of_nat (length p))
  /\ wr_err (Write l g w p) = None
  /\ inSync l w
  /\ (let r := Write l g w p in
      let before := if rotated w (wr_world r) then [] else logData l w in
      let start := if rotated w (wr_world r) then 0 else preSize l w in
      (wr_err r = None ->
       wr_n r = Z.of_nat (length p)
       /\ size (wr_logger r) <= Lumberjack.max g l
       /\ Lumberjack.max (wr_globals r) (wr_logger r) = Lumberjack.max g l
       /\ size (wr_logger r) = start + wr_n r)
      /\ (inSync l w ->
          0 <= wr_n r <= Z.of_nat (length p)
          /\ inSync (wr_logger r) (wr_world r)
          /\ (wr_err r = None \/ 0 < wr_n r ->
              exists h x,
                file (wr_logger r) = Some h
                /\ w_files (wr_world r) !! h = Some x
                /\ f_data x = before ++ firstn (Z.to_nat (wr_n r)) p
                /\ size (wr_logger r) = sizeOf x
                /\ size (wr_logger r) = start + wr_n r
                /\ (wr_err r = None
                    \/ wr_err r = Some (EOs EIO (OpWrite h)))))).
Proof.
  cbv zeta.
  assert (inInt64 (preSize Sample.openLogger Sample.world
                   + Z.of_nat (length (Sample.bytes 4)))) as H1
    by (split; vm_compute; [discriminate | reflexivity]).
  assert (wr_err (Write Sample.openLogger Sample.globals Sample.world
                        (Sample.bytes 4)) = None) as H2
    by (vm_compute; reflexivity).
  assert (inSync Sample.openLogger Sample.world) as H3
    by (exists (mkFile (Sample.bytes 5) 420); split; vm_compute; reflexivity).
  exact (conj H1 (conj H2 (conj H3
    (Write_size_accounting Sample.openLogger Sample.globals Sample.world
       (Sample.bytes 4) H1)))).
Defined.

(** The write fails after two bytes: [Write] returns 2 and the error of
    the write; the log has grown by two bytes and the counter by 2. *)
Lemma partial_write_is_counted :
  let r := Write Sample.openLogger Sample.globals Sample.tornWorld
                 (Sample.bytes 4) in
  wr_n r = 2
  /\ wr_err r = Some (EOs EIO (OpWrite "/var/log/foo.log"))
  /\ size (wr_logger r) = 7
  /\ w_files (wr_world r) !! "/var/log/foo.log"
     = Some (mkFile (Sample.bytes 7) 420).
Proof. evaluate. Qed.
